(** * Sentinel iov-core: mnemonic codec and UserProfile lifecycle

    A shallow embedding of the cryptographic-identity core:
    - [Sha2], [Hmac], [Pbkdf2]: the hash primitives the BIP39 codec relies on;
    - [Bip39]: entropy <-> mnemonic conversion, the [EnglishMnemonic]
      validator and [mnemonicToSeed];
    - [Profile]: the [UserProfile] class of [userprofile.ts] with its
      collaborators (keyring entries, transaction codec, key-value store). *)

From Stdlib Require Import ZArith List Strings.String Strings.Ascii Strings.Byte Bool Lia.
From Stdlib Require PrimFloat.
From stdpp Require Import base gmap strings list.

Local Unset Default Proof Using.
Local Open Scope Z_scope.

(** ** Bytes, bits and words *)

(** Results of fallible operations: the value, or the error that the
    TypeScript code throws. *)
Inductive result (E A : Type) : Type :=
| Ok (a : A)
| Err (e : E).
Arguments Ok {E A} a.
Arguments Err {E A} e.

Definition Z_of_byte (b : byte) : Z := Z.of_N (Byte.to_N b).

Definition byte_of_Z (z : Z) : byte :=
  match Byte.of_N (Z.to_N (z mod 256)) with
  | Some b => b
  | None => x00
  end.

Fixpoint bytes_eqb (a b : list byte) : bool :=
  match a, b with
  | [], [] => true
  | x :: a', y :: b' => Byte.eqb x y && bytes_eqb a' b'
  | _, _ => false
  end.

(** Big-endian serialisation of the low [8 * n] bits of [z]. *)
Fixpoint be_bytes (n : nat) (z : Z) : list byte :=
  match n with
  | O => []
  | S k => byte_of_Z (Z.shiftr z (8 * Z.of_nat k)) :: be_bytes k z
  end.

(** Big-endian value of a byte sequence. *)
Definition be_value (bs : list byte) : Z :=
  fold_left (fun acc b => Z.lor (Z.shiftl acc 8) (Z_of_byte b)) bs 0.

(** Cut a list into consecutive groups of [n] elements (the last group may
    be shorter). [fuel] bounds the number of groups. *)
Fixpoint chunks_fuel {A} (fuel n : nat) (l : list A) : list (list A) :=
  match fuel with
  | O => []
  | S f =>
      match l with
      | [] => []
      | _ => firstn n l :: chunks_fuel f n (skipn n l)
      end
  end.

Definition chunks {A} (n : nat) (l : list A) : list (list A) :=
  chunks_fuel (length l) n l.

(** ** The SHA-2 family (FIPS 180-4), over [Z] words with explicit wrap-around *)

Module Sha2.

Record params := {
  wbits : Z;                    (* word size in bits *)
  lenbytes : nat;               (* size of the length field of the padding *)
  K : list Z;                   (* round constants *)
  IV : list Z;                  (* initial hash value *)
  bigS0 : Z * Z * Z;            (* rotations of Sigma0 *)
  bigS1 : Z * Z * Z;            (* rotations of Sigma1 *)
  smallS0 : Z * Z * Z;          (* two rotations and a shift of sigma0 *)
  smallS1 : Z * Z * Z           (* two rotations and a shift of sigma1 *)
}.

Section Generic.
Variable P : params.

Definition wbytes : nat := Z.to_nat (wbits P / 8).
Definition blockbytes : nat := (16 * wbytes)%nat.

Definition wrap (x : Z) : Z := Z.land x (Z.ones (wbits P)).
Definition add (x y : Z) : Z := wrap (x + y).
Definition rotr (n x : Z) : Z :=
  Z.lor (Z.shiftr x n) (wrap (Z.shiftl x (wbits P - n))).

Definition Ch (x y z : Z) : Z := Z.lxor (Z.land x y) (Z.ldiff z x).
Definition Maj (x y z : Z) : Z :=
  Z.lxor (Z.lxor (Z.land x y) (Z.land x z)) (Z.land y z).

Definition rot3 (r : Z * Z * Z) (x : Z) : Z :=
  let '(a, b, c) := r in Z.lxor (Z.lxor (rotr a x) (rotr b x)) (rotr c x).
Definition rot2shr (r : Z * Z * Z) (x : Z) : Z :=
  let '(a, b, c) := r in Z.lxor (Z.lxor (rotr a x) (rotr b x)) (Z.shiftr x c).

(** Padding: a 1 bit, zeros, and the bit length, up to a whole number of
    blocks. *)
Definition pad (msg : list byte) : list byte :=
  let len := length msg in
  let used := ((len + 1 + lenbytes P) mod blockbytes)%nat in
  let zeros := ((blockbytes - used) mod blockbytes)%nat in
  msg ++ x80 :: repeat x00 zeros ++ be_bytes (lenbytes P) (8 * Z.of_nat len).

Definition block_words (block : list byte) : list Z :=
  map be_value (chunks wbytes block).

(** Message schedule, kept most recent word first: when [rev_w] holds
    W(t-1) .. W(0), the next word reads W(t-2), W(t-7), W(t-15), W(t-16). *)
Definition next_w (rev_w : list Z) : Z :=
  add (add (rot2shr (smallS1 P) (nth 1%nat rev_w 0)) (nth 6%nat rev_w 0))
      (add (rot2shr (smallS0 P) (nth 14%nat rev_w 0)) (nth 15%nat rev_w 0)).

Fixpoint extend (n : nat) (rev_w : list Z) : list Z :=
  match n with
  | O => rev_w
  | S k => extend k (next_w rev_w :: rev_w)
  end.

Definition schedule (block : list byte) : list Z :=
  rev (extend (length (K P) - 16) (rev (block_words block))).

Definition state : Type := Z * Z * Z * Z * Z * Z * Z * Z.

Definition round (s : state) (kw : Z * Z) : state :=
  let '(a, b, c, d, e, f, g, h) := s in
  let t1 := add (add (add h (rot3 (bigS1 P) e)) (Ch e f g)) (add (fst kw) (snd kw)) in
  let t2 := add (rot3 (bigS0 P) a) (Maj a b c) in
  (add t1 t2, a, b, c, add d t1, e, f, g).

Definition compress (s : state) (block : list byte) : state :=
  let '(a, b, c, d, e, f, g, h) := s in
  let '(a', b', c', d', e', f', g', h') :=
    fold_left round (combine (K P) (schedule block)) s in
  (add a a', add b b', add c c', add d d',
   add e e', add f f', add g g', add h h').

Definition init : state :=
  let iv := IV P in
  (nth 0%nat iv 0, nth 1%nat iv 0, nth 2%nat iv 0, nth 3%nat iv 0,
   nth 4%nat iv 0, nth 5%nat iv 0, nth 6%nat iv 0, nth 7%nat iv 0).

Definition digest (s : state) : list byte :=
  let '(a, b, c, d, e, f, g, h) := s in
  concat (map (be_bytes wbytes) [a; b; c; d; e; f; g; h]).

Definition hash (msg : list byte) : list byte :=
  digest (fold_left compress (chunks blockbytes (pad msg)) init).

End Generic.

(** The constants of FIPS 180-4, sections 4.2 and 5.3: the first [w] bits
    of the fractional parts of the cube roots (round constants) and of the
    square roots (initial hash value) of the first primes. *)

(** The first [count] primes by trial division, looking at [fuel]
    candidates from [n] on; [found] holds the primes below [n], largest
    first. *)
Fixpoint primes_from (count fuel : nat) (n : Z) (found : list Z) : list Z :=
  match count, fuel with
  | O, _ => rev found
  | _, O => rev found
  | S c, S f =>
      if forallb (fun p => negb (n mod p =? 0)) found
      then primes_from c f (n + 1) (n :: found)
      else primes_from count f (n + 1) found
  end.

Definition first_primes (count : nat) : list Z := primes_from count 1024 2 [].

(** The integer [r] with [r ^ k <= x < (r + 1) ^ k], by bisection between
    [lo] and [hi]. *)
Fixpoint root_between (fuel : nat) (k lo hi x : Z) : Z :=
  match fuel with
  | O => lo
  | S f =>
      if hi - lo <=? 1 then lo
      else
        let mid := (lo + hi) / 2 in
        if mid ^ k <=? x then root_between f k mid hi x
        else root_between f k lo mid x
  end.

Definition fractional_root (k w p : Z) : Z :=
  let x := p * 2 ^ (k * w) in
  root_between (Z.to_nat (w + 16)) k 0 (2 ^ (w + 10)) x mod 2 ^ w.

Definition round_constants (w : Z) (count : nat) : list Z :=
  map (fractional_root 3 w) (first_primes count).

Definition initial_hash (w : Z) : list Z :=
  map (fractional_root 2 w) (first_primes 8).

Definition sha256_K : list Z := Eval vm_compute in round_constants 32 64.
Definition sha256_IV : list Z := Eval vm_compute in initial_hash 32.
Definition sha512_K : list Z := Eval vm_compute in round_constants 64 80.
Definition sha512_IV : list Z := Eval vm_compute in initial_hash 64.

Definition sha256_params : params := {|
  wbits := 32;
  lenbytes := 8;
  K := sha256_K;
  IV := sha256_IV;
  bigS0 := (2, 13, 22);
  bigS1 := (6, 11, 25);
  smallS0 := (7, 18, 3);
  smallS1 := (17, 19, 10)
|}.

Definition sha512_params : params := {|
  wbits := 64;
  lenbytes := 16;
  K := sha512_K;
  IV := sha512_IV;
  bigS0 := (28, 34, 39);
  bigS1 := (14, 18, 41);
  smallS0 := (1, 8, 7);
  smallS1 := (19, 61, 6)
|}.

Definition sha256 : list byte -> list byte := hash sha256_params.
Definition sha512 : list byte -> list byte := hash sha512_params.

End Sha2.

(** ** HMAC (RFC 2104) and PBKDF2 (RFC 8018) over an arbitrary hash *)

Definition xor_byte (a b : byte) : byte :=
  byte_of_Z (Z.lxor (Z_of_byte a) (Z_of_byte b)).

Definition xor_bytes (a b : list byte) : list byte :=
  map (fun p => xor_byte (fst p) (snd p)) (combine a b).

Module Hmac.

Section Generic.
Variable hash : list byte -> list byte.
Variable blocksize : nat.

(** Keys longer than a block are hashed first; then the key is padded with
    zero bytes to a whole block. *)
Definition block_key (key : list byte) : list byte :=
  let k := if (blocksize <? length key)%nat then hash key else key in
  k ++ repeat x00 (blocksize - length k).

Definition hmac (key msg : list byte) : list byte :=
  let k := block_key key in
  let ipad := xor_bytes k (repeat x36 (length k)) in
  let opad := xor_bytes k (repeat x5c (length k)) in
  hash (opad ++ hash (ipad ++ msg)).

End Generic.

Definition hmac_sha512 : list byte -> list byte -> list byte :=
  hmac Sha2.sha512 128.

End Hmac.

Module Pbkdf2.

Section Generic.
Variable prf : list byte -> list byte -> list byte.
Variable hlen : nat.

(** [iterate c u acc]: xor the next [c] values U(j+1) = PRF(P, U(j)) into
    [acc], starting after [u]. *)
Fixpoint iterate (password : list byte) (c : nat) (u acc : list byte) : list byte :=
  match c with
  | O => acc
  | S k =>
      let u' := prf password u in
      iterate password k u' (xor_bytes acc u')
  end.

(** Block [i] of the derived key: U1 xor U2 xor ... xor Uc. *)
Definition F (password salt : list byte) (c i : nat) : list byte :=
  let u1 := prf password (salt ++ be_bytes 4 (Z.of_nat i)) in
  iterate password (c - 1) u1 u1.

Definition pbkdf2 (password salt : list byte) (c dklen : nat) : list byte :=
  let l := ((dklen + hlen - 1) / hlen)%nat in
  firstn dklen (concat (map (F password salt c) (seq 1 l))).

End Generic.

Definition pbkdf2_hmac_sha512 : list byte -> list byte -> nat -> nat -> list byte :=
  pbkdf2 Hmac.hmac_sha512 64.

End Pbkdf2.

(** ** BIP39: mnemonic codec, validator and seed derivation *)

Module Bip39.

Inductive error : Type :=
| InvalidLength
| InvalidFormat
| InvalidWordCount (got : nat)
| InvalidChecksum.

(** *** Bit strings, most significant bit first *)

Fixpoint bits_of_nat (n v : nat) : list bool :=
  match n with
  | O => []
  | S k => bits_of_nat k (v / 2) ++ [Nat.odd v]
  end.

Definition nat_of_bits (bs : list bool) : nat :=
  fold_left (fun acc (b : bool) => (2 * acc + Nat.b2n b)%nat) bs 0%nat.

Definition byte_of_nat (v : nat) : byte :=
  match Byte.of_nat (v mod 256) with
  | Some b => b
  | None => x00
  end.

Definition bytes_to_bits (bs : list byte) : list bool :=
  flat_map (fun b => bits_of_nat 8 (Byte.to_nat b)) bs.

Definition bits_to_bytes (bits : list bool) : list byte :=
  map (fun g => byte_of_nat (nat_of_bits g)) (chunks 8 bits).

Definition bits_eqb (a b : list bool) : bool :=
  (length a =? length b)%nat && forallb (fun p => Bool.eqb (fst p) (snd p)) (combine a b).

(** *** Phrases: words separated by single spaces *)

Definition space : ascii := " "%char.

Definition is_space (c : ascii) : bool := Ascii.eqb c space.

(** The character set of the reference wordlist: lowercase ASCII letters. *)
Definition is_lower (c : ascii) : bool :=
  let n := nat_of_ascii c in ((97 <=? n) && (n <=? 122))%nat.

(** Split on every single space, as [String.prototype.split(" ")] does:
    the empty string yields one empty word, and a leading, doubled or
    trailing space yields an empty word. *)
Fixpoint split_space (s : string) : list string :=
  match s with
  | EmptyString => [EmptyString]
  | String c r =>
      if is_space c then EmptyString :: split_space r
      else match split_space r with
           | w :: ws => String c w :: ws
           | [] => [String c EmptyString]
           end
  end.

Fixpoint join_space (ws : list string) : string :=
  match ws with
  | [] => EmptyString
  | [w] => w
  | w :: rest => (w ++ String space (join_space rest))%string
  end.

Fixpoint string_forallb (f : ascii -> bool) (s : string) : bool :=
  match s with
  | EmptyString => true
  | String c r => f c && string_forallb f r
  end.

Definition starts_with_space (s : string) : bool :=
  match s with
  | String c _ => is_space c
  | EmptyString => false
  end.

Fixpoint ends_with_space (s : string) : bool :=
  match s with
  | EmptyString => false
  | String c EmptyString => is_space c
  | String _ r => ends_with_space r
  end.

Fixpoint has_double_space (s : string) : bool :=
  match s with
  | String c1 ((String c2 _) as r) => (is_space c1 && is_space c2) || has_double_space r
  | _ => false
  end.

(** Modelled from the spec: step 1 of the validator of [bip39.ts] (section
    4.2): no leading or trailing space, no run of two or more spaces, no
    character outside the wordlist's character set. *)
Definition format_ok (s : string) : bool :=
  negb (starts_with_space s)
  && negb (ends_with_space s)
  && negb (has_double_space s)
  && string_forallb (fun c => is_space c || is_lower c) s.

Definition allowed_entropy_length (n : nat) : bool :=
  existsb (Nat.eqb n) [16; 20; 24; 28; 32]%nat.

Definition allowed_word_count (n : nat) : bool :=
  existsb (Nat.eqb n) [12; 15; 18; 21; 24]%nat.

(** A validated mnemonic value; [asString] is the accessor the tests use. *)
Record EnglishMnemonic : Type := MkMnemonic { asString : string }.

(** [bip39.ts] is not among the sources (only its test suite is), so the
    codec follows sections 4.1 and 4.2 of the specification.  The wordlist
    ("static ordered table of 2048 unique words") and the hash ("a
    cryptographic hash of the entropy") are the section's parameters; they
    are instantiated below with the English list and SHA-256. *)
Section Codec.
Variable wordlist : list string.
Variable hash : list byte -> list byte.

Fixpoint index_from (i : nat) (ws : list string) (w : string) : option nat :=
  match ws with
  | [] => None
  | x :: rest => if String.eqb x w then Some i else index_from (S i) rest w
  end.

Definition index_of (w : string) : option nat := index_from 0 wordlist w.

Fixpoint indexes (ws : list string) : option (list nat) :=
  match ws with
  | [] => Some []
  | w :: rest =>
      match index_of w, indexes rest with
      | Some i, Some idx => Some (i :: idx)
      | _, _ => None
      end
  end.

(** Modelled from the spec: the checksum of [bip39.ts], "checksum length in
    bits = entropy length in bits / 32", taken from the start of the hash. *)
Definition checksum_bits (entropy : list byte) : list bool :=
  firstn (length entropy * 8 / 32) (bytes_to_bits (hash entropy)).

Definition entropy_indexes (entropy : list byte) : list nat :=
  map nat_of_bits (chunks 11 (bytes_to_bits entropy ++ checksum_bits entropy)).

Definition entropy_words (entropy : list byte) : list string :=
  map (fun i => nth i wordlist EmptyString) (entropy_indexes entropy).

(** Modelled from the spec: [Bip39.encode] of [bip39.ts] (section 4.1):
    entropy bits followed by the checksum bits, in groups of 11 bits, each
    an index into the wordlist; the words are joined by single spaces. *)
Definition encode (entropy : list byte) : result error EnglishMnemonic :=
  if allowed_entropy_length (length entropy)
  then Ok (MkMnemonic (join_space (entropy_words entropy)))
  else Err InvalidLength.

(** Modelled from the spec: the inverse mapping of [bip39.ts] on a word
    sequence, "look up each word's index, concatenate 11-bit groups". *)
Definition words_bits (words : list string) : option (list bool) :=
  match indexes words with
  | Some idx => Some (flat_map (bits_of_nat 11) idx)
  | None => None
  end.

(** Of every 33 bits, 32 are entropy and one is checksum. *)
Definition split_bits (bits : list bool) : list bool * list bool :=
  let cslen := (length bits / 33)%nat in
  let entlen := (length bits - cslen)%nat in
  (firstn entlen bits, skipn entlen bits).

(** The checksum carried by the phrase against the one recomputed from the
    entropy it carries. *)
Definition checksum_ok (bits : list bool) : bool :=
  let '(ent, cs) := split_bits bits in
  bits_eqb cs (checksum_bits (bits_to_bytes ent)).

Definition words_entropy (words : list string) : option (list byte) :=
  match words_bits words with
  | None => None
  | Some bits =>
      if checksum_ok bits
      then Some (bits_to_bytes (fst (split_bits bits)))
      else None
  end.

(** Modelled from the spec: [Bip39.decode] of [bip39.ts] (section 4.1); a
    word that is not in the list fails like a checksum that does not match
    (section 4.2, step 3). *)
Definition decode (m : EnglishMnemonic) : result error (list byte) :=
  match words_entropy (split_space (asString m)) with
  | Some entropy => Ok entropy
  | None => Err InvalidChecksum
  end.

(** Modelled from the spec: the [EnglishMnemonic] constructor of [bip39.ts]
    (section 4.2), with its three checks in order, the first failure
    winning. *)
Definition EnglishMnemonic_new (s : string) : result error EnglishMnemonic :=
  if negb (format_ok s) then Err InvalidFormat
  else
    let words := split_space s in
    if negb (allowed_word_count (length words))
    then Err (InvalidWordCount (length words))
    else match words_entropy words with
         | Some _ => Ok (MkMnemonic s)
         | None => Err InvalidChecksum
         end.

End Codec.

(** *** Seed derivation *)

(** The canonical byte encoding of a text (Unicode normalisation followed
    by UTF-8) is the section's parameter. *)
Section Seed.
Variable canonical_bytes : string -> list byte.

Definition salt_prefix : string := "mnemonic".

(** Modelled from the spec: [Bip39.mnemonicToSeed] of [bip39.ts] (section
    4.3): PBKDF2 with HMAC-SHA512, 2048 iterations and 64 bytes of output,
    over the text and the passphrase prefixed with ["mnemonic"]; a missing
    passphrase is the empty one. *)
Definition mnemonicToSeed (mnemonicText : string) (passphrase : option string)
  : list byte :=
  let pass := match passphrase with Some p => p | None => EmptyString end in
  Pbkdf2.pbkdf2_hmac_sha512
    (canonical_bytes mnemonicText)
    (list_byte_of_string salt_prefix ++ canonical_bytes pass)
    2048 64.

End Seed.

(** *** The English wordlist *)

(** Modelled from the spec: the Wordlist component, a "static ordered table
    of 2048 unique words" that is not among the sources; it is the English
    list of BIP39, which the vectors of the test suite are written in. *)

Definition english : list string := [
  "abandon"; "ability"; "able"; "about"; "above"; "absent"; "absorb";
  "abstract"; "absurd"; "abuse"; "access"; "accident"; "account"; "accuse";
  "achieve"; "acid"; "acoustic"; "acquire"; "across"; "act"; "action";
  "actor"; "actress"; "actual"; "adapt"; "add"; "addict"; "address";
  "adjust"; "admit"; "adult"; "advance"; "advice"; "aerobic"; "affair";
  "afford"; "afraid"; "again"; "age"; "agent"; "agree"; "ahead"; "aim";
  "air"; "airport"; "aisle"; "alarm"; "album"; "alcohol"; "alert"; "alien";
  "all"; "alley"; "allow"; "almost"; "alone"; "alpha"; "already"; "also";
  "alter"; "always"; "amateur"; "amazing"; "among"; "amount"; "amused";
  "analyst"; "anchor"; "ancient"; "anger"; "angle"; "angry"; "animal";
  "ankle"; "announce"; "annual"; "another"; "answer"; "antenna"; "antique";
  "anxiety"; "any"; "apart"; "apology"; "appear"; "apple"; "approve";
  "april"; "arch"; "arctic"; "area"; "arena"; "argue"; "arm"; "armed";
  "armor"; "army"; "around"; "arrange"; "arrest"; "arrive"; "arrow"; "art";
  "artefact"; "artist"; "artwork"; "ask"; "aspect"; "assault"; "asset";
  "assist"; "assume"; "asthma"; "athlete"; "atom"; "attack"; "attend";
  "attitude"; "attract"; "auction"; "audit"; "august"; "aunt"; "author";
  "auto"; "autumn"; "average"; "avocado"; "avoid"; "awake"; "aware";
  "away"; "awesome"; "awful"; "awkward"; "axis"; "baby"; "bachelor";
  "bacon"; "badge"; "bag"; "balance"; "balcony"; "ball"; "bamboo";
  "banana"; "banner"; "bar"; "barely"; "bargain"; "barrel"; "base";
  "basic"; "basket"; "battle"; "beach"; "bean"; "beauty"; "because";
  "become"; "beef"; "before"; "begin"; "behave"; "behind"; "believe";
  "below"; "belt"; "bench"; "benefit"; "best"; "betray"; "better";
  "between"; "beyond"; "bicycle"; "bid"; "bike"; "bind"; "biology"; "bird";
  "birth"; "bitter"; "black"; "blade"; "blame"; "blanket"; "blast";
  "bleak"; "bless"; "blind"; "blood"; "blossom"; "blouse"; "blue"; "blur";
  "blush"; "board"; "boat"; "body"; "boil"; "bomb"; "bone"; "bonus";
  "book"; "boost"; "border"; "boring"; "borrow"; "boss"; "bottom";
  "bounce"; "box"; "boy"; "bracket"; "brain"; "brand"; "brass"; "brave";
  "bread"; "breeze"; "brick"; "bridge"; "brief"; "bright"; "bring";
  "brisk"; "broccoli"; "broken"; "bronze"; "broom"; "brother"; "brown";
  "brush"; "bubble"; "buddy"; "budget"; "buffalo"; "build"; "bulb"; "bulk";
  "bullet"; "bundle"; "bunker"; "burden"; "burger"; "burst"; "bus";
  "business"; "busy"; "butter"; "buyer"; "buzz"; "cabbage"; "cabin";
  "cable"; "cactus"; "cage"; "cake"; "call"; "calm"; "camera"; "camp";
  "can"; "canal"; "cancel"; "candy"; "cannon"; "canoe"; "canvas"; "canyon";
  "capable"; "capital"; "captain"; "car"; "carbon"; "card"; "cargo";
  "carpet"; "carry"; "cart"; "case"; "cash"; "casino"; "castle"; "casual";
  "cat"; "catalog"; "catch"; "category"; "cattle"; "caught"; "cause";
  "caution"; "cave"; "ceiling"; "celery"; "cement"; "census"; "century";
  "cereal"; "certain"; "chair"; "chalk"; "champion"; "change"; "chaos";
  "chapter"; "charge"; "chase"; "chat"; "cheap"; "check"; "cheese"; "chef";
  "cherry"; "chest"; "chicken"; "chief"; "child"; "chimney"; "choice";
  "choose"; "chronic"; "chuckle"; "chunk"; "churn"; "cigar"; "cinnamon";
  "circle"; "citizen"; "city"; "civil"; "claim"; "clap"; "clarify"; "claw";
  "clay"; "clean"; "clerk"; "clever"; "click"; "client"; "cliff"; "climb";
  "clinic"; "clip"; "clock"; "clog"; "close"; "cloth"; "cloud"; "clown";
  "club"; "clump"; "cluster"; "clutch"; "coach"; "coast"; "coconut";
  "code"; "coffee"; "coil"; "coin"; "collect"; "color"; "column";
  "combine"; "come"; "comfort"; "comic"; "common"; "company"; "concert";
  "conduct"; "confirm"; "congress"; "connect"; "consider"; "control";
  "convince"; "cook"; "cool"; "copper"; "copy"; "coral"; "core"; "corn";
  "correct"; "cost"; "cotton"; "couch"; "country"; "couple"; "course";
  "cousin"; "cover"; "coyote"; "crack"; "cradle"; "craft"; "cram"; "crane";
  "crash"; "crater"; "crawl"; "crazy"; "cream"; "credit"; "creek"; "crew";
  "cricket"; "crime"; "crisp"; "critic"; "crop"; "cross"; "crouch";
  "crowd"; "crucial"; "cruel"; "cruise"; "crumble"; "crunch"; "crush";
  "cry"; "crystal"; "cube"; "culture"; "cup"; "cupboard"; "curious";
  "current"; "curtain"; "curve"; "cushion"; "custom"; "cute"; "cycle";
  "dad"; "damage"; "damp"; "dance"; "danger"; "daring"; "dash"; "daughter";
  "dawn"; "day"; "deal"; "debate"; "debris"; "decade"; "december";
  "decide"; "decline"; "decorate"; "decrease"; "deer"; "defense"; "define";
  "defy"; "degree"; "delay"; "deliver"; "demand"; "demise"; "denial";
  "dentist"; "deny"; "depart"; "depend"; "deposit"; "depth"; "deputy";
  "derive"; "describe"; "desert"; "design"; "desk"; "despair"; "destroy";
  "detail"; "detect"; "develop"; "device"; "devote"; "diagram"; "dial";
  "diamond"; "diary"; "dice"; "diesel"; "diet"; "differ"; "digital";
  "dignity"; "dilemma"; "dinner"; "dinosaur"; "direct"; "dirt"; "disagree";
  "discover"; "disease"; "dish"; "dismiss"; "disorder"; "display";
  "distance"; "divert"; "divide"; "divorce"; "dizzy"; "doctor"; "document";
  "dog"; "doll"; "dolphin"; "domain"; "donate"; "donkey"; "donor"; "door";
  "dose"; "double"; "dove"; "draft"; "dragon"; "drama"; "drastic"; "draw";
  "dream"; "dress"; "drift"; "drill"; "drink"; "drip"; "drive"; "drop";
  "drum"; "dry"; "duck"; "dumb"; "dune"; "during"; "dust"; "dutch"; "duty";
  "dwarf"; "dynamic"; "eager"; "eagle"; "early"; "earn"; "earth"; "easily";
  "east"; "easy"; "echo"; "ecology"; "economy"; "edge"; "edit"; "educate";
  "effort"; "egg"; "eight"; "either"; "elbow"; "elder"; "electric";
  "elegant"; "element"; "elephant"; "elevator"; "elite"; "else"; "embark";
  "embody"; "embrace"; "emerge"; "emotion"; "employ"; "empower"; "empty";
  "enable"; "enact"; "end"; "endless"; "endorse"; "enemy"; "energy";
  "enforce"; "engage"; "engine"; "enhance"; "enjoy"; "enlist"; "enough";
  "enrich"; "enroll"; "ensure"; "enter"; "entire"; "entry"; "envelope";
  "episode"; "equal"; "equip"; "era"; "erase"; "erode"; "erosion"; "error";
  "erupt"; "escape"; "essay"; "essence"; "estate"; "eternal"; "ethics";
  "evidence"; "evil"; "evoke"; "evolve"; "exact"; "example"; "excess";
  "exchange"; "excite"; "exclude"; "excuse"; "execute"; "exercise";
  "exhaust"; "exhibit"; "exile"; "exist"; "exit"; "exotic"; "expand";
  "expect"; "expire"; "explain"; "expose"; "express"; "extend"; "extra";
  "eye"; "eyebrow"; "fabric"; "face"; "faculty"; "fade"; "faint"; "faith";
  "fall"; "false"; "fame"; "family"; "famous"; "fan"; "fancy"; "fantasy";
  "farm"; "fashion"; "fat"; "fatal"; "father"; "fatigue"; "fault";
  "favorite"; "feature"; "february"; "federal"; "fee"; "feed"; "feel";
  "female"; "fence"; "festival"; "fetch"; "fever"; "few"; "fiber";
  "fiction"; "field"; "figure"; "file"; "film"; "filter"; "final"; "find";
  "fine"; "finger"; "finish"; "fire"; "firm"; "first"; "fiscal"; "fish";
  "fit"; "fitness"; "fix"; "flag"; "flame"; "flash"; "flat"; "flavor";
  "flee"; "flight"; "flip"; "float"; "flock"; "floor"; "flower"; "fluid";
  "flush"; "fly"; "foam"; "focus"; "fog"; "foil"; "fold"; "follow"; "food";
  "foot"; "force"; "forest"; "forget"; "fork"; "fortune"; "forum";
  "forward"; "fossil"; "foster"; "found"; "fox"; "fragile"; "frame";
  "frequent"; "fresh"; "friend"; "fringe"; "frog"; "front"; "frost";
  "frown"; "frozen"; "fruit"; "fuel"; "fun"; "funny"; "furnace"; "fury";
  "future"; "gadget"; "gain"; "galaxy"; "gallery"; "game"; "gap"; "garage";
  "garbage"; "garden"; "garlic"; "garment"; "gas"; "gasp"; "gate";
  "gather"; "gauge"; "gaze"; "general"; "genius"; "genre"; "gentle";
  "genuine"; "gesture"; "ghost"; "giant"; "gift"; "giggle"; "ginger";
  "giraffe"; "girl"; "give"; "glad"; "glance"; "glare"; "glass"; "glide";
  "glimpse"; "globe"; "gloom"; "glory"; "glove"; "glow"; "glue"; "goat";
  "goddess"; "gold"; "good"; "goose"; "gorilla"; "gospel"; "gossip";
  "govern"; "gown"; "grab"; "grace"; "grain"; "grant"; "grape"; "grass";
  "gravity"; "great"; "green"; "grid"; "grief"; "grit"; "grocery"; "group";
  "grow"; "grunt"; "guard"; "guess"; "guide"; "guilt"; "guitar"; "gun";
  "gym"; "habit"; "hair"; "half"; "hammer"; "hamster"; "hand"; "happy";
  "harbor"; "hard"; "harsh"; "harvest"; "hat"; "have"; "hawk"; "hazard";
  "head"; "health"; "heart"; "heavy"; "hedgehog"; "height"; "hello";
  "helmet"; "help"; "hen"; "hero"; "hidden"; "high"; "hill"; "hint"; "hip";
  "hire"; "history"; "hobby"; "hockey"; "hold"; "hole"; "holiday";
  "hollow"; "home"; "honey"; "hood"; "hope"; "horn"; "horror"; "horse";
  "hospital"; "host"; "hotel"; "hour"; "hover"; "hub"; "huge"; "human";
  "humble"; "humor"; "hundred"; "hungry"; "hunt"; "hurdle"; "hurry";
  "hurt"; "husband"; "hybrid"; "ice"; "icon"; "idea"; "identify"; "idle";
  "ignore"; "ill"; "illegal"; "illness"; "image"; "imitate"; "immense";
  "immune"; "impact"; "impose"; "improve"; "impulse"; "inch"; "include";
  "income"; "increase"; "index"; "indicate"; "indoor"; "industry";
  "infant"; "inflict"; "inform"; "inhale"; "inherit"; "initial"; "inject";
  "injury"; "inmate"; "inner"; "innocent"; "input"; "inquiry"; "insane";
  "insect"; "inside"; "inspire"; "install"; "intact"; "interest"; "into";
  "invest"; "invite"; "involve"; "iron"; "island"; "isolate"; "issue";
  "item"; "ivory"; "jacket"; "jaguar"; "jar"; "jazz"; "jealous"; "jeans";
  "jelly"; "jewel"; "job"; "join"; "joke"; "journey"; "joy"; "judge";
  "juice"; "jump"; "jungle"; "junior"; "junk"; "just"; "kangaroo"; "keen";
  "keep"; "ketchup"; "key"; "kick"; "kid"; "kidney"; "kind"; "kingdom";
  "kiss"; "kit"; "kitchen"; "kite"; "kitten"; "kiwi"; "knee"; "knife";
  "knock"; "know"; "lab"; "label"; "labor"; "ladder"; "lady"; "lake";
  "lamp"; "language"; "laptop"; "large"; "later"; "latin"; "laugh";
  "laundry"; "lava"; "law"; "lawn"; "lawsuit"; "layer"; "lazy"; "leader";
  "leaf"; "learn"; "leave"; "lecture"; "left"; "leg"; "legal"; "legend";
  "leisure"; "lemon"; "lend"; "length"; "lens"; "leopard"; "lesson";
  "letter"; "level"; "liar"; "liberty"; "library"; "license"; "life";
  "lift"; "light"; "like"; "limb"; "limit"; "link"; "lion"; "liquid";
  "list"; "little"; "live"; "lizard"; "load"; "loan"; "lobster"; "local";
  "lock"; "logic"; "lonely"; "long"; "loop"; "lottery"; "loud"; "lounge";
  "love"; "loyal"; "lucky"; "luggage"; "lumber"; "lunar"; "lunch";
  "luxury"; "lyrics"; "machine"; "mad"; "magic"; "magnet"; "maid"; "mail";
  "main"; "major"; "make"; "mammal"; "man"; "manage"; "mandate"; "mango";
  "mansion"; "manual"; "maple"; "marble"; "march"; "margin"; "marine";
  "market"; "marriage"; "mask"; "mass"; "master"; "match"; "material";
  "math"; "matrix"; "matter"; "maximum"; "maze"; "meadow"; "mean";
  "measure"; "meat"; "mechanic"; "medal"; "media"; "melody"; "melt";
  "member"; "memory"; "mention"; "menu"; "mercy"; "merge"; "merit";
  "merry"; "mesh"; "message"; "metal"; "method"; "middle"; "midnight";
  "milk"; "million"; "mimic"; "mind"; "minimum"; "minor"; "minute";
  "miracle"; "mirror"; "misery"; "miss"; "mistake"; "mix"; "mixed";
  "mixture"; "mobile"; "model"; "modify"; "mom"; "moment"; "monitor";
  "monkey"; "monster"; "month"; "moon"; "moral"; "more"; "morning";
  "mosquito"; "mother"; "motion"; "motor"; "mountain"; "mouse"; "move";
  "movie"; "much"; "muffin"; "mule"; "multiply"; "muscle"; "museum";
  "mushroom"; "music"; "must"; "mutual"; "myself"; "mystery"; "myth";
  "naive"; "name"; "napkin"; "narrow"; "nasty"; "nation"; "nature"; "near";
  "neck"; "need"; "negative"; "neglect"; "neither"; "nephew"; "nerve";
  "nest"; "net"; "network"; "neutral"; "never"; "news"; "next"; "nice";
  "night"; "noble"; "noise"; "nominee"; "noodle"; "normal"; "north";
  "nose"; "notable"; "note"; "nothing"; "notice"; "novel"; "now";
  "nuclear"; "number"; "nurse"; "nut"; "oak"; "obey"; "object"; "oblige";
  "obscure"; "observe"; "obtain"; "obvious"; "occur"; "ocean"; "october";
  "odor"; "off"; "offer"; "office"; "often"; "oil"; "okay"; "old"; "olive";
  "olympic"; "omit"; "once"; "one"; "onion"; "online"; "only"; "open";
  "opera"; "opinion"; "oppose"; "option"; "orange"; "orbit"; "orchard";
  "order"; "ordinary"; "organ"; "orient"; "original"; "orphan"; "ostrich";
  "other"; "outdoor"; "outer"; "output"; "outside"; "oval"; "oven"; "over";
  "own"; "owner"; "oxygen"; "oyster"; "ozone"; "pact"; "paddle"; "page";
  "pair"; "palace"; "palm"; "panda"; "panel"; "panic"; "panther"; "paper";
  "parade"; "parent"; "park"; "parrot"; "party"; "pass"; "patch"; "path";
  "patient"; "patrol"; "pattern"; "pause"; "pave"; "payment"; "peace";
  "peanut"; "pear"; "peasant"; "pelican"; "pen"; "penalty"; "pencil";
  "people"; "pepper"; "perfect"; "permit"; "person"; "pet"; "phone";
  "photo"; "phrase"; "physical"; "piano"; "picnic"; "picture"; "piece";
  "pig"; "pigeon"; "pill"; "pilot"; "pink"; "pioneer"; "pipe"; "pistol";
  "pitch"; "pizza"; "place"; "planet"; "plastic"; "plate"; "play";
  "please"; "pledge"; "pluck"; "plug"; "plunge"; "poem"; "poet"; "point";
  "polar"; "pole"; "police"; "pond"; "pony"; "pool"; "popular"; "portion";
  "position"; "possible"; "post"; "potato"; "pottery"; "poverty"; "powder";
  "power"; "practice"; "praise"; "predict"; "prefer"; "prepare"; "present";
  "pretty"; "prevent"; "price"; "pride"; "primary"; "print"; "priority";
  "prison"; "private"; "prize"; "problem"; "process"; "produce"; "profit";
  "program"; "project"; "promote"; "proof"; "property"; "prosper";
  "protect"; "proud"; "provide"; "public"; "pudding"; "pull"; "pulp";
  "pulse"; "pumpkin"; "punch"; "pupil"; "puppy"; "purchase"; "purity";
  "purpose"; "purse"; "push"; "put"; "puzzle"; "pyramid"; "quality";
  "quantum"; "quarter"; "question"; "quick"; "quit"; "quiz"; "quote";
  "rabbit"; "raccoon"; "race"; "rack"; "radar"; "radio"; "rail"; "rain";
  "raise"; "rally"; "ramp"; "ranch"; "random"; "range"; "rapid"; "rare";
  "rate"; "rather"; "raven"; "raw"; "razor"; "ready"; "real"; "reason";
  "rebel"; "rebuild"; "recall"; "receive"; "recipe"; "record"; "recycle";
  "reduce"; "reflect"; "reform"; "refuse"; "region"; "regret"; "regular";
  "reject"; "relax"; "release"; "relief"; "rely"; "remain"; "remember";
  "remind"; "remove"; "render"; "renew"; "rent"; "reopen"; "repair";
  "repeat"; "replace"; "report"; "require"; "rescue"; "resemble"; "resist";
  "resource"; "response"; "result"; "retire"; "retreat"; "return";
  "reunion"; "reveal"; "review"; "reward"; "rhythm"; "rib"; "ribbon";
  "rice"; "rich"; "ride"; "ridge"; "rifle"; "right"; "rigid"; "ring";
  "riot"; "ripple"; "risk"; "ritual"; "rival"; "river"; "road"; "roast";
  "robot"; "robust"; "rocket"; "romance"; "roof"; "rookie"; "room"; "rose";
  "rotate"; "rough"; "round"; "route"; "royal"; "rubber"; "rude"; "rug";
  "rule"; "run"; "runway"; "rural"; "sad"; "saddle"; "sadness"; "safe";
  "sail"; "salad"; "salmon"; "salon"; "salt"; "salute"; "same"; "sample";
  "sand"; "satisfy"; "satoshi"; "sauce"; "sausage"; "save"; "say"; "scale";
  "scan"; "scare"; "scatter"; "scene"; "scheme"; "school"; "science";
  "scissors"; "scorpion"; "scout"; "scrap"; "screen"; "script"; "scrub";
  "sea"; "search"; "season"; "seat"; "second"; "secret"; "section";
  "security"; "seed"; "seek"; "segment"; "select"; "sell"; "seminar";
  "senior"; "sense"; "sentence"; "series"; "service"; "session"; "settle";
  "setup"; "seven"; "shadow"; "shaft"; "shallow"; "share"; "shed"; "shell";
  "sheriff"; "shield"; "shift"; "shine"; "ship"; "shiver"; "shock"; "shoe";
  "shoot"; "shop"; "short"; "shoulder"; "shove"; "shrimp"; "shrug";
  "shuffle"; "shy"; "sibling"; "sick"; "side"; "siege"; "sight"; "sign";
  "silent"; "silk"; "silly"; "silver"; "similar"; "simple"; "since";
  "sing"; "siren"; "sister"; "situate"; "six"; "size"; "skate"; "sketch";
  "ski"; "skill"; "skin"; "skirt"; "skull"; "slab"; "slam"; "sleep";
  "slender"; "slice"; "slide"; "slight"; "slim"; "slogan"; "slot"; "slow";
  "slush"; "small"; "smart"; "smile"; "smoke"; "smooth"; "snack"; "snake";
  "snap"; "sniff"; "snow"; "soap"; "soccer"; "social"; "sock"; "soda";
  "soft"; "solar"; "soldier"; "solid"; "solution"; "solve"; "someone";
  "song"; "soon"; "sorry"; "sort"; "soul"; "sound"; "soup"; "source";
  "south"; "space"; "spare"; "spatial"; "spawn"; "speak"; "special";
  "speed"; "spell"; "spend"; "sphere"; "spice"; "spider"; "spike"; "spin";
  "spirit"; "split"; "spoil"; "sponsor"; "spoon"; "sport"; "spot"; "spray";
  "spread"; "spring"; "spy"; "square"; "squeeze"; "squirrel"; "stable";
  "stadium"; "staff"; "stage"; "stairs"; "stamp"; "stand"; "start";
  "state"; "stay"; "steak"; "steel"; "stem"; "step"; "stereo"; "stick";
  "still"; "sting"; "stock"; "stomach"; "stone"; "stool"; "story"; "stove";
  "strategy"; "street"; "strike"; "strong"; "struggle"; "student"; "stuff";
  "stumble"; "style"; "subject"; "submit"; "subway"; "success"; "such";
  "sudden"; "suffer"; "sugar"; "suggest"; "suit"; "summer"; "sun"; "sunny";
  "sunset"; "super"; "supply"; "supreme"; "sure"; "surface"; "surge";
  "surprise"; "surround"; "survey"; "suspect"; "sustain"; "swallow";
  "swamp"; "swap"; "swarm"; "swear"; "sweet"; "swift"; "swim"; "swing";
  "switch"; "sword"; "symbol"; "symptom"; "syrup"; "system"; "table";
  "tackle"; "tag"; "tail"; "talent"; "talk"; "tank"; "tape"; "target";
  "task"; "taste"; "tattoo"; "taxi"; "teach"; "team"; "tell"; "ten";
  "tenant"; "tennis"; "tent"; "term"; "test"; "text"; "thank"; "that";
  "theme"; "then"; "theory"; "there"; "they"; "thing"; "this"; "thought";
  "three"; "thrive"; "throw"; "thumb"; "thunder"; "ticket"; "tide";
  "tiger"; "tilt"; "timber"; "time"; "tiny"; "tip"; "tired"; "tissue";
  "title"; "toast"; "tobacco"; "today"; "toddler"; "toe"; "together";
  "toilet"; "token"; "tomato"; "tomorrow"; "tone"; "tongue"; "tonight";
  "tool"; "tooth"; "top"; "topic"; "topple"; "torch"; "tornado";
  "tortoise"; "toss"; "total"; "tourist"; "toward"; "tower"; "town"; "toy";
  "track"; "trade"; "traffic"; "tragic"; "train"; "transfer"; "trap";
  "trash"; "travel"; "tray"; "treat"; "tree"; "trend"; "trial"; "tribe";
  "trick"; "trigger"; "trim"; "trip"; "trophy"; "trouble"; "truck"; "true";
  "truly"; "trumpet"; "trust"; "truth"; "try"; "tube"; "tuition"; "tumble";
  "tuna"; "tunnel"; "turkey"; "turn"; "turtle"; "twelve"; "twenty";
  "twice"; "twin"; "twist"; "two"; "type"; "typical"; "ugly"; "umbrella";
  "unable"; "unaware"; "uncle"; "uncover"; "under"; "undo"; "unfair";
  "unfold"; "unhappy"; "uniform"; "unique"; "unit"; "universe"; "unknown";
  "unlock"; "until"; "unusual"; "unveil"; "update"; "upgrade"; "uphold";
  "upon"; "upper"; "upset"; "urban"; "urge"; "usage"; "use"; "used";
  "useful"; "useless"; "usual"; "utility"; "vacant"; "vacuum"; "vague";
  "valid"; "valley"; "valve"; "van"; "vanish"; "vapor"; "various"; "vast";
  "vault"; "vehicle"; "velvet"; "vendor"; "venture"; "venue"; "verb";
  "verify"; "version"; "very"; "vessel"; "veteran"; "viable"; "vibrant";
  "vicious"; "victory"; "video"; "view"; "village"; "vintage"; "violin";
  "virtual"; "virus"; "visa"; "visit"; "visual"; "vital"; "vivid"; "vocal";
  "voice"; "void"; "volcano"; "volume"; "vote"; "voyage"; "wage"; "wagon";
  "wait"; "walk"; "wall"; "walnut"; "want"; "warfare"; "warm"; "warrior";
  "wash"; "wasp"; "waste"; "water"; "wave"; "way"; "wealth"; "weapon";
  "wear"; "weasel"; "weather"; "web"; "wedding"; "weekend"; "weird";
  "welcome"; "west"; "wet"; "whale"; "what"; "wheat"; "wheel"; "when";
  "where"; "whip"; "whisper"; "wide"; "width"; "wife"; "wild"; "will";
  "win"; "window"; "wine"; "wing"; "wink"; "winner"; "winter"; "wire";
  "wisdom"; "wise"; "wish"; "witness"; "wolf"; "woman"; "wonder"; "wood";
  "wool"; "word"; "work"; "world"; "worry"; "worth"; "wrap"; "wreck";
  "wrestle"; "wrist"; "write"; "wrong"; "yard"; "year"; "yellow"; "you";
  "young"; "youth"; "zebra"; "zero"; "zone"; "zoo"
]%string.

Definition english_encode : list byte -> result error EnglishMnemonic :=
  encode english Sha2.sha256.
Definition english_decode : EnglishMnemonic -> result error (list byte) :=
  decode english Sha2.sha256.
Definition english_mnemonic : string -> result error EnglishMnemonic :=
  EnglishMnemonic_new english Sha2.sha256.

(** *** Vocabulary of the properties *)

(** A word without a space. *)
Definition no_space (w : string) : bool :=
  string_forallb (fun c => negb (is_space c)) w.

(** Every word is a non-empty run of lowercase letters. *)
Definition is_word (w : string) : bool :=
  negb (String.eqb w EmptyString) && string_forallb is_lower w.

Definition all_lower (w : string) : bool := string_forallb is_lower w.

(** A list without a repeated word. *)
Fixpoint nodupb (l : list string) : bool :=
  match l with
  | [] => true
  | x :: rest => negb (existsb (String.eqb x) rest) && nodupb rest
  end.

(** The format violations of section 4.2, read on the text itself: a leading
    space, a trailing space, a run of two spaces, a character that is
    neither a space nor a lowercase letter. *)
Definition leading_space (s : string) : Prop :=
  exists r, s = String space r.
Definition trailing_space (s : string) : Prop :=
  exists r, s = (r ++ String space EmptyString)%string.
Definition double_space (s : string) : Prop :=
  exists a b, s = (a ++ String space (String space b))%string.
Definition foreign_char (s : string) : Prop :=
  exists a c b, s = (a ++ String c b)%string /\ is_space c = false /\ is_lower c = false.

Definition format_violation (s : string) : Prop :=
  leading_space s \/ trailing_space s \/ double_space s \/ foreign_char s.

(** The end-to-end vector: sixteen zero bytes and their phrase. *)
Definition zero_entropy : list byte := repeat x00 16.

Definition zero_mnemonic : string :=
  "abandon abandon abandon abandon abandon abandon abandon abandon abandon abandon abandon about"%string.

(** Twelve valid words whose checksum does not verify. *)
Definition twelve_zoo : string :=
  "zoo zoo zoo zoo zoo zoo zoo zoo zoo zoo zoo zoo"%string.

End Bip39.

(** ** The test vectors of the BIP39 test suite (bip39.spec.ts) *)

Module Vectors.

Definition hex_digit (c : ascii) : nat :=
  let n := nat_of_ascii c in
  if (n <? 58)%nat then (n - 48)%nat else (n - 87)%nat.

(** Modelled from the spec: [Encoding.fromHex] ([encoding.ts] is not among
    the sources) reads two hexadecimal digits per byte. *)
Fixpoint fromHex (s : string) : list byte :=
  match s with
  | String a (String b rest) =>
      Bip39.byte_of_nat (16 * hex_digit a + hex_digit b) :: fromHex rest
  | _ => []
  end.

(** "can encode to mnemonic" and "can decode from mnemonic": entropy and
    phrase. *)
Definition codec_vectors : list (string * string) := [
  ("00000000000000000000000000000000",
   "abandon abandon abandon abandon abandon abandon abandon abandon abandon abandon abandon about");
  ("7f7f7f7f7f7f7f7f7f7f7f7f7f7f7f7f",
   "legal winner thank year wave sausage worth useful legal winner thank yellow");
  ("80808080808080808080808080808080",
   "letter advice cage absurd amount doctor acoustic avoid letter advice cage above");
  ("ffffffffffffffffffffffffffffffff",
   "zoo zoo zoo zoo zoo zoo zoo zoo zoo zoo zoo wrong");
  ("000000000000000000000000000000000000000000000000",
   "abandon abandon abandon abandon abandon abandon abandon abandon abandon abandon abandon abandon abandon abandon abandon abandon abandon agent");
  ("7f7f7f7f7f7f7f7f7f7f7f7f7f7f7f7f7f7f7f7f7f7f7f7f",
   "legal winner thank year wave sausage worth useful legal winner thank year wave sausage worth useful legal will");
  ("808080808080808080808080808080808080808080808080",
   "letter advice cage absurd amount doctor acoustic avoid letter advice cage absurd amount doctor acoustic avoid letter always");
  ("ffffffffffffffffffffffffffffffffffffffffffffffff",
   "zoo zoo zoo zoo zoo zoo zoo zoo zoo zoo zoo zoo zoo zoo zoo zoo zoo when");
  ("0000000000000000000000000000000000000000000000000000000000000000",
   "abandon abandon abandon abandon abandon abandon abandon abandon abandon abandon abandon abandon abandon abandon abandon abandon abandon abandon abandon abandon abandon abandon abandon art");
  ("7f7f7f7f7f7f7f7f7f7f7f7f7f7f7f7f7f7f7f7f7f7f7f7f7f7f7f7f7f7f7f7f",
   "legal winner thank year wave sausage worth useful legal winner thank year wave sausage worth useful legal winner thank year wave sausage worth title");
  ("8080808080808080808080808080808080808080808080808080808080808080",
   "letter advice cage absurd amount doctor acoustic avoid letter advice cage absurd amount doctor acoustic avoid letter advice cage absurd amount doctor acoustic bless");
  ("ffffffffffffffffffffffffffffffffffffffffffffffffffffffffffffffff",
   "zoo zoo zoo zoo zoo zoo zoo zoo zoo zoo zoo zoo zoo zoo zoo zoo zoo zoo zoo zoo zoo zoo zoo vote");
  ("9e885d952ad362caeb4efe34a8e91bd2",
   "ozone drill grab fiber curtain grace pudding thank cruise elder eight picnic");
  ("6610b25967cdcca9d59875f5cb50b0ea75433311869e930b",
   "gravity machine north sort system female filter attitude volume fold club stay feature office ecology stable narrow fog");
  ("68a79eaca2324873eacc50cb9c6eca8cc68ea5d936f98787c60c7ebc74e6ce7c",
   "hamster diagram private dutch cause delay private meat slide toddler razor book happy fancy gospel tennis maple dilemma loan word shrug inflict delay length");
  ("c0ba5a8e914111210f2bd131f3d5e08d",
   "scheme spot photo card baby mountain device kick cradle pact join borrow");
  ("6d9be1ee6ebd27a258115aad99b7317b9c8d28b6d76431c3",
   "horn tenant knee talent sponsor spell gate clip pulse soap slush warm silver nephew swap uncle crack brave");
  ("9f6a2878b2520799a44ef18bc7df394e7061a224d2c33cd015b157d746869863",
   "panda eyebrow bullet gorilla call smoke muffin taste mesh discover soft ostrich alcohol speed nation flash devote level hobby quick inner drive ghost inside");
  ("23db8160a31d3e0dca3688ed941adbf3",
   "cat swing flag economy stadium alone churn speed unique patch report train");
  ("8197a4a47f0425faeaa69deebc05ca29c0a5b5cc76ceacc0",
   "light rule cinnamon wrap drastic word pride squirrel upgrade then income fatal apart sustain crack supply proud access");
  ("066dca1a2bb7e8a1db2832148ce9933eea0f3ac9548d793112d9a95c9407efad",
   "all hour make first leader extend hole alien behind guard gospel lava path output census museum junior mass reopen famous sing advance salt reform");
  ("f30f8c1da665478f49b001d94c5fc452",
   "vessel ladder alter error federal sibling chat ability sun glass valve picture");
  ("c10ec20dc3cd9f652c7fac2f1230f7a3c828389a14392f05",
   "scissors invite lock maple supreme raw rapid void congress muscle digital elegant little brisk hair mango congress clump");
  ("f585c11aec520db57dd353c69554b21a89b20fb0650966fa0a9d6f74fd989d8f",
   "void come effort suffer camp survey warrior heavy shoot primary clutch crush open amazing screen patrol group space point ten exist slush involve unfold")
]%string.

(** "invalid input length" *)
Definition invalid_lengths : list string := [
  "";
  "00";
  "000000000000000000000000000000";
  "0000000000000000000000000000000000";
  "0000000000000000000000000000000000000000000000";
  "00000000000000000000000000000000000000000000000000";
  "00000000000000000000000000000000000000000000000000000000000000";
  "000000000000000000000000000000000000000000000000000000000000000000"
]%string.

(** Extra spaces and disallowed letters: "invalid mnemonic format" *)
Definition invalid_formats : list string := [
  " abandon abandon abandon abandon abandon abandon abandon abandon abandon abandon abandon about";
  "abandon  abandon abandon abandon abandon abandon abandon abandon abandon abandon abandon about";
  "abandon abandon abandon abandon abandon abandon abandon abandon abandon abandon abandon about ";
  "Abandon abandon abandon abandon abandon abandon abandon abandon abandon abandon abandon about";
  "abandon abandon Abandon abandon abandon abandon abandon abandon abandon abandon abandon about";
  "route66 abandon abandon abandon abandon abandon abandon abandon abandon abandon abandon about";
  "abandon abandon route66 abandon abandon abandon abandon abandon abandon abandon abandon about";
  "lötkolben abandon abandon abandon abandon abandon abandon abandon abandon abandon abandon about";
  "abandon abandon lötkolben abandon abandon abandon abandon abandon abandon abandon abandon about"
]%string.

(** Too few and too many words, with the count the error reports. *)
Definition invalid_word_counts : list (string * nat) := [
  ("abandon abandon abandon abandon abandon abandon abandon abandon abandon abandon about"%string,
   11%nat);
  ("abandon abandon abandon abandon abandon abandon abandon abandon abandon abandon abandon abandon about"%string,
   13%nat);
  ("abandon abandon abandon abandon abandon abandon abandon abandon abandon abandon abandon abandon abandon abandon abandon abandon agent"%string,
   17%nat);
  ("abandon abandon abandon abandon abandon abandon abandon abandon abandon abandon abandon abandon abandon abandon abandon abandon abandon abandon agent"%string,
   19%nat);
  ("abandon abandon abandon abandon abandon abandon abandon abandon abandon abandon abandon abandon abandon abandon abandon abandon abandon abandon abandon abandon abandon abandon art"%string,
   23%nat);
  ("abandon abandon abandon abandon abandon abandon abandon abandon abandon abandon abandon abandon abandon abandon abandon abandon abandon abandon abandon abandon abandon abandon abandon abandon art"%string,
   25%nat)
].

(** "invalid mnemonic checksum" *)
Definition invalid_checksums : list string := [
  "zoo zoo zoo zoo zoo zoo zoo zoo zoo zoo zoo zoo";
  "zoo zoo zoo zoo zoo zoo zoo zoo zoo zoo zoo zoo zoo zoo zoo zoo zoo zoo";
  "zoo zoo zoo zoo zoo zoo zoo zoo zoo zoo zoo zoo zoo zoo zoo zoo zoo zoo zoo zoo zoo zoo zoo zoo"
]%string.

(** Comparisons used to run the vectors. *)
Definition mnemonic_eqb (r : result Bip39.error Bip39.EnglishMnemonic) (s : string) : bool :=
  match r with
  | Ok m => String.eqb (Bip39.asString m) s
  | Err _ => false
  end.

Definition entropy_eqb (r : result Bip39.error (list byte)) (e : list byte) : bool :=
  match r with
  | Ok x => bytes_eqb x e
  | Err _ => false
  end.

Definition error_eqb (a b : Bip39.error) : bool :=
  match a, b with
  | Bip39.InvalidLength, Bip39.InvalidLength => true
  | Bip39.InvalidFormat, Bip39.InvalidFormat => true
  | Bip39.InvalidWordCount x, Bip39.InvalidWordCount y => (x =? y)%nat
  | Bip39.InvalidChecksum, Bip39.InvalidChecksum => true
  | _, _ => false
  end.

Definition fails_with {A} (r : result Bip39.error A) (e : Bip39.error) : bool :=
  match r with
  | Ok _ => false
  | Err x => error_eqb x e
  end.

End Vectors.

(** ** UserProfile (userprofile.ts) *)

Module Profile.

(** Branded strings and byte arrays of [@iov/types] and [keyring.ts]. *)
Abbreviation ChainId := string (only parsing).
Abbreviation SignatureBytes := (list byte) (only parsing).
Abbreviation KeyringSerializationString := string (only parsing).

(** The value types that [userprofile.ts] imports: those of [@iov/types],
    the [ReadonlyDate] timestamp and the [KeyringEntry] objects. *)
Class Types : Type := {
  PublicKeyBundle : Type;
  Nonce : Type;
  UnsignedTransaction : Type;
  ReadonlyDate : Type;
  KeyringEntry : Type
}.

(** The collaborators of [UserProfile] that live outside [userprofile.ts]:
    the timestamp conversions, the (de)serialisation of [Keyring] and the
    [KeyringEntry] capability.  A failing call yields the message of the
    error it throws.  An identity is a public key bundle with an optional
    label. *)
Class Collaborators (T : Types) : Type := {
  (* new ReadonlyDate(text), which accepts any text, and
     ReadonlyDate.toISOString(), which throws a RangeError on the invalid
     date that an unreadable text gives: None *)
  date_of_string : string -> ReadonlyDate;
  toISOString : ReadonlyDate -> option string;
  (* new Keyring(serialization).getEntries() and Keyring.serialize() *)
  deserialize_entries : KeyringSerializationString -> result string (list KeyringEntry);
  serialize_entries : list KeyringEntry -> KeyringSerializationString;
  (* the KeyringEntry interface; an entry is a mutable object, so the calls
     that change it return its new state *)
  entry_createIdentity :
    KeyringEntry -> result string ((PublicKeyBundle * option string) * KeyringEntry);
  entry_setIdentityLabel :
    KeyringEntry -> PublicKeyBundle * option string -> option string ->
    result string KeyringEntry;
  entry_getIdentities : KeyringEntry -> list (PublicKeyBundle * option string);
  entry_createTransactionSignature :
    KeyringEntry -> PublicKeyBundle * option string -> list byte -> ChainId ->
    result string SignatureBytes
}.

Section WithTypes.
Context {T : Types}.

(** [PublicIdentity] and [LocalIdentity]: a public key bundle with an
    optional label. *)
Definition PublicIdentity : Type := (PublicKeyBundle * option string)%type.
Definition LocalIdentity : Type := PublicIdentity.
Definition pubkey (i : PublicIdentity) : PublicKeyBundle := fst i.

Record FullSignature : Type := {
  publicKey : PublicKeyBundle;
  nonce : Nonce;
  signature : SignatureBytes
}.

Record SignedTransaction : Type := {
  transaction : UnsignedTransaction;
  primarySignature : FullSignature;
  otherSignatures : list FullSignature
}.

Record TxCodec : Type := {
  bytesToSign : UnsignedTransaction -> Nonce -> list byte
}.

Record Keyring : Type := { getEntries : list KeyringEntry }.

(** Modelled from the spec: [DefaultValueProducer<boolean>] ([utils.ts] is
    not among the sources), the producer behind the [locked] memory stream,
    "an observable, broadcast-on-change value": the current value and
    everything emitted so far. *)
Record DefaultValueProducer : Type := {
  value : bool;
  emitted : list bool
}.

Definition producer_new (v : bool) : DefaultValueProducer :=
  {| value := v; emitted := [v] |}.

Definition producer_update (v : bool) (d : DefaultValueProducer) : DefaultValueProducer :=
  {| value := v; emitted := emitted d ++ [v] |}.

Record UserProfile : Type := {
  createdAt : ReadonlyDate;
  keyring : option Keyring;            (* undefined once locked *)
  lockedProducer : DefaultValueProducer
}.

Inductive error : Type :=
| ProfileLocked                        (* "UserProfile is currently locked" *)
| EntryNotFound (n : Z)                (* "Entry of index n does not exist in keyring" *)
| MissingField (key : string)          (* db.get found no record under key *)
| InvalidSerialization (msg : string)  (* thrown by new Keyring(...) *)
| InvalidTime                          (* RangeError of toISOString: "Invalid time value" *)
| EntryFailure (msg : string).         (* thrown by a keyring entry, passed on *)

Definition storageKeyCreatedAt : string := "created_at".
Definition storageKeyKeyring : string := "keyring".

(** A valid entry index. *)
Definition in_range (n : Z) (kr : Keyring) : Prop :=
  0 <= n < Z.of_nat (length (getEntries kr)).

End WithTypes.

Section WithCollaborators.
Context {T : Types} {C : Collaborators T}.

Definition serialize (k : Keyring) : KeyringSerializationString :=
  serialize_entries (getEntries k).

(** *** The key-value store behind levelup *)

Definition db_get (db : gmap string string) (key : string) : result error string :=
  match db !! key with
  | Some v => Ok v
  | None => Err (MissingField key)
  end.

Definition db_put (db : gmap string string) (key v : string) : gmap string string :=
  <[key := v]> db.

(** Modelled from the spec: [DatabaseUtils.clear] ([utils.ts] is not among the
    sources) "fully clears the target store's existing contents". *)
Definition db_clear (db : gmap string string) : gmap string string := ∅.

(** *** Operations of a profile: state passing with errors *)

Definition Op (A : Type) : Type := UserProfile -> result error A * UserProfile.

Definition ret {A} (a : A) : Op A := fun p => (Ok a, p).
Definition throw {A} (e : error) : Op A := fun p => (Err e, p).
Definition bind {A B} (m : Op A) (f : A -> Op B) : Op B :=
  fun p =>
    match m p with
    | (Ok a, p') => f a p'
    | (Err e, p') => (Err e, p')
    end.

Local Notation "'let*' x ':=' m 'in' k" := (bind m (fun x => k))
  (at level 10, x name, m at level 100, k at level 200).

Definition lift_entry {A} (r : result string A) : Op A :=
  match r with
  | Ok a => ret a
  | Err msg => throw (EntryFailure msg)
  end.

(** [Array.prototype.find] with a predicate on the element and its index. *)
Fixpoint find_from {A} (f : A -> Z -> bool) (index : Z) (l : list A) : option A :=
  match l with
  | [] => None
  | x :: rest => if f x index then Some x else find_from f (index + 1) rest
  end.

Definition array_find {A} (f : A -> Z -> bool) (l : list A) : option A :=
  find_from f 0 l.

(** [if (!this.keyring) throw new Error("UserProfile is currently locked")] *)
Definition unlocked_keyring : Op Keyring :=
  fun p =>
    match keyring p with
    | Some k => (Ok k, p)
    | None => (Err ProfileLocked, p)
    end.

(** [getEntries().find((_, index) => index === n)], throwing when there is
    no such entry.  The index [n] is a JavaScript number; an integral [Z]
    stands for it (a non-integral number equals no index). *)
Definition nth_entry (k : Keyring) (n : Z) : Op KeyringEntry :=
  match array_find (fun _ index => index =? n) (getEntries k) with
  | Some entry => ret entry
  | None => throw (EntryNotFound n)
  end.

(** The entry object is shared with the keyring: a call that changes it is
    visible at its index. *)
Definition store_entry (n : Z) (entry : KeyringEntry) : Op unit :=
  fun p =>
    match keyring p with
    | Some k =>
        (Ok tt,
         {| createdAt := createdAt p;
            keyring := Some {| getEntries := <[Z.to_nat n := entry]> (getEntries k) |};
            lockedProducer := lockedProducer p |})
    | None => (Ok tt, p)
    end.

(** The constructor: [new UserProfile(createdAt, keyringSerialization)]. *)
Definition UserProfile_new (created : ReadonlyDate) (ks : KeyringSerializationString)
  : result error UserProfile :=
  match deserialize_entries ks with
  | Ok es =>
      Ok {| createdAt := created;
            keyring := Some {| getEntries := es |};
            lockedProducer := producer_new false |}
  | Err msg => Err (InvalidSerialization msg)
  end.

Definition loadFrom (storage : gmap string string) : result error UserProfile :=
  match db_get storage storageKeyCreatedAt with
  | Err e => Err e
  | Ok created =>
      match db_get storage storageKeyKeyring with
      | Err e => Err e
      | Ok ks => UserProfile_new (date_of_string created) ks
      end
  end.

(** The store is cleared before the timestamp is printed, so a timestamp
    that cannot be printed ends the call with the store already empty. *)
Definition storeIn (p : UserProfile) (storage : gmap string string)
  : result error unit * gmap string string :=
  match keyring p with
  | None => (Err ProfileLocked, storage)
  | Some k =>
      let db := db_clear storage in
      match toISOString (createdAt p) with
      | None => (Err InvalidTime, db)
      | Some text =>
          let db := db_put db storageKeyCreatedAt text in
          let db := db_put db storageKeyKeyring (serialize k) in
          (Ok tt, db)
      end
  end.

Definition lock : Op unit :=
  fun p =>
    (Ok tt,
     {| createdAt := createdAt p;
        keyring := None;
        lockedProducer := producer_update true (lockedProducer p) |}).

Definition createIdentity (n : Z) : Op LocalIdentity :=
  let* k := unlocked_keyring in
  let* entry := nth_entry k n in
  let* created := lift_entry (entry_createIdentity entry) in
  let* _ := store_entry n (snd created) in
  ret (fst created).

Definition setIdentityLabel (n : Z) (identity : PublicIdentity) (label : option string)
  : Op unit :=
  let* k := unlocked_keyring in
  let* entry := nth_entry k n in
  let* entry' := lift_entry (entry_setIdentityLabel entry identity label) in
  store_entry n entry'.

Definition getIdentities (n : Z) : Op (list LocalIdentity) :=
  let* k := unlocked_keyring in
  let* entry := nth_entry k n in
  ret (entry_getIdentities entry).

Definition chain_id : ChainId := "chain!".

Definition signTransaction (n : Z) (identity : PublicIdentity)
    (tx : UnsignedTransaction) (codec : TxCodec) (nonce_ : Nonce)
  : Op SignedTransaction :=
  let* k := unlocked_keyring in
  let* entry := nth_entry k n in
  let bytes := bytesToSign codec tx nonce_ in
  let* sig := lift_entry (entry_createTransactionSignature entry identity bytes chain_id) in
  let signature_ := {| publicKey := pubkey identity; nonce := nonce_; signature := sig |} in
  ret {| transaction := tx;
         primarySignature := signature_;
         otherSignatures := [] |}.

Definition appendSignature (n : Z) (identity : PublicIdentity)
    (originalTransaction : SignedTransaction) (codec : TxCodec) (nonce_ : Nonce)
  : Op SignedTransaction :=
  let* k := unlocked_keyring in
  let* entry := nth_entry k n in
  let bytes := bytesToSign codec (transaction originalTransaction) nonce_ in
  let* sig := lift_entry (entry_createTransactionSignature entry identity bytes chain_id) in
  let newSignature := {| publicKey := pubkey identity; nonce := nonce_; signature := sig |} in
  ret {| transaction := transaction originalTransaction;
         primarySignature := primarySignature originalTransaction;
         otherSignatures := otherSignatures originalTransaction ++ [newSignature] |}.

(** *** Sequences of calls

    A client's calls on one profile, run in order; of each call only the
    error it fails with, if any, is kept. *)
Inductive call : Type :=
| CallLock
| CallStoreIn (storage : gmap string string)
| CallCreateIdentity (n : Z)
| CallSetIdentityLabel (n : Z) (identity : PublicIdentity) (label : option string)
| CallGetIdentities (n : Z)
| CallSignTransaction (n : Z) (identity : PublicIdentity)
    (tx : UnsignedTransaction) (codec : TxCodec) (nonce_ : Nonce)
| CallAppendSignature (n : Z) (identity : PublicIdentity)
    (t : SignedTransaction) (codec : TxCodec) (nonce_ : Nonce).

Definition failure {A} (r : result error A) : option error :=
  match r with
  | Ok _ => None
  | Err e => Some e
  end.

Definition outcome {A} (r : result error A * UserProfile) : option error * UserProfile :=
  (failure (fst r), snd r).

Definition run_call (c : call) (p : UserProfile) : option error * UserProfile :=
  match c with
  | CallLock => outcome (lock p)
  | CallStoreIn storage => (failure (fst (storeIn p storage)), p)
  | CallCreateIdentity n => outcome (createIdentity n p)
  | CallSetIdentityLabel n identity label => outcome (setIdentityLabel n identity label p)
  | CallGetIdentities n => outcome (getIdentities n p)
  | CallSignTransaction n identity tx codec nonce_ =>
      outcome (signTransaction n identity tx codec nonce_ p)
  | CallAppendSignature n identity t codec nonce_ =>
      outcome (appendSignature n identity t codec nonce_ p)
  end.

Fixpoint run_calls (cs : list call) (p : UserProfile) : list (option error) :=
  match cs with
  | [] => []
  | c :: rest => fst (run_call c p) :: run_calls rest (snd (run_call c p))
  end.

(** What a call made on a locked profile must answer. *)
Definition locked_answer (c : call) : option error :=
  match c with
  | CallLock => None
  | _ => Some ProfileLocked
  end.

(** *** Objects held by the caller

    A [SignedTransaction] handed to [appendSignature] is a reference to an
    object of the caller.  [objects] is that object store, a reference being
    an index into it; the call reads its argument there and allocates the
    object literal it returns. *)
Definition objects : Type := list SignedTransaction.

Definition alloc (h : objects) (t : SignedTransaction) : nat * objects :=
  (length h, h ++ [t]).

Definition appendSignature_ref (n : Z) (identity : PublicIdentity)
    (original : nat) (codec : TxCodec) (nonce_ : Nonce)
    (p : UserProfile) (h : objects)
  : option (result error nat * UserProfile * objects) :=
  match h !! original with
  | None => None                       (* not a reference of the caller *)
  | Some t =>
      match appendSignature n identity t codec nonce_ p with
      | (Ok t', p') => let '(r, h') := alloc h t' in Some (Ok r, p', h')
      | (Err e, p') => Some (Err e, p', h)
      end
  end.

(** *** Longer runs

    The profile that a sequence of calls leaves behind. *)
Fixpoint run_calls_state (cs : list call) (p : UserProfile) : UserProfile :=
  match cs with
  | [] => p
  | c :: rest => run_calls_state rest (snd (run_call c p))
  end.

(** A cosigning round: a cosigner is an entry index, an identity of that
    entry and the nonce it signs with; [appendSignature] is called for each
    cosigner in turn on what the previous call returned, and the first
    failure ends the round. *)
Definition cosigner : Type := (Z * PublicIdentity * Nonce)%type.
Definition cosigner_entry (c : cosigner) : Z := fst (fst c).
Definition cosigner_identity (c : cosigner) : PublicIdentity := snd (fst c).
Definition cosigner_nonce (c : cosigner) : Nonce := snd c.

Fixpoint appendSignatures (cs : list cosigner) (t : SignedTransaction)
    (codec : TxCodec) : Op SignedTransaction :=
  match cs with
  | [] => ret t
  | c :: rest =>
      let* t' := appendSignature (cosigner_entry c) (cosigner_identity c) t codec
                   (cosigner_nonce c) in
      appendSignatures rest t' codec
  end.

(** Whether a call is [lock()]. *)
Definition is_lock (c : call) : bool :=
  match c with
  | CallLock => true
  | _ => false
  end.

(** How two profiles can differ after one call that is not [lock]: not at
    all, or in one entry of the keyring. *)
Definition same_but_entry (p q : UserProfile) : Prop :=
  q = p
  \/ exists kr i entry,
       keyring p = Some kr
       /\ (i < length (getEntries kr))%nat
       /\ q = {| createdAt := createdAt p;
                 keyring := Some {| getEntries := <[i := entry]> (getEntries kr) |};
                 lockedProducer := lockedProducer p |}.

(** What a cosigner's entry answers for the bytes of [tx] under the
    cosigner's own nonce. *)
Definition cosigner_signs (kr : Keyring) (codec : TxCodec) (tx : UnsignedTransaction)
    (c : cosigner) (sig : SignatureBytes) : Prop :=
  0 <= cosigner_entry c
  /\ exists entry,
       getEntries kr !! Z.to_nat (cosigner_entry c) = Some entry
       /\ entry_createTransactionSignature entry (cosigner_identity c)
            (bytesToSign codec tx (cosigner_nonce c)) "chain!" = Ok sig.

End WithCollaborators.

End Profile.

(** ** The BNS codec's encoders of values (bns-codec/src/types.ts) *)

Module BnsCodec.
Import Profile.

(** What [types.ts] reads of a [PublicKeyBundle]: its algorithm, compared
    with [===] in a [switch] and printed into an error message, and its
    data. *)
Class KeyBundles (T : Types) : Type := {
  Algorithm : Type;
  ED25519 : Algorithm;
  Algorithm_eq_dec : forall a b : Algorithm, {a = b} + {a <> b};
  Algorithm_text : Algorithm -> string;
  algo : PublicKeyBundle -> Algorithm;
  data : PublicKeyBundle -> list byte
}.

(** A JavaScript [number] is a binary64 floating-point number. *)
Abbreviation number := PrimFloat.float (only parsing).

(** [FungibleToken] of [@iov/types], by the fields [encodeToken] reads. *)
Record FungibleToken : Type := {
  whole : number;
  fractional : number;
  tokenTicker : string
}.

(** The messages of the generated protobuf module [codec]: [create] builds
    the message that holds the given properties, [null] being no value. *)
Record Coin : Type := {
  coin_whole : option number;
  coin_fractional : option number;
  coin_ticker : string
}.

(** The object [{ ed25519: bytes }]. *)
Record Ed25519Field : Type := { ed25519 : list byte }.

Section WithKeyBundles.
Context {T : Types} {B : KeyBundles T}.

Record StdSignature : Type := {
  sequence : Nonce;
  pubKey : Ed25519Field;
  sig_signature : Ed25519Field
}.

(** The numbers that count as false: [NaN], and [+0] and [-0], which both
    compare equal to zero. *)
Definition falsy (x : number) : bool :=
  PrimFloat.is_nan x || PrimFloat.is_zero x.

(** [x || null] on a number. *)
Definition or_null (x : number) : option number :=
  if falsy x then None else Some x.

(** Two amounts that [x || null] does not tell apart. *)
Definition same_amount (x y : number) : Prop :=
  x = y \/ (falsy x = true /\ falsy y = true).

Definition encodeToken (token : FungibleToken) : Coin :=
  {| coin_whole := or_null (whole token);
     coin_fractional := or_null (fractional token);
     coin_ticker := tokenTicker token |}.

Definition unsupported (a : Algorithm) : string :=
  ("unsupported algorithm: " ++ Algorithm_text a)%string.

Definition encodePubKey (publicKey_ : PublicKeyBundle) : result string Ed25519Field :=
  if Algorithm_eq_dec (algo publicKey_) ED25519
  then Ok {| ed25519 := data publicKey_ |}
  else Err (unsupported (algo publicKey_)).

Definition encodeSignature (a : Algorithm) (sigs : SignatureBytes)
  : result string Ed25519Field :=
  if Algorithm_eq_dec a ED25519
  then Ok {| ed25519 := sigs |}
  else Err (unsupported a).

(** The properties are evaluated in the order they are written, so the
    public key is encoded before the signature. *)
Definition encodeFullSig (sig : FullSignature) : result string StdSignature :=
  match encodePubKey (publicKey sig) with
  | Err e => Err e
  | Ok key =>
      match encodeSignature (algo (publicKey sig)) (signature sig) with
      | Err e => Err e
      | Ok bytes =>
          Ok {| sequence := nonce sig; pubKey := key; sig_signature := bytes |}
      end
  end.

End WithKeyBundles.

End BnsCodec.

(** ** A small world of collaborators

    Byte-string keys and transactions, integer nonces, and keyring entries
    that are the list of their identities.  It serves to run the operations
    on concrete values. *)

Module Demo.
Import Profile.

Definition types : Types := {|
  PublicKeyBundle := list byte;
  Nonce := Z;
  UnsignedTransaction := list byte;
  ReadonlyDate := string;
  KeyringEntry := list (list byte * option string)
|}.

Definition fresh_key (entry : list (list byte * option string)) : list byte :=
  be_bytes 4 (Z.of_nat (length entry)).

Definition relabel (key : list byte) (label : option string)
    (i : list byte * option string) : list byte * option string :=
  if bytes_eqb (fst i) key then (fst i, label) else i.

(** Signs by appending the chain tag to the bytes; fails for an identity
    the entry does not hold. *)
Definition sign_tagged (entry : list (list byte * option string))
    (identity : list byte * option string) (bytes : list byte) (chain : ChainId)
  : result string SignatureBytes :=
  if existsb (fun i => bytes_eqb (fst i) (fst identity)) entry
  then Ok (bytes ++ list_byte_of_string chain)
  else Err "identity not found".

Definition load_entries (s : string)
  : result string (list (list (list byte * option string))) :=
  if String.eqb s "" then Err "empty serialization" else Ok [].

Definition new_identity (entry : list (list byte * option string))
  : result string ((list byte * option string) * list (list byte * option string)) :=
  Ok ((fresh_key entry, None), entry ++ [(fresh_key entry, None)]).

Definition set_label (entry : list (list byte * option string))
    (identity : list byte * option string) (label : option string)
  : result string (list (list byte * option string)) :=
  Ok (map (relabel (fst identity) label) entry).

(** A signer that knows no chain but ["chain!"]. *)
Definition sign_one_chain (entry : list (list byte * option string))
    (identity : list byte * option string) (bytes : list byte) (chain : ChainId)
  : result string SignatureBytes :=
  if String.eqb chain "chain!" then sign_tagged entry identity bytes chain
  else Err "unknown chain".

(** A date of this world holds the text it was made from; it is valid, and
    printed as that text, when the text has the shape of
    [YYYY-MM-DDTHH:MM:SS.sssZ]. *)
Definition is_digit (c : ascii) : bool :=
  ((48 <=? nat_of_ascii c) && (nat_of_ascii c <=? 57))%nat.

Fixpoint shaped (pattern text : string) : bool :=
  match pattern, text with
  | EmptyString, EmptyString => true
  | String q pattern', String c text' =>
      (if Ascii.eqb q "d" then is_digit c else Ascii.eqb q c) && shaped pattern' text'
  | _, _ => false
  end.

Definition print_date (d : string) : option string :=
  if shaped "dddd-dd-ddTdd:dd:dd.dddZ" d then Some d else None.

Definition collaborators : Collaborators types :=
  @Build_Collaborators types
    (fun s => s) print_date
    load_entries (fun _ => "[]"%string)
    new_identity set_label (fun entry => entry)
    sign_tagged.

(** The same world with the signer that ignores every other chain. *)
Definition collaborators_one_chain : Collaborators types :=
  @Build_Collaborators types
    (fun s => s) print_date
    load_entries (fun _ => "[]"%string)
    new_identity set_label (fun entry => entry)
    sign_one_chain.

Definition alice : list byte * option string := ([x01], Some "alice").
Definition bob : list byte * option string := ([x02], None).

(** An unlocked profile with two entries. *)
Definition profile : @UserProfile types :=
  @Build_UserProfile types
    "2018-05-01T12:00:00.000Z"%string
    (Some (@Build_Keyring types [[alice]; [bob]]))
    (producer_new false).

Definition codec : @TxCodec types :=
  @Build_TxCodec types (fun tx nonce_ => tx ++ be_bytes 8 nonce_).

Definition signed : @SignedTransaction types :=
  @Build_SignedTransaction types
    [x0a; x0b]
    (@Build_FullSignature types [x01] 7 [xff])
    [@Build_FullSignature types [x02] 3 [xee]].

(** The profile after [lock()], its keyring before, and a store holding
    a saved profile. *)
Definition demo_locked : @UserProfile types := snd (lock profile).

Definition demo_keyring : @Keyring types :=
  @Build_Keyring types [[alice]; [bob]].

Definition demo_store : gmap string string :=
  {[ "created_at"%string := "2018-05-01T12:00:00.000Z"%string;
     "keyring"%string := "[]"%string ]}.

(** A store whose timestamp record is no date, and the unlocked profile
    that [loadFrom] builds from it. *)
Definition undated_store : gmap string string :=
  {[ "created_at"%string := "garbage"%string;
     "keyring"%string := "[]"%string ]}.

Definition undated : @UserProfile types :=
  @Build_UserProfile types "garbage"%string
    (Some (@Build_Keyring types [])) (producer_new false).

(** Keys of this world are Ed25519 keys unless they start with a zero byte. *)
Definition key_algorithm (key : list byte) : string :=
  match key with
  | x00 :: _ => "secp256k1"%string
  | _ => "ed25519"%string
  end.

Definition key_bundles : BnsCodec.KeyBundles types :=
  @BnsCodec.Build_KeyBundles types
    string "ed25519"%string String.string_dec (fun a => a)
    key_algorithm (fun key => key).

(** Two cosigners: bob from the second entry, alice from the first. *)
Definition cosigners : list (@cosigner types) :=
  [(1%Z, bob, 5%Z); (0%Z, alice, 6%Z)].

(** A client's calls, a token without a fractional part, one whose
    fractional part is no number, and a signature under each kind of key. *)
Definition demo_calls : list (@call types) :=
  [CallCreateIdentity 0; CallGetIdentities 1; CallLock; CallCreateIdentity 0].

Definition one_iov : BnsCodec.FungibleToken :=
  BnsCodec.Build_FungibleToken PrimFloat.one PrimFloat.zero "IOV".

Definition nan_iov : BnsCodec.FungibleToken :=
  BnsCodec.Build_FungibleToken PrimFloat.one PrimFloat.nan "IOV".

Definition alice_signature : @FullSignature types :=
  @Build_FullSignature types [x01] 7%Z [xff].

Definition other_signature : @FullSignature types :=
  @Build_FullSignature types [x00; x01] 7%Z [xff].

End Demo.

(** * Properties *)

(** ** Lists cut into groups *)

Local Open Scope nat_scope.

Lemma chunks_fuel_step {A} (fuel n : nat) (l : list A) :
  l <> [] ->
  chunks_fuel (S fuel) n l = firstn n l :: chunks_fuel fuel n (skipn n l).
Proof. destruct l; [congruence | reflexivity]. Qed.

Lemma chunks_fuel_exact {A} (n : nat) :
  0 < n ->
  forall k fuel (rest : list A),
    length rest = k * n -> k <= fuel ->
    concat (chunks_fuel fuel n rest) = rest
    /\ Forall (fun g => length g = n) (chunks_fuel fuel n rest)
    /\ length (chunks_fuel fuel n rest) = k.
Proof.
  intros Hn k. induction k as [|k IH]; intros fuel rest Hlen Hfuel.
  - destruct rest; [|discriminate]. destruct fuel; simpl; auto.
  - destruct fuel as [|fuel]; [lia|].
    rewrite chunks_fuel_step by (intros ->; simpl in Hlen; lia).
    destruct (IH fuel (skipn n rest)) as (Hc & Hf & Hl).
    + rewrite length_skipn. lia.
    + lia.
    + simpl. rewrite Hc, Hl. repeat split.
      * apply firstn_skipn.
      * constructor; [|exact Hf]. rewrite length_firstn. lia.
Qed.

Lemma chunks_exact {A} (n k : nat) (l : list A) :
  0 < n -> length l = k * n ->
  concat (chunks n l) = l
  /\ Forall (fun g => length g = n) (chunks n l)
  /\ length (chunks n l) = k.
Proof.
  intros Hn Hl. unfold chunks. apply (chunks_fuel_exact n Hn k); [exact Hl|].
  rewrite Hl. nia.
Qed.

Lemma chunks_fuel_flat_map {A B} (f : A -> list B) (n : nat) :
  0 < n -> (forall x, length (f x) = n) ->
  forall (l : list A) fuel, length l <= fuel ->
    chunks_fuel fuel n (flat_map f l) = map f l.
Proof.
  intros Hn Hf l. induction l as [|x l IH]; intros fuel Hfuel.
  - destruct fuel; reflexivity.
  - destruct fuel as [|fuel]; [simpl in Hfuel; lia|].
    specialize (Hf x) as Hx. simpl flat_map. simpl map.
    rewrite chunks_fuel_step.
    + rewrite firstn_app, skipn_app, Hx, Nat.sub_diag. simpl.
      rewrite firstn_all2 by lia. rewrite skipn_all2 by lia.
      rewrite app_nil_r. simpl. f_equal. apply IH. simpl in Hfuel. lia.
    + intros E. apply (f_equal (@length B)) in E.
      rewrite length_app in E. simpl in E. lia.
Qed.

Lemma length_flat_map_const {A B} (f : A -> list B) (n : nat) (l : list A) :
  (forall x, length (f x) = n) -> length (flat_map f l) = length l * n.
Proof.
  intros Hf. induction l as [|x l IH]; simpl; [reflexivity|].
  rewrite length_app, Hf, IH. lia.
Qed.

Lemma chunks_flat_map {A B} (f : A -> list B) (n : nat) (l : list A) :
  0 < n -> (forall x, length (f x) = n) ->
  chunks n (flat_map f l) = map f l.
Proof.
  intros Hn Hf. unfold chunks. apply chunks_fuel_flat_map; auto.
  rewrite (length_flat_map_const f n l Hf). nia.
Qed.

(** ** Bit strings *)

Section Bits.
Import Bip39.

Lemma length_bits_of_nat (n v : nat) : length (bits_of_nat n v) = n.
Proof.
  revert v. induction n as [|n IH]; intros v; simpl; [reflexivity|].
  rewrite length_app, IH. simpl. lia.
Qed.

Lemma bits_of_nat_S (n v : nat) :
  bits_of_nat (S n) v = bits_of_nat n (v / 2) ++ [Nat.odd v].
Proof. reflexivity. Qed.

Lemma nat_of_bits_snoc (bs : list bool) (b : bool) :
  nat_of_bits (bs ++ [b]) = 2 * nat_of_bits bs + Nat.b2n b.
Proof. unfold nat_of_bits. rewrite fold_left_app. reflexivity. Qed.

Lemma b2n_odd (v : nat) : Nat.b2n (Nat.odd v) = v mod 2.
Proof. rewrite <- Nat.bit0_odd. apply Nat.bit0_mod. Qed.

Lemma nat_of_bits_of_nat (n v : nat) :
  nat_of_bits (bits_of_nat n v) = v mod 2 ^ n.
Proof.
  revert v. induction n as [|n IH]; intros v.
  - change (2 ^ 0) with 1. rewrite Nat.mod_1_r. reflexivity.
  - rewrite bits_of_nat_S, nat_of_bits_snoc, IH, b2n_odd.
    rewrite Nat.pow_succ_r', Nat.Div0.mod_mul_r. apply Nat.add_comm.
Qed.

Lemma bits_of_nat_of_bits (bs : list bool) :
  bits_of_nat (length bs) (nat_of_bits bs) = bs.
Proof.
  induction bs as [|b bs IH] using rev_ind; [reflexivity|].
  rewrite length_app, Nat.add_comm. simpl length.
  rewrite bits_of_nat_S, nat_of_bits_snoc.
  assert (Hdiv : (2 * nat_of_bits bs + Nat.b2n b) / 2 = nat_of_bits bs).
  { destruct b; simpl Nat.b2n.
    - rewrite Nat.mul_comm, Nat.div_add_l by lia. simpl. lia.
    - rewrite Nat.add_0_r, Nat.mul_comm, Nat.div_mul by lia. reflexivity. }
  assert (Hodd : Nat.odd (2 * nat_of_bits bs + Nat.b2n b) = b).
  { destruct b; simpl Nat.b2n.
    - rewrite Nat.add_1_r, Nat.odd_succ. apply Nat.even_spec. exists (nat_of_bits bs). lia.
    - rewrite Nat.add_0_r. rewrite <- Nat.negb_even.
      replace (Nat.even (2 * nat_of_bits bs)) with true; [reflexivity|].
      symmetry. apply Nat.even_spec. exists (nat_of_bits bs). lia. }
  rewrite Hdiv, Hodd, IH. reflexivity.
Qed.

Lemma nat_of_bits_bound (bs : list bool) : nat_of_bits bs < 2 ^ length bs.
Proof.
  rewrite <- (bits_of_nat_of_bits bs) at 1. rewrite nat_of_bits_of_nat.
  apply Nat.mod_upper_bound. apply Nat.pow_nonzero. lia.
Qed.

Lemma byte_of_to_nat (b : byte) : byte_of_nat (Byte.to_nat b) = b.
Proof.
  unfold byte_of_nat. pose proof (Byte.to_nat_bounded b).
  rewrite Nat.mod_small by lia. rewrite Byte.of_to_nat. reflexivity.
Qed.

Lemma length_bytes_to_bits (bs : list byte) :
  length (bytes_to_bits bs) = length bs * 8.
Proof.
  unfold bytes_to_bits. apply length_flat_map_const.
  intros b. apply length_bits_of_nat.
Qed.

Lemma bits_to_bytes_to_bits (bs : list byte) :
  bits_to_bytes (bytes_to_bits bs) = bs.
Proof.
  unfold bits_to_bytes, bytes_to_bits.
  rewrite chunks_flat_map with (n := 8);
    [| lia | intros b; apply length_bits_of_nat].
  rewrite map_map. rewrite <- (map_id bs) at 2. apply map_ext. intros b.
  rewrite nat_of_bits_of_nat. pose proof (Byte.to_nat_bounded b).
  change (2 ^ 8) with 256. rewrite Nat.mod_small by lia. apply byte_of_to_nat.
Qed.

Lemma bits_eqb_refl (bs : list bool) : bits_eqb bs bs = true.
Proof.
  unfold bits_eqb. rewrite Nat.eqb_refl. simpl.
  induction bs as [|b bs IH]; simpl; [reflexivity|].
  rewrite IH. destruct b; reflexivity.
Qed.

Lemma bits_eqb_eq (a b : list bool) : bits_eqb a b = true -> a = b.
Proof.
  unfold bits_eqb. rewrite andb_true_iff, Nat.eqb_eq. intros [Hl Hall].
  revert b Hl Hall. induction a as [|x a IH]; intros [|y b] Hl Hall;
    simpl in *; try discriminate; [reflexivity|].
  apply andb_true_iff in Hall as [Hxy Hrest].
  apply Bool.eqb_prop in Hxy. subst y. f_equal. apply IH; [lia | exact Hrest].
Qed.

End Bits.

(** ** Phrases *)

Section Phrases.
Import Bip39.

Lemma is_space_space : is_space space = true.
Proof. reflexivity. Qed.

Lemma split_space_not_nil (s : string) : split_space s <> [].
Proof.
  induction s as [|c r IH]; simpl; [discriminate|].
  destruct (is_space c); [discriminate|].
  destruct (split_space r); discriminate.
Qed.

Lemma split_space_word (w : string) :
  no_space w = true -> split_space w = [w].
Proof.
  unfold no_space. induction w as [|c w IH]; simpl; [reflexivity|].
  rewrite andb_true_iff, negb_true_iff. intros [Hc Hw].
  rewrite Hc, (IH Hw). reflexivity.
Qed.

Lemma split_space_app (w rest : string) :
  no_space w = true ->
  split_space (w ++ String space rest) = w :: split_space rest.
Proof.
  unfold no_space. induction w as [|c w IH]; simpl.
  - intros _. reflexivity.
  - rewrite andb_true_iff, negb_true_iff. intros [Hc Hw].
    rewrite Hc, (IH Hw). reflexivity.
Qed.

Lemma split_join_space (ws : list string) :
  ws <> [] -> Forall (fun w => no_space w = true) ws ->
  split_space (join_space ws) = ws.
Proof.
  induction ws as [|w ws IH]; [congruence|].
  intros _ Hall. inversion Hall as [|? ? Hw Hws]; subst.
  destruct ws as [|w' ws'].
  - simpl. apply split_space_word, Hw.
  - change (join_space (w :: w' :: ws'))
      with (w ++ String space (join_space (w' :: ws')))%string.
    rewrite split_space_app by exact Hw.
    rewrite IH; [reflexivity | discriminate | exact Hws].
Qed.

End Phrases.

(** ** Looking words up *)

Section Lookup.
Import Bip39.
Variable wordlist : list string.
Hypothesis wordlist_nodup : List.NoDup wordlist.

Lemma index_from_nth (ws : list string) (i j : nat) :
  List.NoDup ws -> j < length ws ->
  index_from i ws (nth j ws EmptyString) = Some (i + j).
Proof.
  revert i j. induction ws as [|x ws IH]; intros i j Hnd Hj; [simpl in Hj; lia|].
  inversion Hnd as [|? ? Hnotin Hnd']; subst.
  destruct j as [|j]; simpl.
  - rewrite String.eqb_refl. f_equal. lia.
  - simpl in Hj.
    destruct (String.eqb x (nth j ws EmptyString)) eqn:E.
    + apply String.eqb_eq in E. exfalso. apply Hnotin. rewrite E.
      apply nth_In. lia.
    + rewrite IH by (auto; lia). f_equal. lia.
Qed.

Lemma index_of_nth (j : nat) :
  j < length wordlist ->
  index_of wordlist (nth j wordlist EmptyString) = Some j.
Proof. intros Hj. unfold index_of. rewrite index_from_nth; auto. Qed.

Lemma indexes_nth (idx : list nat) :
  Forall (fun i => i < length wordlist) idx ->
  indexes wordlist (map (fun i => nth i wordlist EmptyString) idx) = Some idx.
Proof.
  induction 1 as [|i idx Hi _ IH]; simpl; [reflexivity|].
  rewrite index_of_nth by exact Hi. rewrite IH. reflexivity.
Qed.

Lemma index_from_In (ws : list string) (i : nat) (w : string) (j : nat) :
  index_from i ws w = Some j -> List.In w ws.
Proof.
  revert i. induction ws as [|x ws IH]; intros i; simpl; [discriminate|].
  destruct (String.eqb x w) eqn:E.
  - apply String.eqb_eq in E. auto.
  - intros H. right. eapply IH, H.
Qed.

Lemma In_index_from (ws : list string) (i : nat) (w : string) :
  List.In w ws -> exists j, index_from i ws w = Some j.
Proof.
  revert i. induction ws as [|x ws IH]; intros i; simpl; [tauto|].
  intros [-> | Hin].
  - rewrite String.eqb_refl. eauto.
  - destruct (String.eqb x w); eauto.
Qed.

End Lookup.

(** ** The codec over any wordlist and hash *)

Section CodecArith.
Import Bip39.

Lemma allowed_entropy_length_In (n : nat) :
  allowed_entropy_length n = true <-> List.In n [16; 20; 24; 28; 32].
Proof.
  unfold allowed_entropy_length. rewrite existsb_exists. split.
  - intros (x & Hin & Heq). apply Nat.eqb_eq in Heq. subst. exact Hin.
  - intros Hin. exists n. split; [exact Hin | apply Nat.eqb_refl].
Qed.

Lemma allowed_word_count_In (n : nat) :
  allowed_word_count n = true <-> List.In n [12; 15; 18; 21; 24].
Proof.
  unfold allowed_word_count. rewrite existsb_exists. split.
  - intros (x & Hin & Heq). apply Nat.eqb_eq in Heq. subst. exact Hin.
  - intros Hin. exists n. split; [exact Hin | apply Nat.eqb_refl].
Qed.

(** An allowed entropy is [4 * k] bytes long with [4 <= k <= 8]. *)
Lemma allowed_entropy_length_quarters (n : nat) :
  allowed_entropy_length n = true -> exists k, n = 4 * k /\ 4 <= k <= 8.
Proof.
  rewrite allowed_entropy_length_In. simpl.
  intros [<- | [<- | [<- | [<- | [<- | []]]]]];
    [exists 4 | exists 5 | exists 6 | exists 7 | exists 8]; lia.
Qed.

Lemma flat_map_bits_of_nat_of_bits (groups : list (list bool)) (n : nat) :
  Forall (fun g => length g = n) groups ->
  flat_map (bits_of_nat n) (map nat_of_bits groups) = concat groups.
Proof.
  induction 1 as [|g groups Hg _ IH]; simpl; [reflexivity|].
  rewrite IH. f_equal. rewrite <- Hg. apply bits_of_nat_of_bits.
Qed.

End CodecArith.

Section ChecksumFacts.
Import Bip39.
Variable hash : list byte -> list byte.
Hypothesis hash_nonempty : forall m, 1 <= length (hash m).

Lemma length_checksum_bits (entropy : list byte) (k : nat) :
  length entropy = 4 * k -> k <= 8 ->
  length (checksum_bits hash entropy) = k.
Proof using hash_nonempty.
  intros Hl Hk. unfold checksum_bits.
  rewrite length_firstn, length_bytes_to_bits, Hl.
  replace (4 * k * 8 / 32) with k.
  - specialize (hash_nonempty entropy). lia.
  - replace (4 * k * 8) with (k * 32) by lia. rewrite Nat.div_mul; lia.
Qed.

Lemma split_bits_encoded (entropy : list byte) (k : nat) :
  length entropy = 4 * k -> k <= 8 ->
  split_bits (bytes_to_bits entropy ++ checksum_bits hash entropy)
  = (bytes_to_bits entropy, checksum_bits hash entropy).
Proof using hash_nonempty.
  intros Hl Hk. unfold split_bits.
  rewrite length_app, length_bytes_to_bits, (length_checksum_bits entropy k), Hl by lia.
  replace ((4 * k * 8 + k) / 33) with k
    by (replace (4 * k * 8 + k) with (k * 33) by lia; rewrite Nat.div_mul; lia).
  replace (4 * k * 8 + k - k) with (length (bytes_to_bits entropy))
    by (rewrite length_bytes_to_bits; lia).
  f_equal.
  - rewrite firstn_app, Nat.sub_diag, firstn_all. simpl. apply app_nil_r.
  - rewrite skipn_app, Nat.sub_diag, skipn_all. reflexivity.
Qed.

End ChecksumFacts.

Section CodecFacts.
Import Bip39.
Variable wordlist : list string.
Variable hash : list byte -> list byte.
Hypothesis wordlist_length : length wordlist = 2048.
Hypothesis wordlist_nodup : List.NoDup wordlist.
Hypothesis wordlist_no_space : Forall (fun w => no_space w = true) wordlist.
Hypothesis hash_nonempty : forall m, 1 <= length (hash m).

Lemma entropy_indexes_bound (entropy : list byte) (k : nat) :
  length entropy = 4 * k -> k <= 8 ->
  Forall (fun i => i < length wordlist) (entropy_indexes hash entropy)
  /\ length (entropy_indexes hash entropy) = 3 * k
  /\ flat_map (bits_of_nat 11) (entropy_indexes hash entropy)
     = bytes_to_bits entropy ++ checksum_bits hash entropy.
Proof using wordlist_length hash_nonempty.
  intros Hl Hk. unfold entropy_indexes.
  destruct (chunks_exact 11 (3 * k) (bytes_to_bits entropy ++ checksum_bits hash entropy))
    as (Hc & Hf & Hn); [lia | |].
  { rewrite length_app, length_bytes_to_bits, (length_checksum_bits hash hash_nonempty entropy k); lia. }
  repeat split.
  - rewrite Forall_map. eapply Forall_impl; [exact Hf|]. intros g Hg. simpl.
    rewrite wordlist_length. change 2048 with (2 ^ 11). rewrite <- Hg.
    apply nat_of_bits_bound.
  - rewrite length_map. exact Hn.
  - rewrite flat_map_bits_of_nat_of_bits by exact Hf. exact Hc.
Qed.

Lemma words_entropy_encoded (entropy : list byte) :
  allowed_entropy_length (length entropy) = true ->
  words_entropy wordlist hash (entropy_words wordlist hash entropy) = Some entropy.
Proof using wordlist_length wordlist_nodup hash_nonempty.
  intros Hallowed.
  destruct (allowed_entropy_length_quarters _ Hallowed) as (k & Hl & Hk4 & Hk8).
  destruct (entropy_indexes_bound entropy k Hl Hk8) as (Hb & _ & Hbits).
  unfold words_entropy, words_bits, entropy_words.
  rewrite (indexes_nth wordlist wordlist_nodup) by exact Hb.
  rewrite Hbits. unfold checksum_ok.
  rewrite (split_bits_encoded hash hash_nonempty entropy k Hl Hk8). simpl fst.
  rewrite bits_to_bytes_to_bits, bits_eqb_refl. reflexivity.
Qed.

Lemma entropy_words_in_wordlist (entropy : list byte) (k : nat) :
  length entropy = 4 * k -> 4 <= k <= 8 ->
  entropy_words wordlist hash entropy <> []
  /\ Forall (fun w => List.In w wordlist) (entropy_words wordlist hash entropy)
  /\ length (entropy_words wordlist hash entropy) = 3 * k.
Proof using wordlist_length hash_nonempty.
  intros Hl [Hk4 Hk8].
  destruct (entropy_indexes_bound entropy k Hl Hk8) as (Hb & Hn & _).
  unfold entropy_words. repeat split.
  - intros E. apply (f_equal (@length string)) in E.
    rewrite length_map, Hn in E. simpl in E. lia.
  - rewrite Forall_map. eapply Forall_impl; [exact Hb|].
    intros i Hi. simpl. apply nth_In. exact Hi.
  - rewrite length_map. exact Hn.
Qed.

Lemma split_entropy_words (entropy : list byte) :
  allowed_entropy_length (length entropy) = true ->
  split_space (join_space (entropy_words wordlist hash entropy))
  = entropy_words wordlist hash entropy.
Proof using wordlist_length wordlist_no_space hash_nonempty.
  intros Hallowed.
  destruct (allowed_entropy_length_quarters _ Hallowed) as (k & Hl & Hk).
  destruct (entropy_words_in_wordlist entropy k Hl Hk) as (Hne & Hin & _).
  apply split_join_space; [exact Hne|].
  eapply Forall_impl; [exact Hin|]. intros w Hw. simpl.
  rewrite Forall_forall in wordlist_no_space. apply wordlist_no_space.
  apply list_elem_of_In. exact Hw.
Qed.

(** Round trip: what [encode] produces, [decode] maps back. *)
Lemma decode_encode (entropy : list byte) :
  allowed_entropy_length (length entropy) = true ->
  exists m, encode wordlist hash entropy = Ok m
            /\ decode wordlist hash m = Ok entropy.
Proof using wordlist_length wordlist_nodup wordlist_no_space hash_nonempty.
  intros Hallowed. unfold encode. rewrite Hallowed.
  eexists. split; [reflexivity|].
  unfold decode. simpl asString.
  rewrite (split_entropy_words entropy Hallowed).
  rewrite (words_entropy_encoded entropy Hallowed). reflexivity.
Qed.

End CodecFacts.

(** ** SHA-2 words and constants *)

Lemma wrap_mod (P : Sha2.params) (x : Z) :
  (0 <= Sha2.wbits P)%Z -> Sha2.wrap P x = (x mod 2 ^ Sha2.wbits P)%Z.
Proof. intros H. unfold Sha2.wrap. apply Z.land_ones. exact H. Qed.

Lemma sha256_constants :
  Sha2.sha256_K = Sha2.round_constants 32 64
  /\ Sha2.sha256_IV = Sha2.initial_hash 32.
Proof. split; vm_compute; reflexivity. Qed.

Lemma sha512_constants :
  Sha2.sha512_K = Sha2.round_constants 64 80
  /\ Sha2.sha512_IV = Sha2.initial_hash 64.
Proof. split; vm_compute; reflexivity. Qed.

(** ** Digest sizes *)

Lemma length_be_bytes (n : nat) (z : Z) : length (be_bytes n z) = n.
Proof. induction n as [|n IH]; simpl; [reflexivity | now rewrite IH]. Qed.

Lemma length_digest (P : Sha2.params) (s : Sha2.state) :
  length (Sha2.digest P s) = 8 * Sha2.wbytes P.
Proof.
  destruct s as [[[[[[[a b] c] d] e] f] g] h]. unfold Sha2.digest.
  simpl. rewrite !length_app, !length_be_bytes. simpl. lia.
Qed.

Lemma length_hash (P : Sha2.params) (msg : list byte) :
  length (Sha2.hash P msg) = 8 * Sha2.wbytes P.
Proof. unfold Sha2.hash. apply length_digest. Qed.

Lemma length_sha256 (msg : list byte) : length (Sha2.sha256 msg) = 32.
Proof. unfold Sha2.sha256. rewrite length_hash. reflexivity. Qed.

Lemma length_sha512 (msg : list byte) : length (Sha2.sha512 msg) = 64.
Proof. unfold Sha2.sha512. rewrite length_hash. reflexivity. Qed.

(** ** The English wordlist *)

Section English.
Import Bip39.

Lemma nodupb_NoDup (l : list string) : nodupb l = true -> List.NoDup l.
Proof.
  induction l as [|x l IH]; simpl; [constructor|].
  rewrite andb_true_iff, negb_true_iff. intros [Hx Hl].
  constructor; [|apply IH, Hl].
  intros Hin. assert (existsb (String.eqb x) l = true); [|congruence].
  apply existsb_exists. exists x. split; [exact Hin | apply String.eqb_refl].
Qed.

Lemma english_length : length english = 2048.
Proof. vm_compute. reflexivity. Qed.

Lemma english_nodup : List.NoDup english.
Proof. apply nodupb_NoDup. vm_compute. reflexivity. Qed.

Lemma english_words : Forall (fun w => is_word w = true) english.
Proof.
  apply Forall_forall. intros w Hw. apply list_elem_of_In in Hw.
  assert (H : forallb is_word english = true) by (vm_compute; reflexivity).
  rewrite forallb_forall in H. apply H, Hw.
Qed.

Lemma is_lower_not_space (c : ascii) : is_lower c = true -> is_space c = false.
Proof.
  unfold is_lower, is_space. intros H.
  destruct (Ascii.eqb c space) eqn:E; [|reflexivity].
  apply Ascii.eqb_eq in E. subst c. discriminate H.
Qed.

Lemma is_word_no_space (w : string) : is_word w = true -> no_space w = true.
Proof.
  unfold is_word, no_space. rewrite andb_true_iff. intros [_ H].
  induction w as [|c w IH]; simpl in *; [reflexivity|].
  apply andb_true_iff in H as [Hc Hw].
  rewrite (is_lower_not_space c Hc), (IH Hw). reflexivity.
Qed.

Lemma english_no_space : Forall (fun w => no_space w = true) english.
Proof.
  eapply Forall_impl; [apply english_words|]. intros w. apply is_word_no_space.
Qed.

Lemma sha256_nonempty (m : list byte) : 1 <= length (Sha2.sha256 m).
Proof. rewrite length_sha256. lia. Qed.

End English.

(** ** The format check, against its description on the text *)

Section Format.
Import Bip39.
Local Open Scope string_scope.

Lemma is_space_true (c : ascii) : is_space c = true <-> c = space.
Proof. unfold is_space. apply Ascii.eqb_eq. Qed.

Lemma starts_with_space_iff (s : string) :
  starts_with_space s = true <-> leading_space s.
Proof.
  unfold leading_space. destruct s as [|c r]; simpl.
  - split; [discriminate | intros [r H]; discriminate].
  - rewrite is_space_true. split.
    + intros ->. eauto.
    + intros [r' H]. congruence.
Qed.

Lemma ends_with_space_iff (s : string) :
  ends_with_space s = true <-> trailing_space s.
Proof.
  unfold trailing_space. induction s as [|c r IH].
  - simpl. split; [discriminate|]. intros [[|c r] H]; discriminate.
  - destruct r as [|c' r'].
    + simpl. rewrite is_space_true. split.
      * intros ->. exists EmptyString. reflexivity.
      * intros [[|x [|y t]] H]; inversion H; reflexivity.
    + change (ends_with_space (String c (String c' r')))
        with (ends_with_space (String c' r')).
      rewrite IH. split.
      * intros [t H]. exists (String c t). rewrite H. reflexivity.
      * intros [[|x t] H]; inversion H. exists t. first [assumption | reflexivity].
Qed.

Lemma has_double_space_iff (s : string) :
  has_double_space s = true <-> double_space s.
Proof.
  unfold double_space. induction s as [|c r IH].
  - simpl. split; [discriminate|]. intros ([|x a] & b & H); discriminate.
  - destruct r as [|c' r'].
    + simpl. split; [discriminate|].
      intros ([|x [|y a]] & b & H); simpl in H; discriminate.
    + change (has_double_space (String c (String c' r')))
        with ((is_space c && is_space c') || has_double_space (String c' r'))%bool.
      rewrite orb_true_iff, andb_true_iff, !is_space_true, IH. split.
      * intros [[-> ->] | (a & b & H)].
        -- exists EmptyString, r'. reflexivity.
        -- exists (String c a), b. rewrite H. reflexivity.
      * intros ([|x a] & b & H); inversion H.
        -- left. split; reflexivity.
        -- right. exists a, b. first [assumption | reflexivity].
Qed.

Lemma string_forallb_false_iff (f : ascii -> bool) (s : string) :
  string_forallb f s = false <-> exists a c b, s = a ++ String c b /\ f c = false.
Proof.
  induction s as [|c r IH]; simpl.
  - split; [discriminate|]. intros ([|x a] & y & b & H & _); discriminate.
  - rewrite andb_false_iff, IH. split.
    + intros [Hc | (a & y & b & H & Hy)].
      * exists EmptyString, c, r. auto.
      * exists (String c a), y, b. rewrite H. split; [reflexivity | exact Hy].
    + intros ([|x a] & y & b & H & Hy); inversion H.
      * left. exact Hy.
      * right. exists a, y, b. split; [first [assumption | reflexivity] | exact Hy].
Qed.

Lemma format_ok_false_iff (s : string) :
  format_ok s = false <-> format_violation s.
Proof.
  unfold format_ok, format_violation.
  rewrite !andb_false_iff, !negb_false_iff.
  rewrite starts_with_space_iff, ends_with_space_iff, has_double_space_iff.
  rewrite string_forallb_false_iff. unfold foreign_char.
  split.
  - intros [[[H | H] | H] | (a & c & b & H & Hc)]; auto.
    apply orb_false_iff in Hc. right; right; right. exists a, c, b. tauto.
  - intros [H | [H | [H | (a & c & b & H & Hs & Hl)]]]; auto.
    right. exists a, c, b. split; [exact H|]. rewrite Hs, Hl. reflexivity.
Qed.

Lemma format_ok_true_iff (s : string) :
  format_ok s = true <-> ~ format_violation s.
Proof.
  rewrite <- format_ok_false_iff. destruct (format_ok s); split; congruence.
Qed.

End Format.

(** ** The validator's order of checks *)

Section ValidatorFacts.
Import Bip39.
Variable wordlist : list string.
Variable hash : list byte -> list byte.

Lemma words_bits_Some (words : list string) :
  Forall (fun w => List.In w wordlist) words ->
  exists bits, words_bits wordlist words = Some bits.
Proof.
  unfold words_bits. intros H.
  assert (Hidx : exists idx, indexes wordlist words = Some idx).
  { induction H as [|w words Hw _ [idx IH]]; simpl; [eauto|].
    destruct (In_index_from wordlist 0 w Hw) as [j Hj].
    unfold index_of. rewrite Hj, IH. eauto. }
  destruct Hidx as [idx ->]. eauto.
Qed.

Lemma new_invalid_format (s : string) :
  format_violation s ->
  EnglishMnemonic_new wordlist hash s = Err InvalidFormat.
Proof.
  intros H. apply format_ok_false_iff in H.
  unfold EnglishMnemonic_new. rewrite H. reflexivity.
Qed.

Lemma new_invalid_word_count (s : string) :
  ~ format_violation s ->
  ~ List.In (length (split_space s)) [12; 15; 18; 21; 24] ->
  EnglishMnemonic_new wordlist hash s
  = Err (InvalidWordCount (length (split_space s))).
Proof.
  intros Hf Hc. apply format_ok_true_iff in Hf.
  unfold EnglishMnemonic_new. rewrite Hf. simpl.
  destruct (allowed_word_count (length (split_space s))) eqn:E; [|reflexivity].
  exfalso. apply Hc. apply allowed_word_count_In. exact E.
Qed.

Lemma new_invalid_checksum (s : string) :
  ~ format_violation s ->
  List.In (length (split_space s)) [12; 15; 18; 21; 24] ->
  Forall (fun w => List.In w wordlist) (split_space s) ->
  (forall bits, words_bits wordlist (split_space s) = Some bits ->
                checksum_ok hash bits = false) ->
  EnglishMnemonic_new wordlist hash s = Err InvalidChecksum.
Proof.
  intros Hf Hc Hw Hcs. apply format_ok_true_iff in Hf.
  apply allowed_word_count_In in Hc.
  unfold EnglishMnemonic_new. rewrite Hf, Hc. simpl.
  destruct (words_bits_Some _ Hw) as [bits Hbits].
  unfold words_entropy. rewrite Hbits, (Hcs bits Hbits). reflexivity.
Qed.

End ValidatorFacts.

(** ** Phrases built from words pass the format check *)

Section JoinFormat.
Import Bip39.
Local Open Scope string_scope.

Lemma is_word_all_lower (w : string) :
  is_word w = true -> w <> EmptyString /\ all_lower w = true.
Proof.
  unfold is_word. rewrite andb_true_iff, negb_true_iff.
  intros [Hne Hl]. split; [|exact Hl]. intros ->. discriminate Hne.
Qed.

Lemma ends_with_space_app (w t : string) :
  t <> EmptyString -> ends_with_space (w ++ t) = ends_with_space t.
Proof.
  intros Ht. induction w as [|c w IH]; [reflexivity|].
  simpl. destruct (w ++ t) eqn:E; [|exact IH].
  destruct w; [exfalso; apply Ht; exact E | discriminate E].
Qed.

Lemma ends_with_space_word (w : string) :
  all_lower w = true -> ends_with_space w = false.
Proof.
  unfold all_lower. induction w as [|c w IH]; [reflexivity|].
  simpl. rewrite andb_true_iff. intros [Hc Hw].
  destruct w; [apply is_lower_not_space, Hc | apply IH, Hw].
Qed.

Lemma has_double_space_app (w t : string) :
  all_lower w = true -> has_double_space (w ++ t) = has_double_space t.
Proof.
  unfold all_lower. induction w as [|c w IH]; [reflexivity|].
  simpl. rewrite andb_true_iff. intros [Hc Hw].
  destruct (w ++ t) eqn:E.
  - destruct w; [change (t = EmptyString) in E; subst t; reflexivity | discriminate E].
  - rewrite (is_lower_not_space c Hc). simpl. apply IH, Hw.
Qed.

Lemma string_app_nil_r (s : string) : s ++ EmptyString = s.
Proof.
  induction s as [|c s IH]; [reflexivity|].
  change (String c (s ++ EmptyString) = String c s). f_equal. exact IH.
Qed.

Lemma has_double_space_word (w : string) :
  all_lower w = true -> has_double_space w = false.
Proof.
  intros Hw. pose proof (has_double_space_app w EmptyString Hw) as H.
  rewrite string_app_nil_r in H. exact H.
Qed.

Lemma string_forallb_app (f : ascii -> bool) (a b : string) :
  string_forallb f (a ++ b) = string_forallb f a && string_forallb f b.
Proof.
  induction a as [|c a IH]; simpl; [reflexivity|].
  rewrite IH. apply andb_assoc.
Qed.

Lemma all_lower_charset (w : string) :
  all_lower w = true ->
  string_forallb (fun c => is_space c || is_lower c) w = true.
Proof.
  unfold all_lower. induction w as [|c w IH]; simpl; [reflexivity|].
  rewrite andb_true_iff. intros [Hc Hw]. rewrite Hc, orb_true_r, (IH Hw).
  reflexivity.
Qed.

(** A phrase of one or more words starts with a letter. *)
Lemma join_space_head (ws : list string) :
  ws <> [] -> Forall (fun w => is_word w = true) ws ->
  exists c r, join_space ws = String c r /\ is_lower c = true.
Proof.
  destruct ws as [|w ws]; [congruence|]. intros _ Hall.
  inversion Hall as [|? ? Hw _]; subst.
  destruct (is_word_all_lower w Hw) as [Hne Hl].
  destruct w as [|c w]; [congruence|].
  unfold all_lower in Hl. simpl in Hl. apply andb_true_iff in Hl as [Hc _].
  destruct ws; simpl; eauto.
Qed.

Lemma format_ok_join_space (ws : list string) :
  ws <> [] -> Forall (fun w => is_word w = true) ws ->
  format_ok (join_space ws) = true.
Proof.
  intros Hne Hall.
  assert (Hparts : ends_with_space (join_space ws) = false
                   /\ has_double_space (join_space ws) = false
                   /\ string_forallb (fun c => is_space c || is_lower c)
                        (join_space ws) = true).
  { clear Hne. induction Hall as [|w ws Hw Hws IH]; [auto|].
    destruct (is_word_all_lower w Hw) as [_ Hl].
    destruct ws as [|w' ws'].
    - simpl. auto using ends_with_space_word, has_double_space_word, all_lower_charset.
    - destruct IH as (He & Hd & Hc).
      destruct (join_space_head (w' :: ws')) as (c & r & Hj & Hlow);
        [discriminate | exact Hws |].
      change (join_space (w :: w' :: ws'))
        with (w ++ String space (join_space (w' :: ws'))).
      repeat split.
      + rewrite ends_with_space_app by discriminate.
        rewrite Hj in *. exact He.
      + rewrite has_double_space_app by exact Hl.
        rewrite Hj in *.
        change (has_double_space (String space (String c r)))
          with ((is_space space && is_space c) || has_double_space (String c r)).
        rewrite (is_lower_not_space c Hlow), andb_false_r. exact Hd.
      + rewrite string_forallb_app, (all_lower_charset w Hl). simpl.
        exact Hc. }
  destruct Hparts as (He & Hd & Hc).
  destruct (join_space_head ws Hne Hall) as (c & r & Hj & Hlow).
  unfold format_ok. rewrite He, Hd, Hc. rewrite Hj. simpl.
  rewrite (is_lower_not_space c Hlow). reflexivity.
Qed.

End JoinFormat.

Section EncodeValid.
Import Bip39.
Variable wordlist : list string.
Variable hash : list byte -> list byte.
Hypothesis wordlist_length : length wordlist = 2048.
Hypothesis wordlist_nodup : List.NoDup wordlist.
Hypothesis wordlist_words : Forall (fun w => is_word w = true) wordlist.
Hypothesis hash_nonempty : forall m, 1 <= length (hash m).

Lemma wordlist_no_space' : Forall (fun w => no_space w = true) wordlist.
Proof using wordlist_words.
  eapply Forall_impl; [exact wordlist_words|]. intros w. apply is_word_no_space.
Qed.

(** What [encode] produces is a mnemonic the validator accepts. *)
Lemma encode_validated (entropy : list byte) (m : EnglishMnemonic) :
  encode wordlist hash entropy = Ok m ->
  EnglishMnemonic_new wordlist hash (asString m) = Ok m.
Proof using wordlist_length wordlist_nodup wordlist_words hash_nonempty.
  unfold encode. destruct (allowed_entropy_length (length entropy)) eqn:Hallowed;
    [|discriminate].
  intros [= <-]. simpl asString.
  destruct (allowed_entropy_length_quarters _ Hallowed) as (k & Hl & Hk).
  destruct (entropy_words_in_wordlist wordlist hash wordlist_length hash_nonempty
              entropy k Hl Hk) as (Hne & Hin & Hlen).
  unfold EnglishMnemonic_new.
  rewrite format_ok_join_space; [simpl | exact Hne |].
  - rewrite (split_entropy_words wordlist hash wordlist_length wordlist_no_space'
               hash_nonempty entropy Hallowed).
    rewrite Hlen.
    replace (allowed_word_count (3 * k)) with true.
    + simpl.
      rewrite (words_entropy_encoded wordlist hash wordlist_length wordlist_nodup
                 hash_nonempty entropy Hallowed).
      reflexivity.
    + symmetry. apply allowed_word_count_In.
      assert (k = 4 \/ k = 5 \/ k = 6 \/ k = 7 \/ k = 8) as Hcases by lia.
      destruct Hcases as [-> | [-> | [-> | [-> | ->]]]]; simpl; tauto.
  - eapply Forall_impl; [exact Hin|]. intros w Hw. simpl.
    rewrite Forall_forall in wordlist_words. apply wordlist_words.
    apply list_elem_of_In. exact Hw.
Qed.

End EncodeValid.

(** ** HMAC and PBKDF2 output sizes *)

Lemma length_xor_bytes (a b : list byte) :
  length (xor_bytes a b) = Nat.min (length a) (length b).
Proof. unfold xor_bytes. rewrite length_map. apply length_combine. Qed.

Lemma length_hmac_sha512 (key msg : list byte) :
  length (Hmac.hmac_sha512 key msg) = 64.
Proof. unfold Hmac.hmac_sha512, Hmac.hmac. apply length_sha512. Qed.

Section Pbkdf2Facts.
Variable prf : list byte -> list byte -> list byte.
Variable hlen : nat.
Hypothesis prf_length : forall key msg, length (prf key msg) = hlen.

Lemma length_iterate (password : list byte) (c : nat) (u acc : list byte) :
  length acc = hlen -> length (Pbkdf2.iterate prf password c u acc) = hlen.
Proof.
  revert u acc. induction c as [|c IH]; intros u acc Hacc; simpl; [exact Hacc|].
  apply IH. rewrite length_xor_bytes, Hacc, prf_length. apply Nat.min_id.
Qed.

Lemma length_F (password salt : list byte) (c i : nat) :
  length (Pbkdf2.F prf password salt c i) = hlen.
Proof. unfold Pbkdf2.F. apply length_iterate, prf_length. Qed.

Lemma length_concat_F (password salt : list byte) (c : nat) (blocks : list nat) :
  length (concat (map (Pbkdf2.F prf password salt c) blocks))
  = length blocks * hlen.
Proof.
  induction blocks as [|i blocks IH]; simpl; [reflexivity|].
  rewrite length_app, length_F, IH. reflexivity.
Qed.

(** The derived key has exactly the requested size. *)
Lemma length_pbkdf2 (password salt : list byte) (c dklen : nat) :
  0 < hlen ->
  length (Pbkdf2.pbkdf2 prf hlen password salt c dklen) = dklen.
Proof.
  intros Hh. unfold Pbkdf2.pbkdf2.
  rewrite length_firstn, length_concat_F, length_seq.
  apply Nat.min_l.
  pose proof (Nat.div_mod_eq (dklen + hlen - 1) hlen) as Hdm.
  pose proof (Nat.mod_upper_bound (dklen + hlen - 1) hlen) as Hub.
  nia.
Qed.

End Pbkdf2Facts.

Lemma length_pbkdf2_hmac_sha512 (password salt : list byte) (c dklen : nat) :
  length (Pbkdf2.pbkdf2_hmac_sha512 password salt c dklen) = dklen.
Proof.
  unfold Pbkdf2.pbkdf2_hmac_sha512.
  apply length_pbkdf2; [apply length_hmac_sha512 | lia].
Qed.

(** ** UserProfile *)

Section ProfileFacts.
Import Profile.
Context {T : Types} {C : Collaborators T}.
Local Open Scope Z_scope.

(** [find] with the predicate [index === n] is the lookup at index [n]. *)
Lemma find_from_index {A} (n : Z) (l : list A) (i : Z) :
  find_from (fun _ index => index =? n) i l
  = if (i <=? n) && (n <? i + Z.of_nat (length l))
    then l !! Z.to_nat (n - i) else None.
Proof.
  revert i. induction l as [|x l IH]; intros i.
  - simpl. destruct (_ && _); reflexivity.
  - simpl find_from. destruct (i =? n) eqn:E.
    + apply Z.eqb_eq in E. subst i. rewrite Z.sub_diag.
      replace ((n <=? n) && (n <? n + Z.of_nat (length (x :: l)))) with true.
      * reflexivity.
      * symmetry. apply andb_true_iff. split; [lia|].
        apply Z.ltb_lt. simpl length. lia.
    + apply Z.eqb_neq in E. rewrite IH. simpl length.
      destruct (i <=? n) eqn:Hle; simpl.
      * apply Z.leb_le in Hle.
        replace (i + 1 <=? n) with true by (symmetry; apply Z.leb_le; lia).
        replace (i + 1 + Z.of_nat (length l)) with (i + Z.of_nat (S (length l))) by lia.
        simpl. destruct (n <? i + Z.of_nat (S (length l))); [|reflexivity].
        replace (Z.to_nat (n - i)) with (S (Z.to_nat (n - (i + 1)))) by lia.
        reflexivity.
      * apply Z.leb_gt in Hle.
        replace (i + 1 <=? n) with false by (symmetry; apply Z.leb_gt; lia).
        reflexivity.
Qed.

Lemma array_find_in_range {A} (n : Z) (l : list A) :
  0 <= n < Z.of_nat (length l) ->
  array_find (fun _ index => index =? n) l = l !! Z.to_nat n.
Proof.
  intros [H0 H1]. unfold array_find. rewrite find_from_index, Z.sub_0_r.
  replace ((0 <=? n) && (n <? 0 + Z.of_nat (length l))) with true; [reflexivity|].
  symmetry. apply andb_true_iff. split; [apply Z.leb_le | apply Z.ltb_lt]; lia.
Qed.

Lemma array_find_out_of_range {A} (n : Z) (l : list A) :
  ~ (0 <= n < Z.of_nat (length l)) ->
  array_find (fun _ index => index =? n) l = None.
Proof.
  intros H. unfold array_find. rewrite find_from_index.
  destruct ((0 <=? n) && (n <? 0 + Z.of_nat (length l))) eqn:E; [|reflexivity].
  apply andb_true_iff in E as [E1 E2].
  apply Z.leb_le in E1. apply Z.ltb_lt in E2. lia.
Qed.

Lemma array_find_Some_in_range {A} (n : Z) (l : list A) (x : A) :
  array_find (fun _ index => index =? n) l = Some x ->
  0 <= n < Z.of_nat (length l).
Proof.
  intros H. destruct (Z_le_dec 0 n) as [H0|H0];
    [destruct (Z_lt_dec n (Z.of_nat (length l))) as [H1|H1]; [lia|]|];
    rewrite array_find_out_of_range in H by lia; discriminate.
Qed.

(** The three outcomes of the two guards every operation starts with. *)
Lemma guard_locked {A} (n : Z) (k : Keyring -> KeyringEntry -> Op A) (p : UserProfile) :
  keyring p = None ->
  bind unlocked_keyring (fun kr => bind (nth_entry kr n) (k kr)) p
  = (Err ProfileLocked, p).
Proof. intros H. unfold bind, unlocked_keyring. rewrite H. reflexivity. Qed.

Lemma guard_not_found {A} (n : Z) (k : Keyring -> KeyringEntry -> Op A)
    (p : UserProfile) (kr : Keyring) :
  keyring p = Some kr ->
  ~ (0 <= n < Z.of_nat (length (getEntries kr))) ->
  bind unlocked_keyring (fun kr => bind (nth_entry kr n) (k kr)) p
  = (Err (EntryNotFound n), p).
Proof.
  intros H Hn. unfold bind at 1, unlocked_keyring. rewrite H.
  unfold bind, nth_entry. rewrite array_find_out_of_range by exact Hn.
  reflexivity.
Qed.

Lemma guard_found {A} (n : Z) (k : Keyring -> KeyringEntry -> Op A)
    (p : UserProfile) (kr : Keyring) (entry : KeyringEntry) :
  keyring p = Some kr ->
  0 <= n -> getEntries kr !! Z.to_nat n = Some entry ->
  bind unlocked_keyring (fun kr => bind (nth_entry kr n) (k kr)) p
  = k kr entry p.
Proof.
  intros H Hn He. unfold bind at 1, unlocked_keyring. rewrite H.
  unfold bind, nth_entry. rewrite array_find_in_range.
  - rewrite He. reflexivity.
  - split; [exact Hn|]. apply lookup_lt_Some in He. lia.
Qed.

Lemma in_range_entry (n : Z) (kr : Keyring) :
  0 <= n < Z.of_nat (length (getEntries kr)) ->
  exists entry, getEntries kr !! Z.to_nat n = Some entry.
Proof.
  intros [H0 H1]. apply lookup_lt_is_Some_2. lia.
Qed.

End ProfileFacts.

Section ProfileClaims.
Import Profile.
Context {T : Types} {C : Collaborators T}.
Local Open Scope Z_scope.

Lemma entry_failure_not_found {A} (r : result string A) (p : UserProfile) (m : Z) :
  fst (lift_entry r p) <> Err (EntryNotFound m).
Proof. destruct r; simpl; discriminate. Qed.

Ltac unfold_ops :=
  unfold createIdentity, setIdentityLabel, getIdentities,
    signTransaction, appendSignature.

(** Out of range: each indexed operation stops at the second guard. *)
Lemma ops_not_found (p : UserProfile) (kr : Keyring) (n : Z)
    (identity : PublicIdentity) (label : option string)
    (tx : UnsignedTransaction) (t : SignedTransaction) (codec : TxCodec)
    (nonce_ : Nonce) :
  keyring p = Some kr -> ~ in_range n kr ->
  createIdentity n p = (Err (EntryNotFound n), p)
  /\ setIdentityLabel n identity label p = (Err (EntryNotFound n), p)
  /\ getIdentities n p = (Err (EntryNotFound n), p)
  /\ signTransaction n identity tx codec nonce_ p = (Err (EntryNotFound n), p)
  /\ appendSignature n identity t codec nonce_ p = (Err (EntryNotFound n), p).
Proof.
  intros Hk Hn. unfold_ops.
  repeat split; eapply guard_not_found; eassumption.
Qed.

(** In range: no indexed operation reports a missing entry. *)
Lemma ops_found (p : UserProfile) (kr : Keyring) (n m : Z)
    (identity : PublicIdentity) (label : option string)
    (tx : UnsignedTransaction) (t : SignedTransaction) (codec : TxCodec)
    (nonce_ : Nonce) :
  keyring p = Some kr -> in_range n kr ->
  fst (createIdentity n p) <> Err (EntryNotFound m)
  /\ fst (setIdentityLabel n identity label p) <> Err (EntryNotFound m)
  /\ fst (getIdentities n p) <> Err (EntryNotFound m)
  /\ fst (signTransaction n identity tx codec nonce_ p) <> Err (EntryNotFound m)
  /\ fst (appendSignature n identity t codec nonce_ p) <> Err (EntryNotFound m).
Proof.
  intros Hk Hn. destruct (in_range_entry n kr Hn) as [entry He].
  destruct Hn as [H0 _]. unfold_ops.
  repeat split.
  - erewrite guard_found by eassumption. unfold bind.
    destruct (entry_createIdentity entry) as [[identity' entry']|msg]; simpl.
    + unfold store_entry. rewrite Hk. simpl. discriminate.
    + discriminate.
  - erewrite guard_found by eassumption. unfold bind.
    destruct (entry_setIdentityLabel entry identity label) as [entry'|msg]; simpl.
    + unfold store_entry. rewrite Hk. simpl. discriminate.
    + discriminate.
  - erewrite guard_found by eassumption. simpl. discriminate.
  - erewrite guard_found by eassumption. unfold bind.
    destruct (entry_createTransactionSignature _ _ _ _); simpl; discriminate.
  - erewrite guard_found by eassumption. unfold bind.
    destruct (entry_createTransactionSignature _ _ _ _); simpl; discriminate.
Qed.

(** Every operation on a locked profile answers ProfileLocked and leaves
    the profile as it is; [lock] answers without error and keeps it locked. *)
Lemma run_call_locked (c : call) (p : UserProfile) :
  keyring p = None ->
  fst (run_call c p) = locked_answer c /\ keyring (snd (run_call c p)) = None.
Proof.
  intros Hk. destruct c; simpl; unfold outcome.
  - auto.
  - unfold storeIn. rewrite Hk. auto.
  - unfold createIdentity. rewrite guard_locked by exact Hk. auto.
  - unfold setIdentityLabel. rewrite guard_locked by exact Hk. auto.
  - unfold getIdentities. rewrite guard_locked by exact Hk. auto.
  - unfold signTransaction. rewrite guard_locked by exact Hk. auto.
  - unfold appendSignature. rewrite guard_locked by exact Hk. auto.
Qed.

(** Locked is terminal: whatever is called afterwards, in whatever order. *)
Lemma run_calls_locked (cs : list call) (p : UserProfile) :
  keyring p = None -> run_calls cs p = map locked_answer cs.
Proof.
  revert p. induction cs as [|c cs IH]; intros p Hk; [reflexivity|].
  destruct (run_call_locked c p Hk) as [Hanswer Hlocked].
  simpl. rewrite Hanswer, (IH _ Hlocked). reflexivity.
Qed.

(** C2. After [lock()], [createIdentity], [setIdentityLabel],
    [getIdentities], [signTransaction], [appendSignature] and [storeIn] fail
    with ProfileLocked, whatever was called in between; on an unlocked
    profile the five operations that take an entry index fail with
    EntryNotFound exactly when the index is out of range of the keyring's
    entries; [lock()] itself always succeeds, also when repeated. *)
Theorem profile_lock_and_index_guards (p : UserProfile) (n : Z)
    (identity : PublicIdentity) (label : option string)
    (tx : UnsignedTransaction) (t : SignedTransaction) (codec : TxCodec)
    (nonce_ : Nonce) (storage : gmap string string) (calls : list call) :
  (fst (lock p) = Ok tt
   /\ keyring (snd (lock p)) = None
   /\ fst (lock (snd (lock p))) = Ok tt
   /\ run_calls calls (snd (lock p)) = map locked_answer calls)
  /\ (keyring p = None ->
      createIdentity n p = (Err ProfileLocked, p)
      /\ setIdentityLabel n identity label p = (Err ProfileLocked, p)
      /\ getIdentities n p = (Err ProfileLocked, p)
      /\ signTransaction n identity tx codec nonce_ p = (Err ProfileLocked, p)
      /\ appendSignature n identity t codec nonce_ p = (Err ProfileLocked, p)
      /\ storeIn p storage = (Err ProfileLocked, storage))
  /\ (forall kr, keyring p = Some kr ->
      ((exists m, fst (createIdentity n p) = Err (EntryNotFound m))
         <-> ~ in_range n kr)
      /\ ((exists m, fst (setIdentityLabel n identity label p) = Err (EntryNotFound m))
         <-> ~ in_range n kr)
      /\ ((exists m, fst (getIdentities n p) = Err (EntryNotFound m))
         <-> ~ in_range n kr)
      /\ ((exists m, fst (signTransaction n identity tx codec nonce_ p)
                     = Err (EntryNotFound m))
         <-> ~ in_range n kr)
      /\ ((exists m, fst (appendSignature n identity t codec nonce_ p)
                     = Err (EntryNotFound m))
         <-> ~ in_range n kr)).
Proof.
  split; [|split].
  - split; [reflexivity|]. split; [reflexivity|]. split; [reflexivity|].
    apply run_calls_locked. reflexivity.
  - intros Hk. unfold_ops.
    repeat split; try (apply guard_locked; exact Hk).
    unfold storeIn. rewrite Hk. reflexivity.
  - intros kr Hk.
    assert (Hdec : in_range n kr \/ ~ in_range n kr) by (unfold in_range; lia).
    destruct Hdec as [Hin | Hout].
    + pose proof (fun m => ops_found p kr n m identity label tx t codec nonce_ Hk Hin)
        as Hf.
      repeat split; try (intros [m Hm]; exfalso; revert Hm; apply (Hf m));
        intros Hno; contradiction.
    + destruct (ops_not_found p kr n identity label tx t codec nonce_ Hk Hout)
        as (H1 & H2 & H3 & H4 & H5).
      repeat split; try (intros _; exact Hout); intros _; exists n.
      * rewrite H1. reflexivity.
      * rewrite H2. reflexivity.
      * rewrite H3. reflexivity.
      * rewrite H4. reflexivity.
      * rewrite H5. reflexivity.
Qed.

(** The outcome of the two signing operations on an unlocked profile and a
    valid index, whatever the entry answers. *)
Lemma signTransaction_found (p : UserProfile) (kr : Keyring) (n : Z)
    (entry : KeyringEntry) (identity : PublicIdentity)
    (tx : UnsignedTransaction) (codec : TxCodec) (nonce_ : Nonce) :
  keyring p = Some kr -> 0 <= n ->
  getEntries kr !! Z.to_nat n = Some entry ->
  signTransaction n identity tx codec nonce_ p
  = match entry_createTransactionSignature entry identity
            (bytesToSign codec tx nonce_) "chain!" with
    | Ok sig =>
        (Ok {| transaction := tx;
               primarySignature :=
                 {| publicKey := pubkey identity; nonce := nonce_; signature := sig |};
               otherSignatures := [] |}, p)
    | Err msg => (Err (EntryFailure msg), p)
    end.
Proof.
  intros Hk Hn He. unfold signTransaction.
  erewrite guard_found by eassumption. unfold bind, chain_id.
  destruct (entry_createTransactionSignature _ _ _ _); reflexivity.
Qed.

Lemma appendSignature_found (p : UserProfile) (kr : Keyring) (n : Z)
    (entry : KeyringEntry) (identity : PublicIdentity)
    (t : SignedTransaction) (codec : TxCodec) (nonce_ : Nonce) :
  keyring p = Some kr -> 0 <= n ->
  getEntries kr !! Z.to_nat n = Some entry ->
  appendSignature n identity t codec nonce_ p
  = match entry_createTransactionSignature entry identity
            (bytesToSign codec (transaction t) nonce_) "chain!" with
    | Ok sig =>
        (Ok {| transaction := transaction t;
               primarySignature := primarySignature t;
               otherSignatures :=
                 otherSignatures t ++
                 [{| publicKey := pubkey identity; nonce := nonce_; signature := sig |}] |},
         p)
    | Err msg => (Err (EntryFailure msg), p)
    end.
Proof.
  intros Hk Hn He. unfold appendSignature.
  erewrite guard_found by eassumption. unfold bind, chain_id.
  destruct (entry_createTransactionSignature _ _ _ _); reflexivity.
Qed.

End ProfileClaims.

Section SigningClaims.
Import Profile.
Context {T : Types} {C : Collaborators T}.
Local Open Scope Z_scope.

Lemma alloc_frame (h : objects) (t : SignedTransaction) (a : nat) (x : SignedTransaction) :
  h !! a = Some x -> snd (alloc h t) !! a = Some x.
Proof. intros H. unfold alloc. cbn [snd]. apply lookup_app_l_Some. exact H. Qed.

Lemma alloc_lookup (h : objects) (t : SignedTransaction) :
  snd (alloc h t) !! fst (alloc h t) = Some t.
Proof. unfold alloc. cbn [fst snd]. apply list_lookup_middle. reflexivity. Qed.

(** Whatever its outcome, [appendSignature] leaves every object of the
    caller as it was. *)
Lemma appendSignature_ref_frame (n : Z) (identity : PublicIdentity) (r : nat)
    (codec : TxCodec) (nonce_ : Nonce) (p p' : UserProfile) (h h' : objects)
    (res : result error nat) :
  appendSignature_ref n identity r codec nonce_ p h = Some (res, p', h') ->
  forall a x, h !! a = Some x -> h' !! a = Some x.
Proof.
  unfold appendSignature_ref. destruct (h !! r) as [t|]; [|discriminate].
  destruct (appendSignature n identity t codec nonce_ p) as [[t'|e] q].
  - intros [= <- <- <-] a x Ha. apply (alloc_frame h t' a x Ha).
  - intros [= <- <- <-] a x Ha. exact Ha.
Qed.

(** C3. On an unlocked profile and a valid entry index, [appendSignature]
    returns a new SignedTransaction with the transaction and the primary
    signature of its input [t] and with [t]'s other signatures, in order,
    followed by exactly one new FullSignature that carries the given nonce;
    the input object is not changed: the caller's reference still holds
    [t], and the result is another object. *)
Theorem appendSignature_appends_one (p : UserProfile) (kr : Keyring) (n : Z)
    (entry : KeyringEntry) (identity : PublicIdentity) (t : SignedTransaction)
    (codec : TxCodec) (nonce_ : Nonce) (sig : SignatureBytes)
    (h : objects) (r : nat) :
  keyring p = Some kr ->
  0 <= n ->
  getEntries kr !! Z.to_nat n = Some entry ->
  entry_createTransactionSignature entry identity
    (bytesToSign codec (transaction t) nonce_) "chain!" = Ok sig ->
  h !! r = Some t ->
  exists t' r' h',
    appendSignature n identity t codec nonce_ p = (Ok t', p)
    /\ transaction t' = transaction t
    /\ primarySignature t' = primarySignature t
    /\ otherSignatures t'
       = otherSignatures t ++
         [{| publicKey := pubkey identity; nonce := nonce_; signature := sig |}]
    /\ length (otherSignatures t') = S (length (otherSignatures t))
    /\ firstn (length (otherSignatures t)) (otherSignatures t') = otherSignatures t
    /\ appendSignature_ref n identity r codec nonce_ p h = Some (Ok r', p, h')
    /\ h' !! r' = Some t'
    /\ r' <> r
    /\ h' !! r = Some t
    /\ (forall a x, h !! a = Some x -> h' !! a = Some x).
Proof.
  intros Hk Hn He Hsig Hr.
  pose proof (appendSignature_found p kr n entry identity t codec nonce_ Hk Hn He)
    as Happ.
  rewrite Hsig in Happ.
  eexists _, (length h), (h ++ [_]).
  split; [exact Happ|]. simpl.
  repeat split.
  - rewrite length_app. simpl. lia.
  - rewrite firstn_app, Nat.sub_diag, firstn_all. simpl. apply app_nil_r.
  - unfold appendSignature_ref. rewrite Hr, Happ. reflexivity.
  - apply list_lookup_middle. reflexivity.
  - apply lookup_lt_Some in Hr. lia.
  - apply lookup_app_l_Some. exact Hr.
  - intros a x Ha. apply lookup_app_l_Some. exact Ha.
Qed.

(** C4. On an unlocked profile and a valid entry index, [signTransaction]
    returns the input transaction with a primary signature made of the
    identity's public key, the very nonce passed in and the signature the
    addressed entry produces over [codec.bytesToSign(transaction, nonce)],
    and with no other signatures. *)
Theorem signTransaction_result (p : UserProfile) (kr : Keyring) (n : Z)
    (entry : KeyringEntry) (identity : PublicIdentity) (tx : UnsignedTransaction)
    (codec : TxCodec) (nonce_ : Nonce) (sig : SignatureBytes) :
  keyring p = Some kr ->
  0 <= n ->
  getEntries kr !! Z.to_nat n = Some entry ->
  entry_createTransactionSignature entry identity
    (bytesToSign codec tx nonce_) "chain!" = Ok sig ->
  exists st,
    signTransaction n identity tx codec nonce_ p = (Ok st, p)
    /\ transaction st = tx
    /\ publicKey (primarySignature st) = pubkey identity
    /\ nonce (primarySignature st) = nonce_
    /\ signature (primarySignature st) = sig
    /\ otherSignatures st = [].
Proof.
  intros Hk Hn He Hsig.
  pose proof (signTransaction_found p kr n entry identity tx codec nonce_ Hk Hn He)
    as Hs.
  rewrite Hsig in Hs. eexists. split; [exact Hs|]. simpl. auto.
Qed.

End SigningClaims.

Section ChainClaim.
Import Profile.
Context {T : Types}.
Local Open Scope Z_scope.

(** C10. Both signing operations call the entry's
    [createTransactionSignature] with the chain id ["chain!"]: their
    outcome is built from the entry's answer for that chain id, and two
    keyring implementations that answer alike for ["chain!"] are not told
    apart, whatever the transaction, identity, nonce and index. *)
Theorem chain_id_is_fixed (C1 C2 : Collaborators T) (p : UserProfile) (n : Z)
    (identity : PublicIdentity) (tx : UnsignedTransaction)
    (t : SignedTransaction) (codec : TxCodec) (nonce_ : Nonce) :
  (forall kr entry, keyring p = Some kr -> 0 <= n ->
     getEntries kr !! Z.to_nat n = Some entry ->
     @signTransaction T C1 n identity tx codec nonce_ p
     = match @entry_createTransactionSignature T C1 entry identity
               (bytesToSign codec tx nonce_) "chain!" with
       | Ok sig =>
           (Ok {| transaction := tx;
                  primarySignature :=
                    {| publicKey := pubkey identity; nonce := nonce_;
                       signature := sig |};
                  otherSignatures := [] |}, p)
       | Err msg => (Err (EntryFailure msg), p)
       end
     /\ @appendSignature T C1 n identity t codec nonce_ p
        = match @entry_createTransactionSignature T C1 entry identity
                  (bytesToSign codec (transaction t) nonce_) "chain!" with
          | Ok sig =>
              (Ok {| transaction := transaction t;
                     primarySignature := primarySignature t;
                     otherSignatures :=
                       otherSignatures t ++
                       [{| publicKey := pubkey identity; nonce := nonce_;
                           signature := sig |}] |}, p)
          | Err msg => (Err (EntryFailure msg), p)
          end)
  /\ ((forall entry id bytes,
         @entry_createTransactionSignature T C1 entry id bytes "chain!"
         = @entry_createTransactionSignature T C2 entry id bytes "chain!") ->
      @signTransaction T C1 n identity tx codec nonce_ p
      = @signTransaction T C2 n identity tx codec nonce_ p
      /\ @appendSignature T C1 n identity t codec nonce_ p
         = @appendSignature T C2 n identity t codec nonce_ p).
Proof.
  split.
  - intros kr entry Hk Hn He. split.
    + apply (@signTransaction_found T C1 p kr n entry identity tx codec nonce_ Hk Hn He).
    + apply (@appendSignature_found T C1 p kr n entry identity t codec nonce_ Hk Hn He).
  - intros Hagree. destruct (keyring p) as [kr|] eqn:Hk.
    + assert (Hdec : in_range n kr \/ ~ in_range n kr) by (unfold in_range; lia).
      destruct Hdec as [Hin | Hout].
      * destruct (in_range_entry n kr Hin) as [entry He]. destruct Hin as [Hn _].
        rewrite (@signTransaction_found T C1 p kr n entry identity tx codec nonce_ Hk Hn He).
        rewrite (@signTransaction_found T C2 p kr n entry identity tx codec nonce_ Hk Hn He).
        rewrite (@appendSignature_found T C1 p kr n entry identity t codec nonce_ Hk Hn He).
        rewrite (@appendSignature_found T C2 p kr n entry identity t codec nonce_ Hk Hn He).
        rewrite !Hagree. split; reflexivity.
      * destruct (@ops_not_found T C1 p kr n identity None tx t codec nonce_ Hk Hout)
          as (_ & _ & _ & -> & ->).
        destruct (@ops_not_found T C2 p kr n identity None tx t codec nonce_ Hk Hout)
          as (_ & _ & _ & -> & ->).
        split; reflexivity.
    + unfold signTransaction, appendSignature.
      rewrite !guard_locked by exact Hk. split; reflexivity.
Qed.

End ChainClaim.

Section StorageClaims.
Import Profile.
Context {T : Types} {C : Collaborators T}.

(** [storeIn] on an unlocked profile whose timestamp cannot be printed:
    the store has been cleared when [toISOString] throws, and nothing is
    written. *)
Lemma storeIn_invalid_time (p : UserProfile) (kr : Keyring)
    (storage : gmap string string) :
  keyring p = Some kr ->
  toISOString (createdAt p) = None ->
  storeIn p storage = (Err InvalidTime, ∅).
Proof. intros Hk Ht. unfold storeIn. rewrite Hk, Ht. reflexivity. Qed.

(** C8, amended. On an unlocked profile whose creation timestamp is a valid
    date, one that [toISOString] prints, [storeIn] removes whatever the
    store held and writes exactly two records: the printed timestamp under
    ["created_at"] and the keyring serialization under ["keyring"]; every
    other key then reports not-found.  On a locked profile it fails with
    ProfileLocked and the store is untouched. *)
Theorem storeIn_overwrites (p : UserProfile) (storage : gmap string string) :
  (forall kr text, keyring p = Some kr ->
     toISOString (createdAt p) = Some text ->
     exists db,
       storeIn p storage = (Ok tt, db)
       /\ db !! "created_at" = Some text
       /\ db !! "keyring" = Some (serialize kr)
       /\ (forall key, key <> "created_at" -> key <> "keyring" ->
             db !! key = None /\ exists e, db_get db key = Err e)
       /\ size db = 2%nat
       /\ storeIn p ∅ = (Ok tt, db))
  /\ (keyring p = None -> storeIn p storage = (Err ProfileLocked, storage)).
Proof.
  split.
  - intros kr text Hk Ht. unfold storeIn. rewrite Hk, Ht.
    eexists. split; [reflexivity|].
    unfold db_put, db_clear, storageKeyCreatedAt, storageKeyKeyring.
    split; [|split; [|split; [|split]]].
    + rewrite lookup_insert_ne by done. apply lookup_insert_eq.
    + apply lookup_insert_eq.
    + intros key H1 H2. unfold db_get.
      rewrite !lookup_insert_ne by congruence. rewrite lookup_empty. eauto.
    + rewrite map_size_insert_None.
      * rewrite map_size_insert_None by apply lookup_empty.
        rewrite map_size_empty. reflexivity.
      * rewrite lookup_insert_ne by done. apply lookup_empty.
    + reflexivity.
  - intros Hk. unfold storeIn. rewrite Hk. reflexivity.
Qed.

(** C9. [loadFrom] reads the ["created_at"] and the ["keyring"] record and
    returns an unlocked profile rebuilt from them; when either record is
    absent it fails with MissingField. *)
Theorem loadFrom_reads_two_records (storage : gmap string string) :
  (storage !! "created_at" = None \/ storage !! "keyring" = None ->
     exists key, loadFrom storage = Err (MissingField key)
                 /\ storage !! key = None
                 /\ (key = "created_at" \/ key = "keyring"))
  /\ (forall created ks es,
        storage !! "created_at" = Some created ->
        storage !! "keyring" = Some ks ->
        deserialize_entries ks = Ok es ->
        exists p,
          loadFrom storage = Ok p
          /\ createdAt p = date_of_string created
          /\ keyring p = Some {| getEntries := es |}
          /\ serialize {| getEntries := es |} = serialize_entries es
          /\ value (lockedProducer p) = false
          /\ emitted (lockedProducer p) = [false]).
Proof.
  unfold loadFrom, db_get, storageKeyCreatedAt, storageKeyKeyring. split.
  - intros Habsent.
    destruct (storage !! "created_at") as [created|] eqn:Hc.
    + destruct Habsent as [Habsent | Habsent]; [discriminate|].
      cbv beta iota. rewrite Habsent. exists "keyring". auto.
    + exists "created_at". auto.
  - intros created ks es Hc Hks Hes. rewrite Hc. cbv beta iota. rewrite Hks. cbv beta iota.
    unfold UserProfile_new. rewrite Hes.
    eexists. split; [reflexivity|]. simpl. auto.
Qed.

(** A keyring record that does not deserialise makes the constructor, and
    so [loadFrom], fail. *)
Lemma loadFrom_corrupt_keyring (storage : gmap string string)
    (created ks msg : string) :
  storage !! "created_at" = Some created ->
  storage !! "keyring" = Some ks ->
  deserialize_entries ks = Err msg ->
  loadFrom storage = Err (InvalidSerialization msg).
Proof.
  unfold loadFrom, db_get, storageKeyCreatedAt, storageKeyKeyring.
  intros Hc Hks Hes. rewrite Hc. cbv beta iota. rewrite Hks. cbv beta iota.
  unfold UserProfile_new. rewrite Hes. reflexivity.
Qed.

End StorageClaims.

(** ** BIP39 with the English wordlist and SHA-256 *)

Section Bip39Claims.
Import Bip39.

Lemma english_encode_zero : english_encode zero_entropy = Ok (MkMnemonic zero_mnemonic).
Proof. vm_compute. reflexivity. Qed.

Lemma english_decode_zero : english_decode (MkMnemonic zero_mnemonic) = Ok zero_entropy.
Proof. vm_compute. reflexivity. Qed.

(** C1. For every entropy of 16, 20, 24, 28 or 32 bytes,
    [decode (encode e) = e]; the sixteen zero bytes encode to "abandon" eleven
    times followed by "about", which decodes back to them. *)
Theorem bip39_decode_encode_roundtrip (e : list byte) :
  List.In (length e) [16; 20; 24; 28; 32] ->
  exists m,
    english_encode e = Ok m
    /\ english_decode m = Ok e
    /\ (e = zero_entropy ->
        asString m = zero_mnemonic
        /\ english_decode (MkMnemonic zero_mnemonic) = Ok zero_entropy).
Proof.
  intros Hlen. apply allowed_entropy_length_In in Hlen.
  destruct (decode_encode english Sha2.sha256 english_length english_nodup
              english_no_space sha256_nonempty e Hlen) as (m & Henc & Hdec).
  change (english_encode e = Ok m) in Henc.
  change (english_decode m = Ok e) in Hdec.
  exists m. split; [exact Henc|]. split; [exact Hdec|].
  intros ->. split; [|exact english_decode_zero].
  rewrite english_encode_zero in Henc. injection Henc as <-. reflexivity.
Qed.

(** C7. [encode] succeeds exactly for entropies of 16, 20, 24, 28 or 32
    bytes; for any other length, among them 0, 1, 15, 17, 23, 25 and 33
    bytes, it fails with InvalidLength. *)
Theorem bip39_encode_length_table (e : list byte) :
  ((exists m, english_encode e = Ok m) <-> List.In (length e) [16; 20; 24; 28; 32])
  /\ (~ List.In (length e) [16; 20; 24; 28; 32] ->
      english_encode e = Err InvalidLength)
  /\ (List.In (length e) [0; 1; 15; 17; 23; 25; 33] ->
      english_encode e = Err InvalidLength).
Proof.
  assert (Hno : ~ List.In (length e) [16; 20; 24; 28; 32] ->
                english_encode e = Err InvalidLength).
  { intros Hn. unfold english_encode, encode.
    destruct (allowed_entropy_length (length e)) eqn:E; [|reflexivity].
    exfalso. apply Hn. apply allowed_entropy_length_In. exact E. }
  split; [|split].
  - split.
    + intros [m Hm]. unfold english_encode, encode in Hm.
      destruct (allowed_entropy_length (length e)) eqn:E; [|discriminate].
      apply allowed_entropy_length_In. exact E.
    + intros Hin. apply allowed_entropy_length_In in Hin.
      unfold english_encode, encode. rewrite Hin. eauto.
  - exact Hno.
  - intros Hin. apply Hno. simpl in *. lia.
Qed.

(** C6. The validator applies its checks in order.  A leading, trailing or
    doubled space or a character outside a-z fails with InvalidFormat,
    whatever the words are; otherwise a number of words outside
    12, 15, 18, 21, 24 fails with InvalidWordCount carrying that number;
    otherwise words that are all in the wordlist with a checksum that does
    not verify fail with InvalidChecksum. *)
Theorem mnemonic_validation_order (s : string) :
  (format_violation s -> english_mnemonic s = Err InvalidFormat)
  /\ (~ format_violation s ->
      ~ List.In (length (split_space s)) [12; 15; 18; 21; 24] ->
      english_mnemonic s = Err (InvalidWordCount (length (split_space s))))
  /\ (~ format_violation s ->
      List.In (length (split_space s)) [12; 15; 18; 21; 24] ->
      Forall (fun w => List.In w english) (split_space s) ->
      (forall bits, words_bits english (split_space s) = Some bits ->
                    checksum_ok Sha2.sha256 bits = false) ->
      english_mnemonic s = Err InvalidChecksum
      /\ english_mnemonic s <> Err InvalidFormat).
Proof.
  unfold english_mnemonic. split; [|split].
  - apply new_invalid_format.
  - apply new_invalid_word_count.
  - intros Hf Hc Hw Hcs.
    rewrite (new_invalid_checksum english Sha2.sha256 s Hf Hc Hw Hcs).
    split; [reflexivity | discriminate].
Qed.

(** What [english_encode] returns is a validated mnemonic. *)
Lemma english_encode_validated (e : list byte) (m : EnglishMnemonic) :
  english_encode e = Ok m -> english_mnemonic (asString m) = Ok m.
Proof.
  apply (encode_validated english Sha2.sha256 english_length english_nodup
           english_words sha256_nonempty).
Qed.

End Bip39Claims.

Section SeedClaims.
Import Bip39.
Variable canonical_bytes : string -> list byte.

(** C5. [mnemonicToSeed] is a total function of any text and passphrase: it
    returns exactly 64 bytes, the same for the same inputs, and leaving the
    passphrase out is the same as passing the empty one. *)
Theorem mnemonicToSeed_total (mnemonicText passphrase : string) :
  length (mnemonicToSeed canonical_bytes mnemonicText (Some passphrase)) = 64
  /\ length (mnemonicToSeed canonical_bytes mnemonicText None) = 64
  /\ length (mnemonicToSeed canonical_bytes EmptyString None) = 64
  /\ mnemonicToSeed canonical_bytes mnemonicText None
     = mnemonicToSeed canonical_bytes mnemonicText (Some EmptyString)
  /\ (forall text' pass',
        text' = mnemonicText -> pass' = passphrase ->
        mnemonicToSeed canonical_bytes text' (Some pass')
        = mnemonicToSeed canonical_bytes mnemonicText (Some passphrase)).
Proof.
  split; [|split; [|split; [|split]]].
  - apply length_pbkdf2_hmac_sha512.
  - apply length_pbkdf2_hmac_sha512.
  - apply length_pbkdf2_hmac_sha512.
  - unfold mnemonicToSeed. cbv beta iota. reflexivity.
  - intros text' pass' Ht Hp. rewrite Ht, Hp. reflexivity.
Qed.

End SeedClaims.

(** ** The test suite's vectors *)

Section VectorChecks.
Import Bip39 Vectors.

Example spec_can_encode_to_mnemonic :
  forallb (fun v => mnemonic_eqb (english_encode (fromHex (fst v))) (snd v))
    codec_vectors = true.
Proof. vm_compute. reflexivity. Qed.

Example spec_can_decode_from_mnemonic :
  forallb (fun v => entropy_eqb (english_decode (MkMnemonic (snd v))) (fromHex (fst v)))
    codec_vectors = true.
Proof. vm_compute. reflexivity. Qed.

Example spec_vectors_are_valid_mnemonics :
  forallb (fun v => mnemonic_eqb (english_mnemonic (snd v)) (snd v))
    codec_vectors = true.
Proof. vm_compute. reflexivity. Qed.

Example spec_invalid_input_length :
  forallb (fun h => fails_with (english_encode (fromHex h)) InvalidLength)
    invalid_lengths = true.
Proof. vm_compute. reflexivity. Qed.

Example spec_invalid_mnemonic_format :
  forallb (fun s => fails_with (english_mnemonic s) InvalidFormat)
    invalid_formats = true.
Proof. vm_compute. reflexivity. Qed.

Example spec_invalid_word_count :
  forallb (fun v => fails_with (english_mnemonic (fst v)) (InvalidWordCount (snd v)))
    invalid_word_counts = true.
Proof. vm_compute. reflexivity. Qed.

Example spec_invalid_mnemonic_checksum :
  forallb (fun s => fails_with (english_mnemonic s) InvalidChecksum)
    invalid_checksums = true.
Proof. vm_compute. reflexivity. Qed.

(** Known answers of the primitives: FIPS 180-4 ("abc"), RFC 4231 (test
    case 2) and PBKDF2-HMAC-SHA512 with one and two iterations. *)
Example sha256_abc :
  Sha2.sha256 (list_byte_of_string "abc")
  = fromHex "ba7816bf8f01cfea414140de5dae2223b00361a396177a9cb410ff61f20015ad".
Proof. vm_compute. reflexivity. Qed.

Example sha512_abc :
  Sha2.sha512 (list_byte_of_string "abc")
  = fromHex "ddaf35a193617abacc417349ae20413112e6fa4e89a97ea20a9eeee64b55d39a2192992a274fc1a836ba3c23a3feebbd454d4423643ce80e2a9ac94fa54ca49f".
Proof. vm_compute. reflexivity. Qed.

Example hmac_sha512_rfc4231 :
  Hmac.hmac_sha512 (list_byte_of_string "Jefe")
    (list_byte_of_string "what do ya want for nothing?")
  = fromHex "164b7a7bfcf819e2e395fbe73b56e0a387bd64222e831fd610270cd7ea2505549758bf75c05a994a6d034f65f8f0e6fdcaeab1a34d4a6b4b636e070a38bce737".
Proof. vm_compute. reflexivity. Qed.

Example pbkdf2_one_iteration :
  Pbkdf2.pbkdf2_hmac_sha512 (list_byte_of_string "password")
    (list_byte_of_string "salt") 1 64
  = fromHex "867f70cf1ade02cff3752599a3a53dc4af34c7a669815ae5d513554e1c8cf252c02d470a285a0501bad999bfe943c08f050235d7d68b1da55e63f73b60a57fce".
Proof. vm_compute. reflexivity. Qed.

Example pbkdf2_two_iterations :
  Pbkdf2.pbkdf2_hmac_sha512 (list_byte_of_string "password")
    (list_byte_of_string "salt") 2 64
  = fromHex "e1d9c16aa681708a45f5c7c4e215ceb66e011a2e9f0040713f18aefdb866d53cf76cab2868a39b9f7840edce4fef5a82be67335c77a6068e04112754f27ccf4e".
Proof. vm_compute. reflexivity. Qed.

End VectorChecks.

(** ** The theorems at concrete inputs *)

Section Witnesses.
Import Bip39 Profile Demo.

Lemma In_english_of_existsb (ws : list string) :
  forallb (fun w => existsb (String.eqb w) english) ws = true ->
  Forall (fun w => List.In w english) ws.
Proof.
  intros H. apply Forall_forall. intros w Hw. apply list_elem_of_In in Hw.
  rewrite forallb_forall in H. specialize (H w Hw).
  apply existsb_exists in H as (x & Hx & Heq).
  apply String.eqb_eq in Heq. subst x. exact Hx.
Qed.

Lemma bip39_decode_encode_roundtrip_witness :
  List.In (length zero_entropy) [16; 20; 24; 28; 32]
  /\ exists m,
       english_encode zero_entropy = Ok m
       /\ english_decode m = Ok zero_entropy
       /\ (zero_entropy = zero_entropy ->
           asString m = zero_mnemonic
           /\ english_decode (MkMnemonic zero_mnemonic) = Ok zero_entropy).
Proof.
  split; [left; reflexivity|].
  apply (bip39_decode_encode_roundtrip zero_entropy). left. reflexivity.
Defined.

Lemma bip39_encode_length_table_witness :
  english_encode [] = Err InvalidLength
  /\ english_encode (repeat x00 17) = Err InvalidLength.
Proof.
  split.
  - apply (proj1 (proj2 (bip39_encode_length_table []))). simpl. lia.
  - apply (proj2 (proj2 (bip39_encode_length_table (repeat x00 17)))).
    simpl. lia.
Defined.

Lemma mnemonic_validation_order_witness :
  english_mnemonic " abandon about" = Err InvalidFormat
  /\ english_mnemonic "abandon about" = Err (InvalidWordCount 2)
  /\ english_mnemonic twelve_zoo = Err InvalidChecksum.
Proof.
  split; [|split].
  - apply (proj1 (mnemonic_validation_order " abandon about")).
    left. exists "abandon about"%string. reflexivity.
  - apply (proj1 (proj2 (mnemonic_validation_order "abandon about"))).
    + apply format_ok_true_iff. reflexivity.
    + simpl. lia.
  - apply (proj2 (proj2 (mnemonic_validation_order twelve_zoo))).
    + apply format_ok_true_iff. reflexivity.
    + left. reflexivity.
    + apply In_english_of_existsb. vm_compute. reflexivity.
    + intros bits Hbits. vm_compute in Hbits. injection Hbits as <-.
      vm_compute. reflexivity.
Defined.

Lemma mnemonicToSeed_total_witness :
  length (mnemonicToSeed list_byte_of_string "foo" (Some "passwd"%string)) = 64%nat
  /\ mnemonicToSeed list_byte_of_string "foo" (Some "passwd"%string)
     = mnemonicToSeed list_byte_of_string "foo" (Some "passwd"%string).
Proof.
  split.
  - exact (proj1 (mnemonicToSeed_total list_byte_of_string "foo" "passwd")).
  - exact (proj2 (proj2 (proj2 (proj2
             (mnemonicToSeed_total list_byte_of_string "foo" "passwd"))))
             "foo"%string "passwd"%string eq_refl eq_refl).
Defined.

Lemma profile_lock_and_index_guards_witness :
  (@createIdentity Demo.types Demo.collaborators 0 demo_locked
     = (Err ProfileLocked, demo_locked)
   /\ @storeIn Demo.types Demo.collaborators demo_locked ∅
     = (Err ProfileLocked, ∅))
  /\ ((exists m, fst (@createIdentity Demo.types Demo.collaborators 2 Demo.profile)
                 = Err (EntryNotFound m))
      <-> ~ @in_range Demo.types 2 demo_keyring).
Proof.
  split.
  - pose proof (proj1 (proj2
      (@profile_lock_and_index_guards Demo.types Demo.collaborators demo_locked 0
         Demo.alice None [] Demo.signed Demo.codec 0%Z ∅ [])) eq_refl) as H.
    split; [exact (proj1 H) | exact (proj2 (proj2 (proj2 (proj2 (proj2 H)))))].
  - exact (proj1 (proj2 (proj2
      (@profile_lock_and_index_guards Demo.types Demo.collaborators Demo.profile 2
         Demo.alice None [] Demo.signed Demo.codec 0%Z ∅ [])) demo_keyring eq_refl)).
Defined.

Lemma appendSignature_appends_one_witness :
  exists t' r' h',
    @appendSignature Demo.types Demo.collaborators 1 Demo.bob Demo.signed
      Demo.codec 5%Z Demo.profile = (Ok t', Demo.profile)
    /\ transaction t' = transaction Demo.signed
    /\ primarySignature t' = primarySignature Demo.signed
    /\ otherSignatures t'
       = otherSignatures Demo.signed ++
         [@Build_FullSignature Demo.types [x02] 5%Z
            (Demo.signed.(transaction) ++ be_bytes 8 5 ++ list_byte_of_string "chain!")]
    /\ length (otherSignatures t') = S (length (otherSignatures Demo.signed))
    /\ firstn (length (otherSignatures Demo.signed)) (otherSignatures t')
       = otherSignatures Demo.signed
    /\ @appendSignature_ref Demo.types Demo.collaborators 1 Demo.bob 0%nat
         Demo.codec 5%Z Demo.profile [Demo.signed] = Some (Ok r', Demo.profile, h')
    /\ h' !! r' = Some t'
    /\ r' <> 0%nat
    /\ h' !! 0%nat = Some Demo.signed
    /\ (forall a x, [Demo.signed] !! a = Some x -> h' !! a = Some x).
Proof.
  apply (@appendSignature_appends_one Demo.types Demo.collaborators
           Demo.profile demo_keyring 1 [Demo.bob] Demo.bob Demo.signed Demo.codec
           5%Z _ [Demo.signed] 0%nat).
  - reflexivity.
  - lia.
  - reflexivity.
  - vm_compute. reflexivity.
  - reflexivity.
Defined.

Lemma signTransaction_result_witness :
  exists st,
    @signTransaction Demo.types Demo.collaborators 0 Demo.alice [x0a; x0b]
      Demo.codec 9%Z Demo.profile = (Ok st, Demo.profile)
    /\ transaction st = [x0a; x0b]
    /\ publicKey (primarySignature st) = [x01]
    /\ nonce (primarySignature st) = 9%Z
    /\ signature (primarySignature st)
       = [x0a; x0b] ++ be_bytes 8 9 ++ list_byte_of_string "chain!"
    /\ otherSignatures st = [].
Proof.
  apply (@signTransaction_result Demo.types Demo.collaborators
           Demo.profile demo_keyring 0 [Demo.alice] Demo.alice [x0a; x0b]
           Demo.codec 9%Z).
  - reflexivity.
  - lia.
  - reflexivity.
  - vm_compute. reflexivity.
Defined.

Lemma chain_id_is_fixed_witness :
  @signTransaction Demo.types Demo.collaborators 0 Demo.alice [x0a; x0b]
    Demo.codec 9%Z Demo.profile
  = @signTransaction Demo.types Demo.collaborators_one_chain 0 Demo.alice [x0a; x0b]
      Demo.codec 9%Z Demo.profile
  /\ @appendSignature Demo.types Demo.collaborators 0 Demo.alice Demo.signed
       Demo.codec 9%Z Demo.profile
     = @appendSignature Demo.types Demo.collaborators_one_chain 0 Demo.alice
         Demo.signed Demo.codec 9%Z Demo.profile.
Proof.
  apply (proj2 (@chain_id_is_fixed Demo.types Demo.collaborators
                  Demo.collaborators_one_chain Demo.profile 0 Demo.alice
                  [x0a; x0b] Demo.signed Demo.codec 9%Z)).
  intros entry id bytes. reflexivity.
Defined.

Lemma storeIn_overwrites_witness :
  (exists db,
     @storeIn Demo.types Demo.collaborators Demo.profile {[ "foo"%string := "bar"%string ]}
       = (Ok tt, db)
     /\ db !! "created_at"%string = Some "2018-05-01T12:00:00.000Z"%string
     /\ db !! "keyring"%string = Some "[]"%string
     /\ (forall key : string, key <> "created_at"%string -> key <> "keyring"%string ->
           db !! key = None /\ exists e, db_get db key = Err e)
     /\ size db = 2%nat
     /\ @storeIn Demo.types Demo.collaborators Demo.profile ∅ = (Ok tt, db))
  /\ @storeIn Demo.types Demo.collaborators demo_locked {[ "foo"%string := "bar"%string ]}
     = (Err ProfileLocked, {[ "foo"%string := "bar"%string ]}).
Proof.
  split.
  - apply (proj1 (@storeIn_overwrites Demo.types Demo.collaborators Demo.profile
                    {[ "foo"%string := "bar"%string ]}) demo_keyring
             "2018-05-01T12:00:00.000Z"%string).
    + reflexivity.
    + reflexivity.
  - apply (proj2 (@storeIn_overwrites Demo.types Demo.collaborators demo_locked
                    {[ "foo"%string := "bar"%string ]})).
    reflexivity.
Defined.

(** C8 as the claim states it, for every unlocked profile, fails on the
    profile that [loadFrom] builds from a store whose timestamp record is no
    date: the profile is unlocked, and [storeIn] empties the store, fails
    with the error of [toISOString] and writes neither record. *)
Lemma storeIn_overwrites_counterexample :
  @loadFrom Demo.types Demo.collaborators undated_store = Ok undated
  /\ keyring undated = Some (@Build_Keyring Demo.types [])
  /\ @storeIn Demo.types Demo.collaborators undated demo_store = (Err InvalidTime, ∅)
  /\ ~ (exists db text,
          @storeIn Demo.types Demo.collaborators undated demo_store = (Ok tt, db)
          /\ db !! "created_at"%string = Some text
          /\ db !! "keyring"%string = Some "[]"%string).
Proof.
  split; [reflexivity|]. split; [reflexivity|]. split; [reflexivity|].
  intros (db & text & Hstore & _). discriminate Hstore.
Qed.

Lemma loadFrom_reads_two_records_witness :
  (exists key, @loadFrom Demo.types Demo.collaborators ∅ = Err (MissingField key)
               /\ (∅ : gmap string string) !! key = None
               /\ (key = "created_at"%string \/ key = "keyring"%string))
  /\ (exists p,
        @loadFrom Demo.types Demo.collaborators demo_store = Ok p
        /\ createdAt p = "2018-05-01T12:00:00.000Z"%string
        /\ keyring p = Some (@Build_Keyring Demo.types [])
        /\ @serialize Demo.types Demo.collaborators (@Build_Keyring Demo.types [])
           = "[]"%string
        /\ value (lockedProducer p) = false
        /\ emitted (lockedProducer p) = [false]).
Proof.
  split.
  - apply (proj1 (@loadFrom_reads_two_records Demo.types Demo.collaborators ∅)).
    left. reflexivity.
  - apply (proj2 (@loadFrom_reads_two_records Demo.types Demo.collaborators demo_store)
             "2018-05-01T12:00:00.000Z"%string "[]"%string []).
    + reflexivity.
    + reflexivity.
    + reflexivity.
Defined.

End Witnesses.

(** * Further properties of the code *)

(** ** What a call does to the profile *)

Section ProfileSteps.
Import Profile.
Context {T : Types} {C : Collaborators T}.
Local Open Scope Z_scope.

(** The profile with the entry at index [n] replaced. *)
Lemma store_entry_unlocked (n : Z) (entry : KeyringEntry) (p : UserProfile)
    (kr : Keyring) :
  keyring p = Some kr ->
  store_entry n entry p
  = (Ok tt,
     {| createdAt := createdAt p;
        keyring := Some {| getEntries := <[Z.to_nat n := entry]> (getEntries kr) |};
        lockedProducer := lockedProducer p |}).
Proof. intros Hk. unfold store_entry. rewrite Hk. reflexivity. Qed.

(** [createIdentity] on an unlocked profile and a valid index, by what the
    entry answers. *)
Lemma createIdentity_found (p : UserProfile) (kr : Keyring) (n : Z)
    (entry : KeyringEntry) :
  keyring p = Some kr -> 0 <= n ->
  getEntries kr !! Z.to_nat n = Some entry ->
  createIdentity n p
  = match entry_createIdentity entry with
    | Ok created =>
        (Ok (fst created),
         {| createdAt := createdAt p;
            keyring :=
              Some {| getEntries := <[Z.to_nat n := snd created]> (getEntries kr) |};
            lockedProducer := lockedProducer p |})
    | Err msg => (Err (EntryFailure msg), p)
    end.
Proof.
  intros Hk Hn He. unfold createIdentity.
  erewrite guard_found by eassumption. unfold bind.
  destruct (entry_createIdentity entry) as [created|msg]; simpl; [|reflexivity].
  rewrite (store_entry_unlocked n (snd created) p kr Hk). reflexivity.
Qed.

Lemma setIdentityLabel_found (p : UserProfile) (kr : Keyring) (n : Z)
    (entry : KeyringEntry) (identity : PublicIdentity) (label : option string) :
  keyring p = Some kr -> 0 <= n ->
  getEntries kr !! Z.to_nat n = Some entry ->
  setIdentityLabel n identity label p
  = match entry_setIdentityLabel entry identity label with
    | Ok entry' =>
        (Ok tt,
         {| createdAt := createdAt p;
            keyring :=
              Some {| getEntries := <[Z.to_nat n := entry']> (getEntries kr) |};
            lockedProducer := lockedProducer p |})
    | Err msg => (Err (EntryFailure msg), p)
    end.
Proof.
  intros Hk Hn He. unfold setIdentityLabel.
  erewrite guard_found by eassumption. unfold bind.
  destruct (entry_setIdentityLabel entry identity label) as [entry'|msg]; simpl;
    [|reflexivity].
  apply (store_entry_unlocked n entry' p kr Hk).
Qed.

Lemma getIdentities_found (p : UserProfile) (kr : Keyring) (n : Z)
    (entry : KeyringEntry) :
  keyring p = Some kr -> 0 <= n ->
  getEntries kr !! Z.to_nat n = Some entry ->
  getIdentities n p = (Ok (entry_getIdentities entry), p).
Proof.
  intros Hk Hn He. unfold getIdentities.
  erewrite guard_found by eassumption. reflexivity.
Qed.

Lemma indexed_cases (p : UserProfile) (n : Z) :
  keyring p = None
  \/ (exists kr, keyring p = Some kr /\ ~ in_range n kr)
  \/ (exists kr entry, keyring p = Some kr /\ 0 <= n
                       /\ getEntries kr !! Z.to_nat n = Some entry).
Proof.
  destruct (keyring p) as [kr|] eqn:Hk; [|auto].
  right.
  assert (Hdec : in_range n kr \/ ~ in_range n kr) by (unfold in_range; lia).
  destruct Hdec as [Hin|Hout]; [|eauto].
  destruct (in_range_entry n kr Hin) as [entry He].
  destruct Hin as [H0 _]. right. eauto.
Qed.

Lemma createIdentity_step (n : Z) (p : UserProfile) :
  same_but_entry p (snd (createIdentity n p)).
Proof.
  destruct (indexed_cases p n) as [Hk | [(kr & Hk & Hout) | (kr & entry & Hk & Hn & He)]].
  - unfold createIdentity. rewrite guard_locked by exact Hk. left. reflexivity.
  - unfold createIdentity. erewrite guard_not_found by eassumption. left. reflexivity.
  - rewrite (createIdentity_found p kr n entry Hk Hn He).
    destruct (entry_createIdentity entry) as [created|msg]; [|left; reflexivity].
    right. exists kr, (Z.to_nat n), (snd created).
    split; [exact Hk|]. split; [|reflexivity].
    apply lookup_lt_Some in He. exact He.
Qed.

Lemma setIdentityLabel_step (n : Z) (identity : PublicIdentity)
    (label : option string) (p : UserProfile) :
  same_but_entry p (snd (setIdentityLabel n identity label p)).
Proof.
  destruct (indexed_cases p n) as [Hk | [(kr & Hk & Hout) | (kr & entry & Hk & Hn & He)]].
  - unfold setIdentityLabel. rewrite guard_locked by exact Hk. left. reflexivity.
  - unfold setIdentityLabel. erewrite guard_not_found by eassumption. left. reflexivity.
  - rewrite (setIdentityLabel_found p kr n entry identity label Hk Hn He).
    destruct (entry_setIdentityLabel entry identity label) as [entry'|msg];
      [|left; reflexivity].
    right. exists kr, (Z.to_nat n), entry'.
    split; [exact Hk|]. split; [|reflexivity].
    apply lookup_lt_Some in He. exact He.
Qed.

(** The operations that only read. *)
Lemma getIdentities_state (n : Z) (p : UserProfile) :
  snd (getIdentities n p) = p.
Proof.
  destruct (indexed_cases p n) as [Hk | [(kr & Hk & Hout) | (kr & entry & Hk & Hn & He)]].
  - unfold getIdentities. rewrite guard_locked by exact Hk. reflexivity.
  - unfold getIdentities. erewrite guard_not_found by eassumption. reflexivity.
  - rewrite (getIdentities_found p kr n entry Hk Hn He). reflexivity.
Qed.

Lemma signTransaction_state (n : Z) (identity : PublicIdentity)
    (tx : UnsignedTransaction) (codec : TxCodec) (nonce_ : Nonce) (p : UserProfile) :
  snd (signTransaction n identity tx codec nonce_ p) = p.
Proof.
  destruct (indexed_cases p n) as [Hk | [(kr & Hk & Hout) | (kr & entry & Hk & Hn & He)]].
  - unfold signTransaction. rewrite guard_locked by exact Hk. reflexivity.
  - unfold signTransaction. erewrite guard_not_found by eassumption. reflexivity.
  - rewrite (signTransaction_found p kr n entry identity tx codec nonce_ Hk Hn He).
    destruct (entry_createTransactionSignature _ _ _ _); reflexivity.
Qed.

Lemma appendSignature_state (n : Z) (identity : PublicIdentity)
    (t : SignedTransaction) (codec : TxCodec) (nonce_ : Nonce) (p : UserProfile) :
  snd (appendSignature n identity t codec nonce_ p) = p.
Proof.
  destruct (indexed_cases p n) as [Hk | [(kr & Hk & Hout) | (kr & entry & Hk & Hn & He)]].
  - unfold appendSignature. rewrite guard_locked by exact Hk. reflexivity.
  - unfold appendSignature. erewrite guard_not_found by eassumption. reflexivity.
  - rewrite (appendSignature_found p kr n entry identity t codec nonce_ Hk Hn He).
    destruct (entry_createTransactionSignature _ _ _ _); reflexivity.
Qed.

(** One call: [lock] locks, any other call changes at most one entry. *)
Lemma run_call_step (c : call) (p : UserProfile) :
  (c = CallLock
   /\ snd (run_call c p)
      = {| createdAt := createdAt p; keyring := None;
           lockedProducer := producer_update true (lockedProducer p) |})
  \/ (c <> CallLock /\ same_but_entry p (snd (run_call c p))).
Proof.
  destruct c; simpl; [left; auto | right ..]; (split; [discriminate|]).
  - left. reflexivity.
  - apply createIdentity_step.
  - apply setIdentityLabel_step.
  - left. apply getIdentities_state.
  - left. apply signTransaction_state.
  - left. apply appendSignature_state.
Qed.

Lemma same_but_entry_facts (p q : UserProfile) :
  same_but_entry p q ->
  createdAt q = createdAt p
  /\ lockedProducer q = lockedProducer p
  /\ (keyring q = None <-> keyring p = None)
  /\ (forall kr kr', keyring p = Some kr -> keyring q = Some kr' ->
        length (getEntries kr') = length (getEntries kr)).
Proof.
  intros [-> | (kr & i & entry & Hk & Hi & ->)].
  - repeat split; auto. intros kr kr' H1 H2. congruence.
  - simpl. rewrite Hk. repeat split; try discriminate.
    intros kr0 kr' [= <-] [= <-]. simpl. apply length_insert.
Qed.

End ProfileSteps.

(** ** Storing and loading *)

Section StoreLoad.
Import Profile.
Context {T : Types} {C : Collaborators T}.

Lemma loadFrom_two_records (storage : gmap string string) (created ks : string) :
  storage !! "created_at" = Some created ->
  storage !! "keyring" = Some ks ->
  loadFrom storage = UserProfile_new (date_of_string created) ks.
Proof.
  intros Hc Hks. unfold loadFrom, db_get, storageKeyCreatedAt, storageKeyKeyring.
  rewrite Hc. cbv beta iota. rewrite Hks. reflexivity.
Qed.

(** X1. A profile whose timestamp is a valid date is stored by [storeIn]
    and read back by [loadFrom], whatever the store held before and whatever
    is put under other keys afterwards: the timestamp goes through its text,
    the keyring through its serialization, and the loaded profile is
    unlocked.  A profile whose timestamp cannot be printed is not stored:
    [storeIn] fails once the store is cleared, and [loadFrom] then finds no
    record, whatever was stored before. *)
Theorem storeIn_then_loadFrom (p : UserProfile) (kr : Keyring)
    (storage : gmap string string) (es : list KeyringEntry) :
  keyring p = Some kr ->
  deserialize_entries (serialize kr) = Ok es ->
  (forall text, toISOString (createdAt p) = Some text ->
     let loaded :=
       {| createdAt := date_of_string text;
          keyring := Some {| getEntries := es |};
          lockedProducer := producer_new false |} in
     fst (storeIn p storage) = Ok tt
     /\ loadFrom (snd (storeIn p storage)) = Ok loaded
     /\ (forall key v, key <> "created_at" -> key <> "keyring" ->
           loadFrom (<[key := v]> (snd (storeIn p storage))) = Ok loaded))
  /\ (toISOString (createdAt p) = None ->
      storeIn p storage = (Err InvalidTime, ∅)
      /\ loadFrom (snd (storeIn p storage)) = Err (MissingField "created_at")).
Proof.
  intros Hk Hes. split.
  - intros text Ht loaded. unfold storeIn. rewrite Hk, Ht. cbn [fst snd].
    unfold db_put, db_clear, storageKeyCreatedAt, storageKeyKeyring.
    split; [reflexivity|]. split.
    + rewrite (loadFrom_two_records _ text (serialize kr)).
      * unfold UserProfile_new. rewrite Hes. reflexivity.
      * rewrite lookup_insert_ne by done. apply lookup_insert_eq.
      * apply lookup_insert_eq.
    + intros key v H1 H2.
      rewrite (loadFrom_two_records _ text (serialize kr)).
      * unfold UserProfile_new. rewrite Hes. reflexivity.
      * rewrite lookup_insert_ne by congruence.
        rewrite lookup_insert_ne by done. apply lookup_insert_eq.
      * rewrite lookup_insert_ne by congruence. apply lookup_insert_eq.
  - intros Ht. unfold storeIn. rewrite Hk, Ht. cbn [snd].
    split; [reflexivity|].
    unfold loadFrom, db_get, db_clear, storageKeyCreatedAt.
    rewrite lookup_empty. reflexivity.
Qed.

End StoreLoad.

(** ** Identities and entries *)

Section Entries.
Import Profile.
Context {T : Types} {C : Collaborators T}.
Local Open Scope Z_scope.

(** X2. [createIdentity] and [setIdentityLabel] change nothing but the
    entry whose index is [n]: the timestamp, the lock state, the number of
    entries and the entry at every index other than [n] stay as they were,
    whether the call succeeds or fails; for an index out of range, a
    negative one included, the profile is left as it was. *)
Theorem mutations_touch_one_entry (p : UserProfile) (kr : Keyring) (n : Z)
    (identity : PublicIdentity) (label : option string) (q : UserProfile) :
  keyring p = Some kr ->
  q = snd (createIdentity n p) \/ q = snd (setIdentityLabel n identity label p) ->
  createdAt q = createdAt p
  /\ lockedProducer q = lockedProducer p
  /\ exists kr',
       keyring q = Some kr'
       /\ length (getEntries kr') = length (getEntries kr)
       /\ (forall m : nat, Z.of_nat m <> n ->
             getEntries kr' !! m = getEntries kr !! m)
       /\ (~ in_range n kr -> q = p).
Proof.
  intros Hk Hq.
  assert (Hstep : q = p
            \/ exists entry, 0 <= n /\ (Z.to_nat n < length (getEntries kr))%nat
                 /\ q = {| createdAt := createdAt p;
                           keyring := Some {| getEntries :=
                                        <[Z.to_nat n := entry]> (getEntries kr) |};
                           lockedProducer := lockedProducer p |}).
  { destruct (indexed_cases p n)
      as [Hl | [(kr0 & Hk0 & Hout) | (kr0 & entry & Hk0 & Hn & He)]].
    - congruence.
    - left. destruct Hq as [-> | ->].
      + unfold createIdentity. erewrite guard_not_found by eassumption. reflexivity.
      + unfold setIdentityLabel. erewrite guard_not_found by eassumption. reflexivity.
    - assert (kr0 = kr) by congruence. subst kr0.
      pose proof (lookup_lt_Some _ _ _ He) as Hlt.
      destruct Hq as [-> | ->].
      + rewrite (createIdentity_found p kr n entry Hk Hn He).
        destruct (entry_createIdentity entry) as [created|msg]; [|left; reflexivity].
        right. exists (snd created). auto.
      + rewrite (setIdentityLabel_found p kr n entry identity label Hk Hn He).
        destruct (entry_setIdentityLabel entry identity label) as [entry'|msg];
          [|left; reflexivity].
        right. exists entry'. auto. }
  destruct Hstep as [-> | (entry & Hn & Hlt & ->)].
  - split; [reflexivity|]. split; [reflexivity|]. exists kr. auto.
  - simpl. split; [reflexivity|]. split; [reflexivity|].
    eexists. split; [reflexivity|]. simpl. split; [apply length_insert|]. split.
    + intros m Hm. apply list_lookup_insert_ne. lia.
    + intros Hout. exfalso. apply Hout. unfold in_range. lia.
Qed.

(** X3. An identity created in entry [n] is what [getIdentities n] lists
    next: it answers from the state the entry was left in; the identities
    of every other entry are listed as before. *)
Theorem createIdentity_then_getIdentities (p : UserProfile) (kr : Keyring) (n : Z)
    (entry entry' : KeyringEntry) (identity : LocalIdentity) :
  keyring p = Some kr ->
  0 <= n ->
  getEntries kr !! Z.to_nat n = Some entry ->
  entry_createIdentity entry = Ok (identity, entry') ->
  exists q,
    createIdentity n p = (Ok identity, q)
    /\ getIdentities n q = (Ok (entry_getIdentities entry'), q)
    /\ (forall m, m <> n -> fst (getIdentities m q) = fst (getIdentities m p)).
Proof.
  intros Hk Hn He Hcreate.
  pose proof (createIdentity_found p kr n entry Hk Hn He) as Hc.
  rewrite Hcreate in Hc. cbn [fst snd] in Hc.
  pose proof (lookup_lt_Some _ _ _ He) as Hlt.
  eexists. split; [exact Hc|].
  set (q := {| createdAt := createdAt p;
               keyring := Some {| getEntries := <[Z.to_nat n := entry']> (getEntries kr) |};
               lockedProducer := lockedProducer p |}).
  assert (Hkq : keyring q = Some {| getEntries := <[Z.to_nat n := entry']> (getEntries kr) |})
    by reflexivity.
  split.
  - apply (getIdentities_found q _ n entry' Hkq Hn). simpl.
    apply list_lookup_insert_eq. exact Hlt.
  - intros m Hm.
    destruct (indexed_cases p m)
      as [Hl | [(kr0 & Hk0 & Hout) | (kr0 & e & Hk0 & Hm0 & Hem)]].
    + congruence.
    + assert (kr0 = kr) by congruence. subst kr0.
      unfold getIdentities.
      erewrite (guard_not_found m _ p kr) by eassumption.
      erewrite (guard_not_found m _ q) by
        (try exact Hkq; unfold in_range in *; simpl; rewrite length_insert; exact Hout).
      reflexivity.
    + assert (kr0 = kr) by congruence. subst kr0.
      rewrite (getIdentities_found p kr m e Hk Hm0 Hem).
      rewrite (getIdentities_found q _ m e Hkq Hm0); [reflexivity|].
      simpl. rewrite list_lookup_insert_ne by lia. exact Hem.
Qed.

End Entries.

(** ** Invariants of every run *)

Section Runs.
Import Profile.
Context {T : Types} {C : Collaborators T}.

Lemma is_lock_spec (c : call) :
  (c = CallLock /\ is_lock c = true) \/ (c <> CallLock /\ is_lock c = false).
Proof. destruct c; simpl; [left; auto | right ..]; split; congruence. Qed.

Lemma run_call_keyring (c : call) (p : UserProfile) :
  createdAt (snd (run_call c p)) = createdAt p
  /\ (keyring (snd (run_call c p)) = None <-> keyring p = None \/ c = CallLock)
  /\ (forall kr kr', keyring p = Some kr -> keyring (snd (run_call c p)) = Some kr' ->
        length (getEntries kr') = length (getEntries kr))
  /\ (value (lockedProducer (snd (run_call c p)))
      = if is_lock c then true else value (lockedProducer p)).
Proof.
  destruct (run_call_step c p) as [[-> ->] | [Hc Hsame]].
  - simpl. repeat split; auto. discriminate.
  - destruct (same_but_entry_facts _ _ Hsame) as (H1 & H2 & H3 & H4).
    split; [exact H1|]. split; [|split; [exact H4|]].
    + rewrite H3. tauto.
    + rewrite H2. destruct c; simpl; congruence.
Qed.

(** X4. Whatever is called on a profile, in whatever order: its creation
    timestamp never changes, it is locked at the end exactly when it was
    locked at the start or [lock] was among the calls, and as long as it is
    unlocked its keyring has the number of entries it started with. *)
Theorem runs_keep_timestamp_and_entries (calls : list call) (p : UserProfile) :
  createdAt (run_calls_state calls p) = createdAt p
  /\ (keyring (run_calls_state calls p) = None
      <-> keyring p = None \/ List.In CallLock calls)
  /\ (forall kr kr', keyring p = Some kr ->
        keyring (run_calls_state calls p) = Some kr' ->
        length (getEntries kr') = length (getEntries kr)).
Proof.
  revert p. induction calls as [|c calls IH]; intros p.
  - simpl. repeat split; try tauto. intros kr kr' H1 H2. congruence.
  - destruct (run_call_keyring c p) as (Hc & Hk & Hlen & _).
    destruct (IH (snd (run_call c p))) as (IHc & IHk & IHlen).
    simpl run_calls_state. split; [congruence|]. split.
    + rewrite IHk, Hk. simpl. intuition auto.
    + intros kr kr' Hp Hq.
      destruct (keyring (snd (run_call c p))) as [kr1|] eqn:Hmid.
      * rewrite (IHlen kr1 kr' eq_refl Hq). apply (Hlen kr kr1 Hp eq_refl).
      * exfalso. assert (Hnone : keyring (run_calls_state calls (snd (run_call c p))) = None)
          by (apply IHk; left; reflexivity).
        congruence.
Qed.

(** X5. The lock state a profile announces is the truth about its keyring:
    from its construction on and after any calls, the announced value is
    [true] exactly when the keyring is gone, and that is exactly when
    [lock] has been called. *)
Theorem announced_lock_state_is_true (created : ReadonlyDate) (ks : string)
    (p : UserProfile) (calls : list call) :
  UserProfile_new created ks = Ok p ->
  (value (lockedProducer (run_calls_state calls p)) = true
     <-> keyring (run_calls_state calls p) = None)
  /\ (value (lockedProducer (run_calls_state calls p)) = true
     <-> List.In CallLock calls).
Proof.
  intros Hnew.
  assert (Hstart : value (lockedProducer p) = false /\ keyring p <> None).
  { unfold UserProfile_new in Hnew.
    destruct (deserialize_entries ks); [|discriminate].
    injection Hnew as <-. simpl. split; [reflexivity | discriminate]. }
  clear Hnew. revert p Hstart.
  assert (Hgen : forall cs p,
            (value (lockedProducer p) = true <-> keyring p = None) ->
            (value (lockedProducer (run_calls_state cs p)) = true
               <-> keyring (run_calls_state cs p) = None)
            /\ (value (lockedProducer (run_calls_state cs p)) = true
               <-> value (lockedProducer p) = true \/ List.In CallLock cs)).
  { induction cs as [|c cs IH]; intros p Hp.
    - simpl. tauto.
    - destruct (run_call_keyring c p) as (_ & Hk & _ & Hv).
      assert (Hmid : value (lockedProducer (snd (run_call c p))) = true
                     <-> keyring (snd (run_call c p)) = None).
      { rewrite Hk, Hv. destruct (is_lock_spec c) as [[-> ->] | [Hne ->]]; [tauto|].
        rewrite Hp. tauto. }
      destruct (IH _ Hmid) as [IH1 IH2]. simpl run_calls_state.
      split; [exact IH1|]. rewrite IH2, Hv. simpl.
      destruct (is_lock_spec c) as [[-> ->] | [Hne ->]]; [tauto|].
      intuition congruence. }
  intros p [Hv Hk]. destruct (Hgen calls p) as [H1 H2].
  - rewrite Hv. split; [discriminate | intros H; contradiction].
  - split; [exact H1|]. rewrite H2, Hv. split; [intros [H|H]; [discriminate|exact H] | auto].
Qed.

End Runs.

(** ** Locking one instance *)

Section LockIsPerInstance.
Import Profile.
Context {T : Types} {C : Collaborators T}.

(** X6. Locking concerns the instance only: once a profile with a valid
    timestamp has been stored, locking it makes its own [storeIn] fail and
    leaves the store alone, and [loadFrom] still builds an unlocked profile
    from that store. *)
Theorem stored_profile_survives_lock (p : UserProfile) (kr : Keyring)
    (storage : gmap string string) (es : list KeyringEntry) (text : string) :
  keyring p = Some kr ->
  toISOString (createdAt p) = Some text ->
  deserialize_entries (serialize kr) = Ok es ->
  let db := snd (storeIn p storage) in
  let locked := snd (lock p) in
  fst (storeIn p storage) = Ok tt
  /\ storeIn locked db = (Err ProfileLocked, db)
  /\ exists q,
       loadFrom (snd (storeIn locked db)) = Ok q
       /\ createdAt q = date_of_string text
       /\ keyring q = Some {| getEntries := es |}
       /\ value (lockedProducer q) = false
       /\ value (lockedProducer locked) = true.
Proof.
  intros Hk Ht Hes db locked.
  assert (Hlocked : storeIn locked db = (Err ProfileLocked, db)) by reflexivity.
  split; [unfold storeIn; rewrite Hk, Ht; reflexivity|].
  split; [exact Hlocked|]. rewrite Hlocked. cbn [snd].
  subst db. unfold storeIn. rewrite Hk, Ht. cbn [snd].
  unfold db_put, db_clear, storageKeyCreatedAt, storageKeyKeyring.
  rewrite (loadFrom_two_records _ text (serialize kr)).
  - unfold UserProfile_new. rewrite Hes. eexists. split; [reflexivity|]. simpl. auto.
  - rewrite lookup_insert_ne by done. apply lookup_insert_eq.
  - apply lookup_insert_eq.
Qed.

End LockIsPerInstance.

(** ** Cosigning *)

Section Cosigning.
Import Profile.
Context {T : Types} {C : Collaborators T}.
Local Open Scope Z_scope.

(** X7. A cosigning round in which every cosigner's entry signs keeps the
    transaction and the primary signature, leaves the profile as it is, and
    appends one signature per cosigner, in the order of the cosigners, each
    with the cosigner's public key and nonce and the signature its entry
    made over the bytes of the one transaction under that nonce. *)
Theorem cosigning_appends_in_order (cs : list cosigner) (p : UserProfile)
    (kr : Keyring) (t : SignedTransaction) (codec : TxCodec) :
  keyring p = Some kr ->
  Forall (fun c => exists sig, cosigner_signs kr codec (transaction t) c sig) cs ->
  exists t' added,
    appendSignatures cs t codec p = (Ok t', p)
    /\ transaction t' = transaction t
    /\ primarySignature t' = primarySignature t
    /\ otherSignatures t' = otherSignatures t ++ added
    /\ Forall2 (fun c s =>
                  publicKey s = pubkey (cosigner_identity c)
                  /\ nonce s = cosigner_nonce c
                  /\ cosigner_signs kr codec (transaction t) c (signature s))
         cs added.
Proof.
  intros Hk Hall. revert t Hall.
  induction cs as [|c cs IH]; intros t Hall.
  - exists t, []. simpl. rewrite app_nil_r. repeat split. constructor.
  - inversion Hall as [|? ? (sig & Hn & entry & He & Hsig) Hrest]; subst.
    pose proof (appendSignature_found p kr (cosigner_entry c) entry
                  (cosigner_identity c) t codec (cosigner_nonce c) Hk Hn He) as Happ.
    rewrite Hsig in Happ.
    set (t1 := {| transaction := transaction t;
                  primarySignature := primarySignature t;
                  otherSignatures :=
                    otherSignatures t ++
                    [{| publicKey := pubkey (cosigner_identity c);
                        nonce := cosigner_nonce c; signature := sig |}] |}) in *.
    destruct (IH t1 Hrest) as (t' & added & Hrun & Htx & Hprim & Hothers & Hadded).
    exists t', ({| publicKey := pubkey (cosigner_identity c);
                   nonce := cosigner_nonce c; signature := sig |} :: added).
    split.
    { simpl appendSignatures. unfold bind at 1. rewrite Happ. exact Hrun. }
    split; [exact Htx|]. split; [exact Hprim|]. split.
    { rewrite Hothers. simpl. rewrite <- app_assoc. reflexivity. }
    constructor; [|exact Hadded].
    simpl. split; [reflexivity|]. split; [reflexivity|].
    split; [exact Hn|]. exists entry. auto.
Qed.

End Cosigning.

(** ** The BNS codec's encoders *)

Section BnsEncoders.
Import Profile BnsCodec.
Context {T : Types} {B : KeyBundles T}.
Local Open Scope Z_scope.

Lemma or_null_same (x y : number) : or_null x = or_null y <-> same_amount x y.
Proof.
  unfold or_null, same_amount. destruct (falsy x) eqn:Ex, (falsy y) eqn:Ey; split.
  - auto.
  - reflexivity.
  - discriminate.
  - intros [-> | [_ H]]; [congruence | discriminate].
  - discriminate.
  - intros [<- | [H _]]; [congruence | discriminate].
  - intros [= ->]. left. reflexivity.
  - intros [-> | [H _]]; [reflexivity | discriminate].
Qed.

(** X8. [encodeToken] leaves an amount out exactly when it is [NaN] or a
    zero of either sign, and keeps any other amount and the ticker.  Two
    tokens are encoded alike exactly when their tickers are the same and
    each amount is the same or left out in both: a token with a [NaN] amount
    and one with a zero amount are encoded alike. *)
Theorem encodeToken_falsy_is_absent (a b : FungibleToken) :
  (coin_whole (encodeToken a) = None
     <-> PrimFloat.is_nan (whole a) = true \/ PrimFloat.is_zero (whole a) = true)
  /\ (coin_fractional (encodeToken a) = None
     <-> PrimFloat.is_nan (fractional a) = true
         \/ PrimFloat.is_zero (fractional a) = true)
  /\ (falsy (whole a) = false -> coin_whole (encodeToken a) = Some (whole a))
  /\ (falsy (fractional a) = false ->
      coin_fractional (encodeToken a) = Some (fractional a))
  /\ coin_ticker (encodeToken a) = tokenTicker a
  /\ (encodeToken a = encodeToken b
     <-> tokenTicker a = tokenTicker b
         /\ same_amount (whole a) (whole b)
         /\ same_amount (fractional a) (fractional b))
  /\ falsy PrimFloat.nan = true
  /\ falsy PrimFloat.zero = true
  /\ falsy PrimFloat.neg_zero = true.
Proof.
  assert (Hnone : forall x,
            or_null x = None
            <-> PrimFloat.is_nan x = true \/ PrimFloat.is_zero x = true).
  { intros x. unfold or_null, falsy. rewrite <- orb_true_iff.
    destruct (PrimFloat.is_nan x || PrimFloat.is_zero x); split;
      congruence. }
  assert (Hsome : forall x, falsy x = false -> or_null x = Some x).
  { intros x H. unfold or_null. rewrite H. reflexivity. }
  unfold encodeToken. cbn [coin_whole coin_fractional coin_ticker].
  split; [apply Hnone|]. split; [apply Hnone|].
  split; [apply Hsome|]. split; [apply Hsome|].
  split; [reflexivity|].
  split; [|split; [reflexivity|split; reflexivity]].
  rewrite <- !or_null_same. split.
  - intros [= Hw Hf Ht]. auto.
  - intros (Ht & Hw & Hf). rewrite Ht, Hw, Hf. reflexivity.
Qed.

(** X9. [encodeFullSig] succeeds exactly for an Ed25519 key, and then
    carries the nonce as the sequence, the key's data and the signature
    bytes; for any other algorithm it fails with the message that names the
    algorithm, as [encodePubKey] and [encodeSignature] do. *)
Theorem encodeFullSig_ed25519_only (sig : FullSignature) :
  (algo (publicKey sig) = ED25519 ->
     encodeFullSig sig
     = Ok {| sequence := nonce sig;
             pubKey := {| ed25519 := data (publicKey sig) |};
             sig_signature := {| ed25519 := signature sig |} |})
  /\ (algo (publicKey sig) <> ED25519 ->
      encodeFullSig sig = Err (unsupported (algo (publicKey sig)))
      /\ encodePubKey (publicKey sig) = Err (unsupported (algo (publicKey sig)))
      /\ encodeSignature (algo (publicKey sig)) (signature sig)
         = Err (unsupported (algo (publicKey sig))))
  /\ ((exists m, encodeFullSig sig = Ok m) <-> algo (publicKey sig) = ED25519).
Proof.
  unfold encodeFullSig, encodePubKey, encodeSignature.
  destruct (Algorithm_eq_dec (algo (publicKey sig)) ED25519) as [He|Hne].
  - split; [reflexivity|]. split; [contradiction|]. split; eauto.
  - split; [contradiction|]. split; [auto|].
    split; [intros [m Hm]; discriminate | contradiction].
Qed.

(** X10. The encoding binds a signature to its nonce: two signatures that
    are encoded alike have the same nonce, key data and signature bytes. *)
Theorem encodeFullSig_binds (s1 s2 : FullSignature) (m : StdSignature) :
  encodeFullSig s1 = Ok m ->
  encodeFullSig s2 = Ok m ->
  nonce s1 = nonce s2
  /\ algo (publicKey s1) = algo (publicKey s2)
  /\ data (publicKey s1) = data (publicKey s2)
  /\ signature s1 = signature s2.
Proof.
  unfold encodeFullSig, encodePubKey, encodeSignature.
  destruct (Algorithm_eq_dec (algo (publicKey s1)) ED25519) as [H1|]; [|discriminate].
  destruct (Algorithm_eq_dec (algo (publicKey s2)) ED25519) as [H2|]; [|discriminate].
  intros [= <-] [= Hn Hd Hs]. repeat split; congruence.
Qed.

End BnsEncoders.

Section SignThenEncode.
Import Profile BnsCodec.
Context {T : Types} {C : Collaborators T} {B : KeyBundles T}.
Local Open Scope Z_scope.

(** X11. What [signTransaction] returns for an Ed25519 identity is encoded
    by [encodeFullSig] with the nonce the caller signed with as the
    sequence, the identity's key data and the entry's signature. *)
Theorem signTransaction_then_encodeFullSig (p : UserProfile) (kr : Keyring) (n : Z)
    (entry : KeyringEntry) (identity : PublicIdentity) (tx : UnsignedTransaction)
    (codec : TxCodec) (nonce_ : Nonce) (sig : SignatureBytes) :
  keyring p = Some kr ->
  0 <= n ->
  getEntries kr !! Z.to_nat n = Some entry ->
  entry_createTransactionSignature entry identity
    (bytesToSign codec tx nonce_) "chain!" = Ok sig ->
  algo (pubkey identity) = ED25519 ->
  exists st,
    signTransaction n identity tx codec nonce_ p = (Ok st, p)
    /\ encodeFullSig (primarySignature st)
       = Ok {| sequence := nonce_;
               pubKey := {| ed25519 := data (pubkey identity) |};
               sig_signature := {| ed25519 := sig |} |}.
Proof.
  intros Hk Hn He Hsig Halgo.
  pose proof (signTransaction_found p kr n entry identity tx codec nonce_ Hk Hn He)
    as Hs.
  rewrite Hsig in Hs. eexists. split; [exact Hs|].
  unfold encodeFullSig, encodePubKey, encodeSignature. simpl.
  destruct (Algorithm_eq_dec (algo (pubkey identity)) ED25519); [reflexivity|].
  contradiction.
Qed.

End SignThenEncode.

(** ** From a validated mnemonic back to it *)

Section Reencode.
Import Bip39.

Lemma join_split_space (s : string) : join_space (split_space s) = s.
Proof.
  induction s as [|c r IH]; [reflexivity|].
  simpl split_space. destruct (is_space c) eqn:Ec.
  - apply is_space_true in Ec. subst c.
    destruct (split_space r) as [|w ws] eqn:Er.
    + exfalso. apply (split_space_not_nil r Er).
    + change (join_space (EmptyString :: w :: ws))
        with (String space (join_space (w :: ws))).
      rewrite IH. reflexivity.
  - destruct (split_space r) as [|w ws] eqn:Er.
    + exfalso. apply (split_space_not_nil r Er).
    + rewrite <- IH. destruct ws; reflexivity.
Qed.

Lemma index_from_Some (ws : list string) (i j : nat) (w : string) :
  index_from i ws w = Some j ->
  (i <= j < i + length ws)%nat /\ nth (j - i) ws EmptyString = w.
Proof.
  revert i. induction ws as [|x ws IH]; intros i; simpl; [discriminate|].
  destruct (String.eqb x w) eqn:E.
  - intros [= <-]. apply String.eqb_eq in E. rewrite Nat.sub_diag. split; [lia | exact E].
  - intros H. destruct (IH _ H) as [Hr Hn]. split; [lia|].
    replace (j - i)%nat with (S (j - S i)) by lia. exact Hn.
Qed.

Lemma indexes_Some (wordlist ws : list string) (idx : list nat) :
  indexes wordlist ws = Some idx ->
  Forall (fun i => (i < length wordlist)%nat) idx
  /\ map (fun i => nth i wordlist EmptyString) idx = ws
  /\ length idx = length ws.
Proof.
  revert idx. induction ws as [|w ws IH]; intros idx; simpl.
  - intros [= <-]. auto.
  - destruct (index_of wordlist w) as [i|] eqn:Ei; [|discriminate].
    destruct (indexes wordlist ws) as [rest|]; [|discriminate].
    intros [= <-]. destruct (IH rest eq_refl) as (Hb & Hm & Hl).
    unfold index_of in Ei. apply index_from_Some in Ei as [Hr Hn].
    rewrite Nat.sub_0_r in Hn. simpl. repeat split.
    + constructor; [lia | exact Hb].
    + rewrite Hn, Hm. reflexivity.
    + rewrite Hl. reflexivity.
Qed.

Lemma to_nat_byte_of_nat (v : nat) : (v < 256)%nat -> Byte.to_nat (byte_of_nat v) = v.
Proof.
  intros Hv. unfold byte_of_nat. rewrite Nat.mod_small by exact Hv.
  destruct (Byte.of_nat v) as [b|] eqn:E.
  - apply Byte.to_of_nat. exact E.
  - apply Byte.of_nat_None_iff in E. lia.
Qed.

Lemma bytes_to_bits_of_groups (gs : list (list bool)) :
  Forall (fun g => length g = 8%nat) gs ->
  bytes_to_bits (map (fun g => byte_of_nat (nat_of_bits g)) gs) = concat gs.
Proof.
  unfold bytes_to_bits. induction 1 as [|g gs Hg _ IH]; [reflexivity|].
  cbn [map flat_map concat]. rewrite IH. f_equal.
  rewrite to_nat_byte_of_nat.
  - rewrite <- Hg. apply bits_of_nat_of_bits.
  - pose proof (nat_of_bits_bound g) as Hb. rewrite Hg in Hb. exact Hb.
Qed.

Lemma bytes_to_bits_to_bytes (bits : list bool) (k : nat) :
  length bits = (k * 8)%nat ->
  bytes_to_bits (bits_to_bytes bits) = bits /\ length (bits_to_bytes bits) = k.
Proof.
  intros Hl. destruct (chunks_exact 8 k bits) as (Hc & Hf & Hn); [lia | exact Hl |].
  unfold bits_to_bytes. split; [|rewrite length_map; exact Hn].
  rewrite (bytes_to_bits_of_groups _ Hf). exact Hc.
Qed.

Lemma map_nat_of_bits_of_nat (idx : list nat) :
  Forall (fun i => (i < 2048)%nat) idx ->
  map nat_of_bits (chunks 11 (flat_map (bits_of_nat 11) idx)) = idx.
Proof.
  intros Hb. rewrite chunks_flat_map with (n := 11%nat);
    [| lia | intros; apply length_bits_of_nat].
  rewrite map_map. induction Hb as [|i idx Hi _ IH]; [reflexivity|].
  cbn [map]. rewrite IH. f_equal.
  rewrite nat_of_bits_of_nat. apply Nat.mod_small. exact Hi.
Qed.

Variable wordlist : list string.
Variable hash : list byte -> list byte.
Hypothesis wordlist_length : length wordlist = 2048%nat.

(** The entropy a word sequence of an allowed length carries is of an
    allowed length and has these words. *)
Lemma words_entropy_words (words : list string) (entropy : list byte) :
  allowed_word_count (length words) = true ->
  words_entropy wordlist hash words = Some entropy ->
  (length entropy * 3 = length words * 4)%nat
  /\ allowed_entropy_length (length entropy) = true
  /\ entropy_words wordlist hash entropy = words.
Proof using wordlist_length.
  intros Hcount Hent.
  assert (Hk : exists k, length words = (3 * k)%nat /\ (4 <= k <= 8)%nat).
  { apply allowed_word_count_In in Hcount. simpl in Hcount.
    destruct Hcount as [<- | [<- | [<- | [<- | [<- | []]]]]];
      [exists 4%nat | exists 5%nat | exists 6%nat | exists 7%nat | exists 8%nat]; lia. }
  destruct Hk as (k & Hwords & Hk4 & Hk8).
  unfold words_entropy, words_bits in Hent.
  destruct (indexes wordlist words) as [idx|] eqn:Hidx; [|discriminate].
  destruct (indexes_Some _ _ _ Hidx) as (Hb & Hmap & Hlen).
  set (bits := flat_map (bits_of_nat 11) idx) in *.
  assert (Hbits : length bits = (k * 33)%nat).
  { unfold bits. rewrite (length_flat_map_const _ 11%nat) by apply length_bits_of_nat.
    lia. }
  unfold checksum_ok, split_bits in Hent. rewrite Hbits in Hent.
  replace (k * 33 / 33)%nat with k in Hent by (rewrite Nat.div_mul; lia).
  cbn [fst] in Hent.
  destruct (bits_eqb _ _) eqn:Hcs; [|discriminate].
  injection Hent as <-. apply bits_eqb_eq in Hcs.
  destruct (bytes_to_bits_to_bytes (firstn (k * 33 - k) bits) (4 * k)) as [Hback Hbytes].
  { rewrite length_firstn. lia. }
  split; [lia|]. split.
  { apply allowed_entropy_length_In. rewrite Hbytes. simpl.
    assert (k = 4 \/ k = 5 \/ k = 6 \/ k = 7 \/ k = 8)%nat as Hc by lia.
    destruct Hc as [-> | [-> | [-> | [-> | ->]]]]; simpl; tauto. }
  unfold entropy_words, entropy_indexes.
  rewrite Hback, <- Hcs, firstn_skipn.
  unfold bits. rewrite map_nat_of_bits_of_nat.
  - exact Hmap.
  - rewrite wordlist_length in Hb. exact Hb.
Qed.

(** What the validator accepts, [decode] maps to an entropy that [encode]
    maps back to it. *)
Lemma validated_reencodes (s : string) (m : EnglishMnemonic) :
  EnglishMnemonic_new wordlist hash s = Ok m ->
  asString m = s
  /\ exists entropy,
       decode wordlist hash m = Ok entropy
       /\ encode wordlist hash entropy = Ok m
       /\ (length entropy * 3 = length (split_space s) * 4)%nat.
Proof using wordlist_length.
  unfold EnglishMnemonic_new.
  destruct (format_ok s); [|discriminate]. simpl.
  destruct (allowed_word_count (length (split_space s))) eqn:Hcount; [|discriminate].
  simpl.
  destruct (words_entropy wordlist hash (split_space s)) as [entropy|] eqn:Hent;
    [|discriminate].
  intros [= <-]. split; [reflexivity|]. exists entropy.
  destruct (words_entropy_words _ _ Hcount Hent) as (Hlen & Hallowed & Hwords).
  unfold decode, encode. simpl asString. rewrite Hent, Hallowed, Hwords.
  rewrite join_split_space. auto.
Qed.

End Reencode.

Section EnglishReencode.
Import Bip39.

(** Every phrase the validator accepts decodes without error, to an
    entropy of four bytes for every three words, and that entropy encodes
    back to the very phrase. *)
Lemma validated_mnemonic_roundtrip (s : string) (m : EnglishMnemonic) :
  english_mnemonic s = Ok m ->
  asString m = s
  /\ exists e,
       english_decode m = Ok e
       /\ english_encode e = Ok m
       /\ (length e * 3 = length (split_space s) * 4)%nat.
Proof. apply (validated_reencodes english Sha2.sha256 english_length). Qed.

(** The validator accepts exactly the phrases that [encode] produces,
    and each of them comes from one entropy only. *)
Lemma validator_accepts_image_of_encode (s : string) :
  (english_mnemonic s = Ok (MkMnemonic s)
     <-> exists e, english_encode e = Ok (MkMnemonic s))
  /\ (forall e1 e2, english_encode e1 = Ok (MkMnemonic s) ->
                    english_encode e2 = Ok (MkMnemonic s) -> e1 = e2).
Proof.
  split; [split|].
  - intros H.
    destruct (validated_reencodes english Sha2.sha256 english_length s _ H)
      as (_ & e & _ & He & _).
    exists e. exact He.
  - intros [e He].
    apply (encode_validated english Sha2.sha256 english_length english_nodup
             english_words sha256_nonempty e _ He).
  - assert (Hdec : forall e, english_encode e = Ok (MkMnemonic s) ->
                             english_decode (MkMnemonic s) = Ok e).
    { intros e He. assert (Hallowed : allowed_entropy_length (length e) = true).
      { unfold english_encode, encode in He.
        destruct (allowed_entropy_length (length e)); [reflexivity | discriminate]. }
      destruct (decode_encode english Sha2.sha256 english_length english_nodup
                  english_no_space sha256_nonempty e Hallowed) as (m & Hm & Hd).
      unfold english_encode in He. rewrite He in Hm. injection Hm as <-. exact Hd. }
    intros e1 e2 H1 H2. apply Hdec in H1, H2. congruence.
Qed.

(** The phrase [encode] returns for [L] bytes of entropy has [3L/4]
    words, every one from the wordlist, with single spaces between them and
    none around them. *)
Lemma encode_phrase_shape (e : list byte) (m : EnglishMnemonic) :
  english_encode e = Ok m ->
  (length (split_space (asString m)) * 4 = length e * 3)%nat
  /\ Forall (fun w => List.In w english) (split_space (asString m))
  /\ ~ format_violation (asString m)
  /\ asString m = join_space (split_space (asString m)).
Proof.
  intros He. unfold english_encode, encode in He.
  destruct (allowed_entropy_length (length e)) eqn:Hallowed; [|discriminate].
  injection He as <-. simpl asString.
  destruct (allowed_entropy_length_quarters _ Hallowed) as (k & Hl & Hk).
  destruct (entropy_words_in_wordlist english Sha2.sha256 english_length
              sha256_nonempty e k Hl Hk) as (Hne & Hin & Hlen).
  rewrite (split_entropy_words english Sha2.sha256 english_length english_no_space
             sha256_nonempty e Hallowed).
  split; [lia|]. split; [exact Hin|]. split; [|reflexivity].
  apply format_ok_true_iff. apply format_ok_join_space; [exact Hne|].
  eapply Forall_impl; [exact Hin|]. intros w Hw. simpl.
  pose proof english_words as Hwords. rewrite Forall_forall in Hwords.
  apply Hwords. apply list_elem_of_In. exact Hw.
Qed.

End EnglishReencode.
(** ** The further properties at concrete inputs *)

Section MoreWitnesses.
Import Profile BnsCodec Demo.

Lemma storeIn_then_loadFrom_witness :
  @loadFrom types collaborators
    (snd (@storeIn types collaborators profile {[ "foo"%string := "bar"%string ]}))
  = Ok (@Build_UserProfile types "2018-05-01T12:00:00.000Z"%string
          (Some (@Build_Keyring types [])) (producer_new false))
  /\ @loadFrom types collaborators
       (snd (@storeIn types collaborators undated demo_store))
     = Err (MissingField "created_at").
Proof.
  split.
  - apply (proj1 (@storeIn_then_loadFrom types collaborators profile demo_keyring
                    {[ "foo"%string := "bar"%string ]} [] eq_refl eq_refl)
             "2018-05-01T12:00:00.000Z"%string eq_refl).
  - apply (proj2 (@storeIn_then_loadFrom types collaborators undated
                    (@Build_Keyring types []) demo_store [] eq_refl eq_refl)).
    reflexivity.
Defined.

Lemma mutations_touch_one_entry_witness :
  (let q := snd (@createIdentity types collaborators 1 profile) in
   createdAt q = createdAt profile
   /\ lockedProducer q = lockedProducer profile
   /\ exists kr',
        keyring q = Some kr'
        /\ length (getEntries kr') = length (getEntries demo_keyring)
        /\ (forall m : nat, Z.of_nat m <> 1%Z ->
              getEntries kr' !! m = getEntries demo_keyring !! m)
        /\ (~ in_range 1 demo_keyring ->
            snd (@createIdentity types collaborators 1 profile) = profile))
  /\ snd (@createIdentity types collaborators (-1) profile) = profile.
Proof.
  split.
  - apply (@mutations_touch_one_entry types collaborators profile demo_keyring 1
             alice None).
    + reflexivity.
    + left. reflexivity.
  - destruct (@mutations_touch_one_entry types collaborators profile demo_keyring
                (-1) alice None
                (snd (@createIdentity types collaborators (-1) profile))
                eq_refl (or_introl eq_refl))
      as (_ & _ & kr' & _ & _ & _ & Hout).
    apply Hout. unfold in_range. lia.
Defined.

Lemma createIdentity_then_getIdentities_witness :
  exists q,
    @createIdentity types collaborators 1 profile = (Ok (fresh_key [bob], None), q)
    /\ @getIdentities types collaborators 1 q
       = (Ok [bob; (fresh_key [bob], None)], q)
    /\ (forall m, m <> 1%Z ->
          fst (@getIdentities types collaborators m q)
          = fst (@getIdentities types collaborators m profile)).
Proof.
  apply (@createIdentity_then_getIdentities types collaborators profile demo_keyring
           1 [bob] ([bob] ++ [(fresh_key [bob], None)]) (fresh_key [bob], None)).
  - reflexivity.
  - lia.
  - reflexivity.
  - reflexivity.
Defined.

Lemma runs_keep_timestamp_and_entries_witness :
  keyring (@run_calls_state types collaborators demo_calls profile) = None
  /\ length (getEntries demo_keyring) = length (getEntries demo_keyring).
Proof.
  pose proof (@runs_keep_timestamp_and_entries types collaborators demo_calls profile)
    as (_ & Hlock & Hlen).
  split.
  - apply Hlock. right. simpl. auto.
  - apply (proj2 (proj2 (@runs_keep_timestamp_and_entries types collaborators []
                           profile)) demo_keyring demo_keyring); reflexivity.
Defined.

Lemma announced_lock_state_is_true_witness :
  value (lockedProducer
           (@run_calls_state types collaborators demo_calls
              (@Build_UserProfile types "2018-05-01T12:00:00.000Z"%string
                 (Some (@Build_Keyring types [])) (producer_new false))))
  = true.
Proof.
  apply (proj2 (@announced_lock_state_is_true types collaborators
                  "2018-05-01T12:00:00.000Z"%string "[]"%string _ demo_calls eq_refl)).
  simpl. auto.
Defined.

Lemma cosigning_appends_in_order_witness :
  exists t' added,
    @appendSignatures types collaborators cosigners signed codec profile
      = (Ok t', profile)
    /\ transaction t' = transaction signed
    /\ primarySignature t' = primarySignature signed
    /\ otherSignatures t' = otherSignatures signed ++ added
    /\ Forall2 (fun c s =>
                  publicKey s = pubkey (cosigner_identity c)
                  /\ nonce s = cosigner_nonce c
                  /\ @cosigner_signs types collaborators demo_keyring codec
                       (transaction signed) c (signature s))
         cosigners added.
Proof.
  apply (@cosigning_appends_in_order types collaborators cosigners profile
           demo_keyring signed codec).
  - reflexivity.
  - apply List.Forall_cons; [|apply List.Forall_cons; [|apply List.Forall_nil]].
    + eexists. split; [unfold cosigner_entry; simpl; lia|].
      exists [bob]. split; reflexivity.
    + eexists. split; [unfold cosigner_entry; simpl; lia|].
      exists [alice]. split; reflexivity.
Defined.

Lemma encodeToken_falsy_is_absent_witness :
  coin_whole (encodeToken one_iov) = Some PrimFloat.one
  /\ coin_fractional (encodeToken one_iov) = None
  /\ encodeToken one_iov = encodeToken nan_iov.
Proof.
  pose proof (encodeToken_falsy_is_absent one_iov nan_iov)
    as (_ & Hf & Hw & _ & _ & Hsame & _).
  split; [|split].
  - apply Hw. reflexivity.
  - apply Hf. right. reflexivity.
  - apply Hsame. split; [reflexivity|]. split.
    + left. reflexivity.
    + right. split; reflexivity.
Defined.

Lemma encodeFullSig_ed25519_only_witness :
  @encodeFullSig types key_bundles alice_signature
    = Ok (@Build_StdSignature types 7%Z {| ed25519 := [x01] |} {| ed25519 := [xff] |})
  /\ @encodeFullSig types key_bundles other_signature
     = Err "unsupported algorithm: secp256k1"%string.
Proof.
  split.
  - apply (proj1 (@encodeFullSig_ed25519_only types key_bundles alice_signature)).
    reflexivity.
  - apply (proj1 (proj1 (proj2
             (@encodeFullSig_ed25519_only types key_bundles other_signature))
             ltac:(discriminate))).
Defined.

Lemma encodeFullSig_binds_witness :
  @nonce types alice_signature = @nonce types alice_signature
  /\ @algo types key_bundles (publicKey alice_signature)
     = @algo types key_bundles (publicKey alice_signature)
  /\ @data types key_bundles (publicKey alice_signature)
     = @data types key_bundles (publicKey alice_signature)
  /\ signature alice_signature = signature alice_signature.
Proof.
  apply (@encodeFullSig_binds types key_bundles alice_signature alice_signature
           (@Build_StdSignature types 7%Z {| ed25519 := [x01] |} {| ed25519 := [xff] |}));
    reflexivity.
Defined.

Lemma signTransaction_then_encodeFullSig_witness :
  exists st,
    @signTransaction types collaborators 0 alice [x0a; x0b] codec 9%Z profile
      = (Ok st, profile)
    /\ @encodeFullSig types key_bundles (primarySignature st)
       = Ok (@Build_StdSignature types 9%Z {| ed25519 := [x01] |}
               {| ed25519 := [x0a; x0b] ++ be_bytes 8 9 ++ list_byte_of_string "chain!" |}).
Proof.
  apply (@signTransaction_then_encodeFullSig types collaborators key_bundles
           profile demo_keyring 0 [alice] alice [x0a; x0b] codec 9%Z).
  - reflexivity.
  - lia.
  - reflexivity.
  - vm_compute. reflexivity.
  - reflexivity.
Defined.

Lemma stored_profile_survives_lock_witness :
  let db := snd (@storeIn types collaborators profile ∅) in
  fst (@storeIn types collaborators profile ∅) = Ok tt
  /\ @storeIn types collaborators demo_locked db = (Err ProfileLocked, db)
  /\ exists q,
       @loadFrom types collaborators (snd (@storeIn types collaborators demo_locked db))
         = Ok q
       /\ createdAt q = "2018-05-01T12:00:00.000Z"%string
       /\ keyring q = Some (@Build_Keyring types [])
       /\ value (lockedProducer q) = false
       /\ value (lockedProducer demo_locked) = true.
Proof.
  apply (@stored_profile_survives_lock types collaborators profile demo_keyring ∅ []
           "2018-05-01T12:00:00.000Z"%string);
    reflexivity.
Defined.

End MoreWitnesses.
